(** * G414 engine and analysis coordinator: a shallow embedding

    The development follows [engine.js] (evaluator, transposition table,
    alpha-beta, quiescence, root driver) and [analysis.js] (plan generator,
    coordinator).  JavaScript numbers are modelled by exact rationals [Q];
    [Math.round] is [floor (x + 1/2)].  The chess.js position object is an
    interface ([ChessLib]) whose mutation is made explicit by state passing. *)

From Stdlib Require Import QArith Qround Qabs ZArith Lia Lqa Sorted.
From stdpp Require Import gmap strings list fin_maps pretty.

Local Open Scope Z_scope.

(** ** JavaScript arithmetic on rationals *)

Module Js.

Definition leb (a b : Q) : bool := Qle_bool a b.
Definition ltb (a b : Q) : bool := negb (Qle_bool b a).
Definition geb (a b : Q) : bool := Qle_bool b a.
Definition gtb (a b : Q) : bool := negb (Qle_bool a b).

Definition max (a b : Q) : Q := if ltb a b then b else a.
Definition min (a b : Q) : Q := if ltb b a then b else a.

(** [Math.round]: nearest integer, ties towards plus infinity. *)
Definition round (x : Q) : Z := Qfloor (x + (1 # 2)).
Definition floor (x : Q) : Z := Qfloor x.
Definition ceil (x : Q) : Z := Qceiling x.
Definition abs (x : Q) : Q := Qabs x.

Definition ofZ (z : Z) : Q := inject_Z z.
Definition ofNat (n : nat) : Q := inject_Z (Z.of_nat n).

End Js.

(** ** Transposition table ([ttKey], [ttGet], [ttSet], [ttGetMove]) *)

Definition TT_SIZE : Z := Z.shiftl 1 20.

Inductive TTFlag := TT_EXACT | TT_LOWER | TT_UPPER.

Global Instance TTFlag_eq_dec : EqDecision TTFlag.
Proof. solve_decision. Defined.

Record TTEntry := mkTTEntry {
  e_fen : string;
  e_depth : nat;
  e_score : Q;
  e_flag : TTFlag;
  e_bestMove : option string
}.

Definition charCode (a : Ascii.ascii) : Z := Z.of_N (Ascii.N_of_ascii a).

(** [h = (h * 31 + fen.charCodeAt(i)) & (TT_SIZE - 1)] over the characters. *)
Definition ttKey (fen : string) : Z :=
  fold_left (fun h a => Z.land (h * 31 + charCode a) (TT_SIZE - 1))
            (String.list_ascii_of_string fen) 0.

Definition INFINITY : Q := 9999999 # 1.

Definition ttGet (tt : gmap Z TTEntry) (fen : string) (depth : nat)
    (alpha beta : Q) : option Q :=
  match tt !! ttKey fen with
  | None => None
  | Some e =>
      if negb (bool_decide (e_fen e = fen)) || (e_depth e <? depth)%nat then None
      else if bool_decide (e_flag e = TT_EXACT) then Some (e_score e)
      else if bool_decide (e_flag e = TT_LOWER) && Js.geb (e_score e) beta
           then Some (e_score e)
      else if bool_decide (e_flag e = TT_UPPER) && Js.leb (e_score e) alpha
           then Some (e_score e)
      else None
  end.

(** The guard of [ttSet]: [!e || e.depth <= depth]. *)
Definition ttSet_writes (tt : gmap Z TTEntry) (fen : string) (depth : nat) : bool :=
  match tt !! ttKey fen with
  | None => true
  | Some e => (e_depth e <=? depth)%nat
  end.

Definition ttSet (tt : gmap Z TTEntry) (fen : string) (depth : nat) (score : Q)
    (flag : TTFlag) (bestMove : option string) : gmap Z TTEntry :=
  if ttSet_writes tt fen depth
  then <[ttKey fen := mkTTEntry fen depth score flag bestMove]> tt
  else tt.

Definition ttGetMove (tt : gmap Z TTEntry) (fen : string) : option string :=
  match tt !! ttKey fen with
  | Some e => if bool_decide (e_fen e = fen) then e_bestMove e else None
  | None => None
  end.

(** ** Pieces, boards and moves (the data chess.js hands to the engine) *)

Inductive Color := White | Black.
Inductive PieceType := Pawn | Knight | Bishop | Rook | Queen | King.

Global Instance Color_eq_dec : EqDecision Color.
Proof. solve_decision. Defined.
Global Instance PieceType_eq_dec : EqDecision PieceType.
Proof. solve_decision. Defined.

Record Piece := mkPiece { p_type : PieceType; p_color : Color }.

Global Instance Piece_eq_dec : EqDecision Piece.
Proof. solve_decision. Defined.

(** [chess.board()]: eight rows of eight cells, row 0 is rank 8. *)
Definition Board := list (list (option Piece)).

(** A verbose move of chess.js. *)
Record Move := mkMove {
  m_from : string;
  m_to : string;
  m_piece : PieceType;
  m_color : Color;
  m_captured : option PieceType;
  m_promotion : option PieceType;
  m_san : string
}.

Global Instance Move_eq_dec : EqDecision Move.
Proof. solve_decision. Defined.

Definition pieceLetter (t : PieceType) : string :=
  match t with
  | Pawn => "p" | Knight => "n" | Bishop => "b"
  | Rook => "r" | Queen => "q" | King => "k"
  end.

Definition opposite (c : Color) : Color :=
  match c with White => Black | Black => White end.

(** ** Piece values and piece-square tables *)

Definition PIECE_VALUE (t : PieceType) : Z :=
  match t with
  | Pawn => 100 | Knight => 320 | Bishop => 330
  | Rook => 500 | Queen => 900 | King => 20000
  end.

Definition PST_p : list Z :=
  [  0;  0;  0;  0;  0;  0;  0;  0;
    50; 50; 50; 50; 50; 50; 50; 50;
    10; 10; 20; 30; 30; 20; 10; 10;
     5;  5; 10; 25; 25; 10;  5;  5;
     0;  0;  0; 20; 20;  0;  0;  0;
     5; -5;-10;  0;  0;-10; -5;  5;
     5; 10; 10;-20;-20; 10; 10;  5;
     0;  0;  0;  0;  0;  0;  0;  0 ].

Definition PST_n : list Z :=
  [ -50;-40;-30;-30;-30;-30;-40;-50;
    -40;-20;  0;  0;  0;  0;-20;-40;
    -30;  0; 10; 15; 15; 10;  0;-30;
    -30;  5; 15; 20; 20; 15;  5;-30;
    -30;  0; 15; 20; 20; 15;  0;-30;
    -30;  5; 10; 15; 15; 10;  5;-30;
    -40;-20;  0;  5;  5;  0;-20;-40;
    -50;-40;-30;-30;-30;-30;-40;-50 ].

Definition PST_b : list Z :=
  [ -20;-10;-10;-10;-10;-10;-10;-20;
    -10;  0;  0;  0;  0;  0;  0;-10;
    -10;  0;  5; 10; 10;  5;  0;-10;
    -10;  5;  5; 10; 10;  5;  5;-10;
    -10;  0; 10; 10; 10; 10;  0;-10;
    -10; 10; 10; 10; 10; 10; 10;-10;
    -10;  5;  0;  0;  0;  0;  5;-10;
    -20;-10;-10;-10;-10;-10;-10;-20 ].

Definition PST_r : list Z :=
  [  0;  0;  0;  0;  0;  0;  0;  0;
     5; 10; 10; 10; 10; 10; 10;  5;
    -5;  0;  0;  0;  0;  0;  0; -5;
    -5;  0;  0;  0;  0;  0;  0; -5;
    -5;  0;  0;  0;  0;  0;  0; -5;
    -5;  0;  0;  0;  0;  0;  0; -5;
    -5;  0;  0;  0;  0;  0;  0; -5;
     0;  0;  0;  5;  5;  0;  0;  0 ].

Definition PST_q : list Z :=
  [ -20;-10;-10; -5; -5;-10;-10;-20;
    -10;  0;  0;  0;  0;  0;  0;-10;
    -10;  0;  5;  5;  5;  5;  0;-10;
     -5;  0;  5;  5;  5;  5;  0; -5;
      0;  0;  5;  5;  5;  5;  0; -5;
    -10;  5;  5;  5;  5;  5;  0;-10;
    -10;  0;  5;  0;  0;  0;  0;-10;
    -20;-10;-10; -5; -5;-10;-10;-20 ].

Definition PST_k : list Z :=
  [ -30;-40;-40;-50;-50;-40;-40;-30;
    -30;-40;-40;-50;-50;-40;-40;-30;
    -30;-40;-40;-50;-50;-40;-40;-30;
    -30;-40;-40;-50;-50;-40;-40;-30;
    -20;-30;-30;-40;-40;-30;-30;-20;
    -10;-20;-20;-20;-20;-20;-20;-10;
     20; 20;  0;  0;  0;  0; 20; 20;
     20; 30; 10;  0;  0; 10; 30; 20 ].

Definition PST_kE : list Z :=
  [ -50;-40;-30;-20;-20;-30;-40;-50;
    -30;-20;-10;  0;  0;-10;-20;-30;
    -30;-10; 20; 30; 30; 20;-10;-30;
    -30;-10; 30; 40; 40; 30;-10;-30;
    -30;-10; 30; 40; 40; 30;-10;-30;
    -30;-10; 20; 30; 30; 20;-10;-30;
    -30;-30;  0;  0;  0;  0;-30;-30;
    -50;-30;-30;-30;-30;-30;-30;-50 ].

(** [PST[p.type]] for the first scan; kings take no table there. *)
Definition PST (t : PieceType) : list Z :=
  match t with
  | Pawn => PST_p | Knight => PST_n | Bishop => PST_b
  | Rook => PST_r | Queen => PST_q | King => PST_k
  end.

(** Indexing a JavaScript array at an integer position. *)
Definition at_ (l : list Z) (i : Z) : Z :=
  if i <? 0 then 0 else nth (Z.to_nat i) l 0.

(** ** Squares *)

Definition fileLetters : list Ascii.ascii :=
  String.list_ascii_of_string "abcdefgh".

(** ['abcdefgh'.indexOf(ch)], -1 when absent. *)
Fixpoint indexOfFrom (i : Z) (ch : Ascii.ascii) (l : list Ascii.ascii) : Z :=
  match l with
  | [] => -1
  | a :: l' => if Ascii.eqb a ch then i else indexOfFrom (i + 1) ch l'
  end.

Definition digitValue (a : Ascii.ascii) : Z := charCode a - 48.

(** ['abcdefgh'[f] + rank]. *)
Definition squareName (f : Z) (rank : Z) : string :=
  String (nth (Z.to_nat f) fileLetters Ascii.Space)
         (String (Ascii.ascii_of_N (Z.to_N (rank + 48))) EmptyString).

Definition sqIdx (sq : string) (color : Color) : Z :=
  match sq with
  | String c0 (String c1 _) =>
      let f := indexOfFrom 0 c0 fileLetters in
      let r := digitValue c1 - 1 in
      match color with
      | White => (7 - r) * 8 + f
      | Black => r * 8 + (7 - f)
      end
  | _ => 0
  end.

(** The occupied cells in the order of the nested [for r / for f] loops. *)
Definition cellAt (board : Board) (r f : nat) : option Piece :=
  match board !! r with
  | Some row => match row !! f with Some c => c | None => None end
  | None => None
  end.

Definition cells (board : Board) : list (Z * Z * Piece) :=
  flat_map (fun r =>
    flat_map (fun f =>
      match cellAt board r f with
      | Some p => [(Z.of_nat r, Z.of_nat f, p)]
      | None => []
      end) (seq 0 8)) (seq 0 8).

Definition sumZ (l : list Z) : Z := fold_right Z.add 0 l.
Definition sumQ (l : list Q) : Q := fold_right Qplus (0 # 1) l.
Definition count {A} (P : A -> bool) (l : list A) : Z :=
  Z.of_nat (length (List.filter P l)).
Definition includes (l : list Z) (x : Z) : bool := existsb (Z.eqb x) l.

(** ** First scan of [evaluate]: material, tables, counters, king squares *)

Record Scan := mkScan {
  sc_score : Z;
  sc_wMat : Z; sc_bMat : Z;
  sc_wBishops : Z; sc_bBishops : Z;
  sc_wPawnCount : Z; sc_bPawnCount : Z;
  sc_wKingFile : Z; sc_wKingRank : Z;
  sc_bKingFile : Z; sc_bKingRank : Z
}.

Definition scan0 : Scan := mkScan 0 0 0 0 0 0 0 (-1) (-1) (-1) (-1).

Definition scanStep (s : Scan) (c : Z * Z * Piece) : Scan :=
  let '(r, f, p) := c in
  let realSq := squareName f (8 - r) in
  let val := PIECE_VALUE (p_type p) in
  let idx := sqIdx realSq (p_color p) in
  let pst := match p_type p with King => 0 | t => at_ (PST t) idx end in
  let white := bool_decide (p_color p = White) in
  let isB := bool_decide (p_type p = Bishop) in
  let isP := bool_decide (p_type p = Pawn) in
  let isK := bool_decide (p_type p = King) in
  mkScan
    (if white then sc_score s + (val + pst) else sc_score s - (val + pst))
    (if white then sc_wMat s + val else sc_wMat s)
    (if white then sc_bMat s else sc_bMat s + val)
    (if isB && white then sc_wBishops s + 1 else sc_wBishops s)
    (if isB && negb white then sc_bBishops s + 1 else sc_bBishops s)
    (if isP && white then sc_wPawnCount s + 1 else sc_wPawnCount s)
    (if isP && negb white then sc_bPawnCount s + 1 else sc_bPawnCount s)
    (if isK && white then f else sc_wKingFile s)
    (if isK && white then 8 - r else sc_wKingRank s)
    (if isK && negb white then f else sc_bKingFile s)
    (if isK && negb white then 8 - r else sc_bKingRank s).

Definition scanBoard (board : Board) : Scan :=
  fold_left scanStep (cells board) scan0.

(** [Math.max(0.3, 1 - (wPawnCount + bPawnCount) / 16)] and the pair bonus. *)
Definition bishopPairTerm (s : Scan) : Z :=
  let bpOpenScale :=
    Js.max (3 # 10) (1 - Js.ofZ (sc_wPawnCount s + sc_bPawnCount s) / 16)%Q in
  (if 2 <=? sc_wBishops s then Js.round (30 * bpOpenScale) else 0)
  - (if 2 <=? sc_bBishops s then Js.round (30 * bpOpenScale) else 0).

Definition endgameWeight (s : Scan) : Q :=
  let totalMat := sc_wMat s + sc_bMat s - PIECE_VALUE King * 2 in
  Js.max 0 (1 - Js.ofZ totalMat / 3200)%Q.

(** Second scan: the kings' blended table value, not rounded. *)
Definition kingBlendTerm (board : Board) (endgameW : Q) : Q :=
  sumQ (List.map (fun c : Z * Z * Piece =>
    let '(r, f, p) := c in
    match p_type p with
    | King =>
        let idx := sqIdx (squareName f (8 - r)) (p_color p) in
        let kMid := Js.ofZ (at_ PST_k idx) in
        let kEnd := Js.ofZ (at_ PST_kE idx) in
        let kVal := (kMid * (1 - endgameW) + kEnd * endgameW)%Q in
        match p_color p with White => kVal | Black => (- kVal)%Q end
    | _ => 0%Q
    end) (cells board)).

(** ** Pawn file maps *)

Definition files (m : gmap Z (list Z)) (f : Z) : list Z := default [] (m !! f).

Definition pushRank (m : gmap Z (list Z)) (f rank : Z) : gmap Z (list Z) :=
  <[f := files m f ++ [rank]]> m.

Definition pawnFiles (board : Board) (color : Color) : gmap Z (list Z) :=
  fold_left (fun m (c : Z * Z * Piece) =>
    let '(r, f, p) := c in
    if bool_decide (p_type p = Pawn) && bool_decide (p_color p = color)
    then pushRank m f (8 - r) else m) (cells board) ∅.

(** The pairs (file, rank) visited by [for f / for rank of files[f]]. *)
Definition pawnsOf (m : gmap Z (list Z)) : list (Z * Z) :=
  flat_map (fun f => List.map (fun rank => (Z.of_nat f, rank)) (files m (Z.of_nat f)))
           (seq 0 8).

(** [Object.values(m).some(ranks => ranks.includes(x))]. *)
Definition anyFileIncludes (m : gmap Z (list Z)) (x : Z) : bool :=
  existsb (fun kv : Z * list Z => includes (snd kv) x) (map_to_list m).

(** ** [pawnEval] *)

Definition passedBonus : list Z := [0; 0; 10; 20; 35; 55; 80; 120].
Definition CANDIDATE_BONUS : list Z := [0; 0; 5; 10; 20; 35; 0; 0].

(** The three-file window [for df = -1..1], skipping files off the board. *)
Definition inBoard (f : Z) : bool := (0 <=? f) && (f <=? 7).
Definition window3 (f : Z) : list Z := List.filter inBoard [f - 1; f; f + 1].
Definition window2 (f : Z) : list Z := List.filter inBoard [f - 1; f + 1].

(** The inline [passed] loops: no enemy pawn ahead on the three files. *)
Definition passedW (bF : gmap Z (list Z)) (f rank : Z) : bool :=
  negb (existsb (fun bf => existsb (fun br => rank <? br) (files bF bf)) (window3 f)).
Definition passedB (wF : gmap Z (list Z)) (f rank : Z) : bool :=
  negb (existsb (fun bf => existsb (fun wr => wr <? rank) (files wF bf)) (window3 f)).

Definition cheb (f1 r1 f2 r2 : Z) : Z := Z.max (Z.abs (f1 - f2)) (Z.abs (r1 - r2)).

Section PawnEval.
Variable board : Board.
Variables wF bF : gmap Z (list Z).
Variables wKingFile wKingRank bKingFile bKingRank : Z.
Variable endgameW : Q.

Definition pe_passedW (fr : Z * Z) : Z :=
  let '(f, rank) := fr in
  if passedW bF f rank then
    let phaseScale := ((1 # 2) + (1 # 2) * endgameW)%Q in
    Js.round (Js.ofZ (at_ passedBonus rank) * phaseScale)
  else if count (fun br => rank <? br) (files bF f) =? 0 then
    let supporters := sumZ (List.map (fun af =>
      count (fun wr => (rank - 1 <=? wr) && (wr <=? rank + 2)) (files wF af)) (window2 f)) in
    let stoppers := sumZ (List.map (fun af =>
      count (fun br => rank <? br) (files bF af)) (window2 f)) in
    if stoppers <? supporters then at_ CANDIDATE_BONUS rank else 0
  else 0.

Definition pe_passedB (fr : Z * Z) : Z :=
  let '(f, rank) := fr in
  if passedB wF f rank then
    let phaseScale := ((1 # 2) + (1 # 2) * endgameW)%Q in
    Js.round (Js.ofZ (at_ passedBonus (9 - rank)) * phaseScale)
  else if count (fun wr => wr <? rank) (files wF f) =? 0 then
    let supporters := sumZ (List.map (fun af =>
      count (fun br => (br <=? rank + 1) && (rank - 2 <=? br)) (files bF af)) (window2 f)) in
    let stoppers := sumZ (List.map (fun af =>
      count (fun wr => wr <? rank) (files wF af)) (window2 f)) in
    if stoppers <? supporters then at_ CANDIDATE_BONUS (9 - rank) else 0
  else 0.

Definition pe_passed : Z :=
  sumZ (List.map pe_passedW (pawnsOf wF)) - sumZ (List.map pe_passedB (pawnsOf bF)).

Definition pe_doubled : Z :=
  sumZ (List.map (fun f =>
    let wc := Z.of_nat (length (files wF (Z.of_nat f))) in
    let bc := Z.of_nat (length (files bF (Z.of_nat f))) in
    (if 1 <? bc then (bc - 1) * 25 else 0) - (if 1 <? wc then (wc - 1) * 25 else 0))
    (seq 0 8)).

Definition pe_rookFiles : Z :=
  sumZ (List.map (fun c : Z * Z * Piece =>
    let '(r, f, p) := c in
    match p_type p with
    | Rook =>
        let own := match p_color p with White => files wF f | Black => files bF f end in
        let opp := match p_color p with White => files bF f | Black => files wF f end in
        let sign := match p_color p with White => 1 | Black => -1 end in
        if (length own =? 0)%nat && (length opp =? 0)%nat then sign * 25
        else if (length own =? 0)%nat then sign * 12
        else 0
    | _ => 0
    end) (cells board)).

(** [for rr = 0..7] down the pawn's file, stopping at the first rook found. *)
Definition rookOnFile (color : Color) (f : Z) (ok : Z -> bool) : bool :=
  existsb (fun rr =>
    match cellAt board rr (Z.to_nat f) with
    | Some p => bool_decide (p_type p = Rook) && bool_decide (p_color p = color)
                && ok (8 - Z.of_nat rr)
    | None => false
    end) (seq 0 8).

Definition pe_rookBehind : Z :=
  sumZ (List.map (fun fr : Z * Z =>
    let '(f, rank) := fr in
    if passedW bF f rank && rookOnFile White f (fun rk => rk <? rank)
    then Js.round (15 * endgameW) else 0) (pawnsOf wF))
  - sumZ (List.map (fun fr : Z * Z =>
    let '(f, rank) := fr in
    if passedB wF f rank && rookOnFile Black f (fun rk => rank <? rk)
    then Js.round (15 * endgameW) else 0) (pawnsOf bF)).

Definition pe_backward : Z :=
  sumZ (List.map (fun fr : Z * Z =>
    let '(f, rank) := fr in
    let hasSupport := existsb (fun wr => wr <=? rank) (files wF (f - 1))
                   || existsb (fun wr => wr <=? rank) (files wF (f + 1)) in
    if hasSupport then 0 else
      let stopControlled := existsb (fun br => br =? rank + 1) (files bF (f - 1))
                         || existsb (fun br => br =? rank + 1) (files bF (f + 1)) in
      let blocked := existsb (fun br => br =? rank + 1) (files bF f) in
      if stopControlled && blocked then -15 else 0) (pawnsOf wF))
  + sumZ (List.map (fun fr : Z * Z =>
    let '(f, rank) := fr in
    let hasSupport := existsb (fun br => rank <=? br) (files bF (f - 1))
                   || existsb (fun br => rank <=? br) (files bF (f + 1)) in
    if hasSupport then 0 else
      let stopControlled := existsb (fun wr => wr =? rank - 1) (files wF (f - 1))
                         || existsb (fun wr => wr =? rank - 1) (files wF (f + 1)) in
      let blocked := existsb (fun wr => wr =? rank - 1) (files wF f) in
      if stopControlled && blocked then 15 else 0) (pawnsOf bF)).

(** [!wPawnFiles[f - 1]]: the key was never created. *)
Definition noFile (m : gmap Z (list Z)) (f : Z) : bool :=
  match m !! f with None => true | Some _ => false end.

Definition pe_isolated : Z :=
  sumZ (List.map (fun n =>
    let f := Z.of_nat n in
    let wc := Z.of_nat (length (files wF f)) in
    let bc := Z.of_nat (length (files bF f)) in
    (if (0 <? bc) && noFile bF (f - 1) && noFile bF (f + 1) then bc * 20 else 0)
    - (if (0 <? wc) && noFile wF (f - 1) && noFile wF (f + 1) then wc * 20 else 0))
    (seq 0 8)).

Definition pe_chain : Z :=
  sumZ (List.map (fun fr : Z * Z =>
    let '(f, rank) := fr in
    if includes (files wF (f - 1)) (rank + 1) || includes (files wF (f + 1)) (rank + 1)
    then 10 else 0) (pawnsOf wF))
  - sumZ (List.map (fun fr : Z * Z =>
    let '(f, rank) := fr in
    if includes (files bF (f - 1)) (rank - 1) || includes (files bF (f + 1)) (rank - 1)
    then 10 else 0) (pawnsOf bF)).

Definition near (rank : Z) (x : Z) : bool := Z.abs (x - rank) <=? 1.

Definition pe_connected : Z :=
  sumZ (List.map (fun fr : Z * Z =>
    let '(f, rank) := fr in
    if ((0 <? f) && existsb (near rank) (files wF (f - 1)))
       || ((f <? 7) && existsb (near rank) (files wF (f + 1)))
    then 8 else 0) (pawnsOf wF))
  - sumZ (List.map (fun fr : Z * Z =>
    let '(f, rank) := fr in
    if ((0 <? f) && existsb (near rank) (files bF (f - 1)))
       || ((f <? 7) && existsb (near rank) (files bF (f + 1)))
    then 8 else 0) (pawnsOf bF)).

Definition pe_kingProximity : Z :=
  if Js.gtb endgameW (3 # 10) then
    sumZ (List.map (fun fr : Z * Z =>
      let '(f, rank) := fr in
      if passedW bF f rank && (0 <=? wKingFile) then
        let wDist := cheb wKingFile wKingRank f rank in
        let bDist := if 0 <=? bKingFile then cheb bKingFile bKingRank f rank else 7 in
        Js.round (Js.ofZ (bDist - wDist) * 5 * endgameW)
      else 0) (pawnsOf wF))
    - sumZ (List.map (fun fr : Z * Z =>
      let '(f, rank) := fr in
      if passedB wF f rank && (0 <=? bKingFile) then
        let bDist := cheb bKingFile bKingRank f rank in
        let wDist := if 0 <=? wKingFile then cheb wKingFile wKingRank f rank else 7 in
        Js.round (Js.ofZ (wDist - bDist) * 5 * endgameW)
      else 0) (pawnsOf bF))
  else 0.

Definition pe_shield : Z :=
  if Js.ltb endgameW (6 # 10) then
    let shieldMg := Js.round (8 * (1 - endgameW)) in
    (if 0 <=? wKingFile then
       sumZ (List.map (fun sf =>
         if existsb (fun rk => (rk =? wKingRank + 1) || (rk =? wKingRank + 2)) (files wF sf)
         then shieldMg else 0) (window3 wKingFile))
     else 0)
    - (if 0 <=? bKingFile then
         sumZ (List.map (fun sf =>
           if existsb (fun rk => (rk =? bKingRank - 1) || (rk =? bKingRank - 2)) (files bF sf)
           then shieldMg else 0) (window3 bKingFile))
       else 0)
  else 0.

Definition pawnEval : Z :=
  pe_passed + pe_doubled + pe_rookFiles + pe_rookBehind + pe_backward
  + pe_isolated + pe_chain + pe_connected + pe_kingProximity + pe_shield.

End PawnEval.

(** ** [kingTropismScore] and [kingAttackScore] *)

Definition TROPISM_W (t : PieceType) : Z :=
  match t with Knight => 3 | Bishop => 2 | Rook => 2 | Queen => 4 | _ => 0 end.

Definition kingTropismScore (board : Board)
    (wKingFile wKingRank bKingFile bKingRank : Z) : Z :=
  let score := sumZ (List.map (fun c : Z * Z * Piece =>
    let '(r, f, p) := c in
    let w := TROPISM_W (p_type p) in
    if w =? 0 then 0 else
      let pr := 8 - r in
      match p_color p with
      | White =>
          if 0 <=? bKingFile
          then Z.max 0 ((7 - cheb f pr bKingFile bKingRank) * w) else 0
      | Black =>
          if 0 <=? wKingFile
          then - Z.max 0 ((7 - cheb f pr wKingFile wKingRank) * w) else 0
      end) (cells board)) in
  Js.round (Js.ofZ score * (1 # 2)).

Definition ATTACK_WEIGHT (t : PieceType) : Z :=
  match t with
  | Pawn => 1 | Knight => 2 | Bishop => 2 | Rook => 3 | Queen => 5 | King => 0
  end.

Definition zonePenalty (att : Z) : Z :=
  if att =? 0 then 0 else if att =? 1 then 10 else if att =? 2 then 25
  else if att =? 3 then 45 else 70 + (att - 3) * 15.

Definition zoneAttacks (board : Board) (attacker : Color) (kFile kRank : Z) : Z :=
  sumZ (List.map (fun c : Z * Z * Piece =>
    let '(r, f, p) := c in
    if bool_decide (p_type p = King) then 0
    else if bool_decide (p_color p = attacker) && (0 <=? kFile)
            && (Z.abs (f - kFile) <=? 1) && (Z.abs ((8 - r) - kRank) <=? 1)
    then ATTACK_WEIGHT (p_type p) else 0) (cells board)).

Definition kingAttackScore (board : Board)
    (wKingFile wKingRank bKingFile bKingRank : Z) (endgameW : Q) : Z :=
  if Js.gtb endgameW (7 # 10) then 0 else
    let wZoneAttacks := zoneAttacks board Black wKingFile wKingRank in
    let bZoneAttacks := zoneAttacks board White bKingFile bKingRank in
    Js.round (Js.ofZ (zonePenalty bZoneAttacks - zonePenalty wZoneAttacks)
              * (1 - endgameW)).

(** ** The remaining board terms of [evaluate] *)

Section BoardTerms.
Variable board : Board.
Variables wF bF : gmap Z (list Z).
Variables wKingRank bKingRank : Z.
Variable endgameW : Q.

Definition rookSeventhTerm : Z :=
  sumZ (List.map (fun c : Z * Z * Piece =>
    let '(r, f, p) := c in
    let rank := 8 - r in
    match p_type p, p_color p with
    | Rook, White =>
        if rank =? 7 then
          let has7thPawns := includes (files bF f) 7 || anyFileIncludes bF 7 in
          if has7thPawns || (bKingRank =? 8) then 25 else 0
        else 0
    | Rook, Black =>
        if rank =? 2 then
          let has2ndPawns := anyFileIncludes wF 2 in
          if has2ndPawns || (wKingRank =? 1) then -25 else 0
        else 0
    | _, _ => 0
    end) (cells board)).

Definition knightOutpostTerm : Z :=
  sumZ (List.map (fun c : Z * Z * Piece =>
    let '(r, f, p) := c in
    let rank := 8 - r in
    match p_type p, p_color p with
    | Knight, White =>
        if 5 <=? rank then
          let protectedByPawn := includes (files wF (f - 1)) (rank - 1)
                              || includes (files wF (f + 1)) (rank - 1) in
          let challengeable := existsb (fun br => br <? rank) (files bF (f - 1))
                            || existsb (fun br => br <? rank) (files bF (f + 1)) in
          if protectedByPawn && negb challengeable then 20 else 0
        else 0
    | Knight, Black =>
        if rank <=? 4 then
          let protectedByPawn := includes (files bF (f - 1)) (rank + 1)
                              || includes (files bF (f + 1)) (rank + 1) in
          let challengeable := existsb (fun wr => rank <? wr) (files wF (f - 1))
                            || existsb (fun wr => rank <? wr) (files wF (f + 1)) in
          if protectedByPawn && negb challengeable then -20 else 0
        else 0
    | _, _ => 0
    end) (cells board)).

Definition spaceTerm : Z :=
  let wSpace := sumZ (List.map (fun f =>
    sumZ (List.map (fun rank => rank - 2) (files wF f))) [2; 3; 4; 5]) in
  let bSpace := sumZ (List.map (fun f =>
    sumZ (List.map (fun rank => 7 - rank) (files bF f))) [2; 3; 4; 5]) in
  let spaceMgW := (Js.max 0 (1 - endgameW) * (1 # 2))%Q in
  Js.round (Js.ofZ (wSpace - bSpace) * spaceMgW).

Definition tempoTerm (turn : Color) : Z :=
  let tempoVal := Js.round (15 - 10 * endgameW) in
  match turn with White => tempoVal | Black => - tempoVal end.

(** Pairs [i < j] of same-coloured rooks sharing a file or a row. *)
Fixpoint batteryPairs (rooks : list (Z * Z)) : Z :=
  match rooks with
  | [] => 0
  | (r, f) :: rest =>
      count (fun o : Z * Z => (snd o =? f) || (fst o =? r)) rest + batteryPairs rest
  end.

Definition rooksOf (color : Color) : list (Z * Z) :=
  flat_map (fun c : Z * Z * Piece =>
    let '(r, f, p) := c in
    if bool_decide (p_type p = Rook) && bool_decide (p_color p = color)
    then [(r, f)] else []) (cells board).

Definition rookBatteryTerm : Z :=
  15 * batteryPairs (rooksOf White) - 15 * batteryPairs (rooksOf Black).

Definition hangingTerm : Z :=
  sumZ (List.map (fun c : Z * Z * Piece =>
    let '(r, f, p) := c in
    let rank := 8 - r in
    if bool_decide (p_type p = Pawn) || bool_decide (p_type p = King) then 0
    else if PIECE_VALUE (p_type p) <? 300 then 0
    else match p_color p with
    | White =>
        let attackedByBPawn := existsb (fun br => br =? rank + 1) (files bF (f - 1))
                            || existsb (fun br => br =? rank + 1) (files bF (f + 1)) in
        let defendedByWPawn := existsb (fun wr => wr =? rank - 1) (files wF (f - 1))
                            || existsb (fun wr => wr =? rank - 1) (files wF (f + 1)) in
        if attackedByBPawn && negb defendedByWPawn then -20 else 0
    | Black =>
        let attackedByWPawn := existsb (fun wr => wr =? rank - 1) (files wF (f - 1))
                            || existsb (fun wr => wr =? rank - 1) (files wF (f + 1)) in
        let defendedByBPawn := existsb (fun br => br =? rank + 1) (files bF (f - 1))
                            || existsb (fun br => br =? rank + 1) (files bF (f + 1)) in
        if attackedByWPawn && negb defendedByBPawn then 20 else 0
    end) (cells board)).

End BoardTerms.

(** [Math.round((wMobility - bMobility) * 2 * mgW)]. *)
Definition mobilityTerm (turn : Color) (toMoveCount oppCount : nat) (endgameW : Q) : Z :=
  let mgW := Js.max 0 (1 - endgameW) in
  let wMobility := match turn with White => toMoveCount | Black => oppCount end in
  let bMobility := match turn with White => oppCount | Black => toMoveCount end in
  Js.round (Js.ofZ (Z.of_nat wMobility - Z.of_nat bMobility) * 2 * mgW).

(** Everything [evaluate] adds after the terminal tests and before mobility. *)
Definition boardScore (board : Board) (turn : Color) : Q :=
  let s := scanBoard board in
  let endgameW := endgameWeight s in
  let wF := pawnFiles board White in
  let bF := pawnFiles board Black in
  let wkf := sc_wKingFile s in let wkr := sc_wKingRank s in
  let bkf := sc_bKingFile s in let bkr := sc_bKingRank s in
  (Js.ofZ (sc_score s + bishopPairTerm s)
   + kingBlendTerm board endgameW
   + Js.ofZ (pawnEval board wF bF wkf wkr bkf bkr endgameW
             + kingAttackScore board wkf wkr bkf bkr endgameW
             + kingTropismScore board wkf wkr bkf bkr
             + rookSeventhTerm board wF bF wkr bkr
             + knightOutpostTerm board wF bF
             + spaceTerm wF bF endgameW
             + tempoTerm endgameW turn
             + rookBatteryTerm board
             + hangingTerm board wF bF))%Q.

(** ** What [evaluate] reads from the chess.js object *)

Record EvalObs := mkEvalObs {
  o_in_checkmate : bool;
  o_in_draw : bool;
  o_in_stalemate : bool;
  o_in_threefold_repetition : bool;
  o_turn : Color;
  o_board : Board;
  (** [chess.moves().length] *)
  o_toMoveCount : nat;
  (** [new Chess(flipped fen).moves().length], 0 when the constructor throws *)
  o_oppCount : nat
}.

(** The same observations with other mobility counts. *)
Definition setMobility (o : EvalObs) (toMoveCount oppCount : nat) : EvalObs :=
  mkEvalObs (o_in_checkmate o) (o_in_draw o) (o_in_stalemate o)
            (o_in_threefold_repetition o) (o_turn o) (o_board o)
            toMoveCount oppCount.

Definition evaluateObs (o : EvalObs) (skipMobility : bool) : Q :=
  if o_in_checkmate o then
    match o_turn o with White => (-30000)%Q | Black => 30000%Q end
  else if o_in_draw o || o_in_stalemate o || o_in_threefold_repetition o then 0%Q
  else
    let score := boardScore (o_board o) (o_turn o) in
    if skipMobility then score
    else (score + Js.ofZ (mobilityTerm (o_turn o) (o_toMoveCount o) (o_oppCount o)
                            (endgameWeight (scanBoard (o_board o)))))%Q.

(** ** The chess.js interface consumed by the engine

    The position object is mutated in place by [chess.move] and [chess.undo];
    here every operation takes the object and the two mutators return the new
    one.  [load] is [new Chess(fen)], [None] standing for a constructor that
    throws.  [moves] is [chess.moves({ verbose: true })]; the plain
    [chess.moves()] is only ever used for its length. *)

Class ChessLib (Chess : Type) := {
  turn : Chess -> Color;
  board : Chess -> Board;
  fen : Chess -> string;
  moves : Chess -> list Move;
  move : Chess -> Move -> Chess;
  undo : Chess -> Chess;
  load : string -> option Chess;
  in_check : Chess -> bool;
  in_checkmate : Chess -> bool;
  in_stalemate : Chess -> bool;
  in_draw : Chess -> bool;
  in_threefold_repetition : Chess -> bool;
  insufficient_material : Chess -> bool;
  game_over : Chess -> bool
}.

(** The part of the chess.js contract the properties below rely on:
    a legal move is taken back by [undo], and [in_draw] covers insufficient
    material. *)
Class ChessLaws (Chess : Type) `{ChessLib Chess} : Prop := {
  undo_move : forall (c : Chess) (m : Move), In m (moves c) -> undo (move c m) = c;
  insufficient_material_in_draw :
    forall c : Chess, insufficient_material c = true -> in_draw c = true
}.

(** ** FEN strings: [split(' ')], [join(' ')], [parseInt], [String(n)] *)

Fixpoint splitAux (sep : Ascii.ascii) (cur : string) (s : string) : list string :=
  match s with
  | EmptyString => [String.rev cur]
  | String a s' =>
      if Ascii.eqb a sep then String.rev cur :: splitAux sep EmptyString s'
      else splitAux sep (String a cur) s'
  end.

Definition split (sep : Ascii.ascii) (s : string) : list string :=
  splitAux sep EmptyString s.

Fixpoint join (sep : string) (l : list string) : string :=
  match l with
  | [] => EmptyString
  | [x] => x
  | x :: l' => x +:+ sep +:+ join sep l'
  end.

Definition isDigit (a : Ascii.ascii) : bool :=
  (48 <=? charCode a) && (charCode a <=? 57).

Fixpoint parseDigits (acc : option N) (s : string) : option N :=
  match s with
  | EmptyString => acc
  | String a s' =>
      if isDigit a
      then parseDigits (Some (default 0%N acc * 10 + Z.to_N (digitValue a))%N) s'
      else acc
  end.

(** [parseInt] on an unsigned decimal prefix; [None] is [NaN]. *)
Definition parseInt (s : string) : option N := parseDigits None s.

Definition stringOfNumber (n : option N) : string :=
  match n with Some k => pretty k | None => "NaN" end.

Definition swapSide (s : string) : string :=
  if bool_decide (s = "w") then "b" else "w".

(** The FEN built inside [evaluate] for the opponent's mobility. *)
Definition flipTurnFen (f : string) : string :=
  let fenParts := split Ascii.Space f in
  let fenParts := <[1%nat := swapSide (default EmptyString (fenParts !! 1%nat))]> fenParts in
  let fenParts := <[3%nat := "-"]> fenParts in
  join " " fenParts.

Definition makeNullMoveFen (f : string) : string :=
  let parts := split Ascii.Space f in
  let parts := <[1%nat := swapSide (default EmptyString (parts !! 1%nat))]> parts in
  let parts := <[3%nat := "-"]> parts in
  let parts := <[4%nat := stringOfNumber
                   (N.succ <$> parseInt (default EmptyString (parts !! 4%nat)))]> parts in
  join " " parts.

(** ** Per-worker search state (the module-level variables of [engine.js]) *)

Record Search := mkSearch {
  s_nodes : nat;
  s_ttTable : gmap Z TTEntry;
  s_killers : gmap nat (option string * option string);
  s_histTable : gmap string Z;
  s_counterMoves : gmap string string;
  s_moveStack : gmap nat string
}.

Definition bumpNodes (st : Search) : Search :=
  mkSearch (S (s_nodes st)) (s_ttTable st) (s_killers st) (s_histTable st)
           (s_counterMoves st) (s_moveStack st).
Definition setTT (st : Search) (t : gmap Z TTEntry) : Search :=
  mkSearch (s_nodes st) t (s_killers st) (s_histTable st)
           (s_counterMoves st) (s_moveStack st).
Definition setKillers (st : Search) (k : gmap nat (option string * option string)) : Search :=
  mkSearch (s_nodes st) (s_ttTable st) k (s_histTable st)
           (s_counterMoves st) (s_moveStack st).
Definition setHist (st : Search) (h : gmap string Z) : Search :=
  mkSearch (s_nodes st) (s_ttTable st) (s_killers st) h
           (s_counterMoves st) (s_moveStack st).
Definition setCounterMoves (st : Search) (cm : gmap string string) : Search :=
  mkSearch (s_nodes st) (s_ttTable st) (s_killers st) (s_histTable st)
           cm (s_moveStack st).
Definition setMoveStack (st : Search) (ms : gmap nat string) : Search :=
  mkSearch (s_nodes st) (s_ttTable st) (s_killers st) (s_histTable st)
           (s_counterMoves st) ms.

(** [_histTable[hk] = (_histTable[hk] || 0) + d] *)
Definition histAdd (st : Search) (hk : string) (d : Z) : Search :=
  setHist st (<[hk := default 0 (s_histTable st !! hk) + d]> (s_histTable st)).

(** ** Sorting as [Array.prototype.sort] with a descending numeric key *)

Fixpoint insertDesc {A} (key : A -> Q) (x : A) (l : list A) : list A :=
  match l with
  | [] => [x]
  | y :: l' => if Js.gtb (key y) (key x) then y :: insertDesc key x l' else x :: l
  end.

Definition sortDesc {A} (key : A -> Q) (l : list A) : list A :=
  fold_right (insertDesc key) [] l.

(** ** Move keys and move ordering *)

Definition fromTo (m : Move) : string := m_from m +:+ m_to m.
Definition pieceFromTo (m : Move) : string :=
  pieceLetter (m_piece m) +:+ m_from m +:+ m_to m.
Definition isQuietMove (m : Move) : bool :=
  negb (bool_decide (is_Some (m_captured m)))
  && negb (bool_decide (is_Some (m_promotion m))).

Definition killerSet (st : Search) (ply : nat) : list string :=
  match s_killers st !! ply with
  | Some (k0, k1) => option_list k0 ++ option_list k1
  | None => []
  end.

Definition scoreMove (st : Search) (ply : nat) (prevMoveKey ttMove : option string)
    (m : Move) : Q :=
  let counterKey := match prevMoveKey with
                    | Some k => s_counterMoves st !! k
                    | None => None
                    end in
  let quiet := isQuietMove m in
  (  (if bool_decide (ttMove = Some (fromTo m)) then 300 else 0)
   + (match m_captured m with
      | Some cp => Js.ofZ (PIECE_VALUE cp * 10 - PIECE_VALUE (m_piece m))
      | None => 0
      end)
   + (match m_promotion m with
      | Some pr => Js.ofZ (PIECE_VALUE pr * 8)
      | None => 0
      end)
   + (if bool_decide (fromTo m ∈ killerSet st ply) then 90 else 0)
   + (if quiet && bool_decide (counterKey = Some (pieceFromTo m)) then 75 else 0)
   + (if quiet then
        match s_histTable st !! pieceFromTo m with
        | Some h => if h =? 0 then 0 else Js.min 80 (Js.ofZ h / 100)
        | None => 0
        end
      else 0))%Q.

Definition orderMoves (mvs : list Move) (ply : nat) (prevMoveKey ttMove : option string)
    (st : Search) : list Move :=
  sortDesc (scoreMove st ply prevMoveKey ttMove) mvs.

(** The comparator key of the sort inside [quiescence]. *)
Definition qsVal (m : Move) : Q :=
  Js.ofZ ((match m_captured m with
           | Some cp => PIECE_VALUE cp * 10 - PIECE_VALUE (m_piece m)
           | None => 0
           end)
          + (match m_promotion m with Some pr => PIECE_VALUE pr | None => 0 end)).

Definition isCaptureOrPromotion (m : Move) : bool :=
  bool_decide (is_Some (m_captured m)) || bool_decide (is_Some (m_promotion m)).

(** The table filled by the [LMR_TABLE] initialiser,
    [max(1, floor(0.75 + ln d * ln (m + 1) / 2.25))] with row and column 0
    zero, tabulated for [d < 32], [m < 64]. *)
Definition LMR_TABLE : list (list nat) :=
  [ [0;0;0;0;0;0;0;0;0;0;0;0;0;0;0;0;0;0;0;0;0;0;0;0;0;0;0;0;0;0;0;0;0;0;0;0;0;0;0;0;0;0;0;0;0;0;0;0;0;0;0;0;0;0;0;0;0;0;0;0;0;0;0;0];
    [0;1;1;1;1;1;1;1;1;1;1;1;1;1;1;1;1;1;1;1;1;1;1;1;1;1;1;1;1;1;1;1;1;1;1;1;1;1;1;1;1;1;1;1;1;1;1;1;1;1;1;1;1;1;1;1;1;1;1;1;1;1;1;1];
    [0;1;1;1;1;1;1;1;1;1;1;1;1;1;1;1;1;1;1;1;1;1;1;1;1;1;1;1;1;1;1;1;1;1;1;1;1;1;1;1;1;1;1;1;1;1;1;1;1;1;1;1;1;1;1;1;1;2;2;2;2;2;2;2];
    [0;1;1;1;1;1;1;1;1;1;1;1;2;2;2;2;2;2;2;2;2;2;2;2;2;2;2;2;2;2;2;2;2;2;2;2;2;2;2;2;2;2;2;2;2;2;2;2;2;2;2;2;2;2;2;2;2;2;2;2;2;2;2;2];
    [0;1;1;1;1;1;1;2;2;2;2;2;2;2;2;2;2;2;2;2;2;2;2;2;2;2;2;2;2;2;2;2;2;2;2;2;2;2;3;3;3;3;3;3;3;3;3;3;3;3;3;3;3;3;3;3;3;3;3;3;3;3;3;3];
    [0;1;1;1;1;2;2;2;2;2;2;2;2;2;2;2;2;2;2;2;2;2;2;3;3;3;3;3;3;3;3;3;3;3;3;3;3;3;3;3;3;3;3;3;3;3;3;3;3;3;3;3;3;3;3;3;3;3;3;3;3;3;3;3];
    [0;1;1;1;2;2;2;2;2;2;2;2;2;2;2;2;3;3;3;3;3;3;3;3;3;3;3;3;3;3;3;3;3;3;3;3;3;3;3;3;3;3;3;3;3;3;3;3;3;3;3;3;3;3;3;3;3;3;3;4;4;4;4;4];
    [0;1;1;1;2;2;2;2;2;2;2;2;2;3;3;3;3;3;3;3;3;3;3;3;3;3;3;3;3;3;3;3;3;3;3;3;3;3;3;3;3;3;4;4;4;4;4;4;4;4;4;4;4;4;4;4;4;4;4;4;4;4;4;4];
    [0;1;1;2;2;2;2;2;2;2;2;3;3;3;3;3;3;3;3;3;3;3;3;3;3;3;3;3;3;3;3;3;3;4;4;4;4;4;4;4;4;4;4;4;4;4;4;4;4;4;4;4;4;4;4;4;4;4;4;4;4;4;4;4];
    [0;1;1;2;2;2;2;2;2;2;3;3;3;3;3;3;3;3;3;3;3;3;3;3;3;3;3;4;4;4;4;4;4;4;4;4;4;4;4;4;4;4;4;4;4;4;4;4;4;4;4;4;4;4;4;4;4;4;4;4;4;4;4;4];
    [0;1;1;2;2;2;2;2;2;3;3;3;3;3;3;3;3;3;3;3;3;3;3;4;4;4;4;4;4;4;4;4;4;4;4;4;4;4;4;4;4;4;4;4;4;4;4;4;4;4;4;4;4;4;4;4;4;4;4;4;4;4;4;5];
    [0;1;1;2;2;2;2;2;3;3;3;3;3;3;3;3;3;3;3;3;3;4;4;4;4;4;4;4;4;4;4;4;4;4;4;4;4;4;4;4;4;4;4;4;4;4;4;4;4;4;4;4;4;5;5;5;5;5;5;5;5;5;5;5];
    [0;1;1;2;2;2;2;3;3;3;3;3;3;3;3;3;3;3;4;4;4;4;4;4;4;4;4;4;4;4;4;4;4;4;4;4;4;4;4;4;4;4;4;4;4;4;5;5;5;5;5;5;5;5;5;5;5;5;5;5;5;5;5;5];
    [0;1;2;2;2;2;2;3;3;3;3;3;3;3;3;3;3;4;4;4;4;4;4;4;4;4;4;4;4;4;4;4;4;4;4;4;4;4;4;4;4;5;5;5;5;5;5;5;5;5;5;5;5;5;5;5;5;5;5;5;5;5;5;5];
    [0;1;2;2;2;2;3;3;3;3;3;3;3;3;3;4;4;4;4;4;4;4;4;4;4;4;4;4;4;4;4;4;4;4;4;4;4;5;5;5;5;5;5;5;5;5;5;5;5;5;5;5;5;5;5;5;5;5;5;5;5;5;5;5];
    [0;1;2;2;2;2;3;3;3;3;3;3;3;3;4;4;4;4;4;4;4;4;4;4;4;4;4;4;4;4;4;4;4;4;5;5;5;5;5;5;5;5;5;5;5;5;5;5;5;5;5;5;5;5;5;5;5;5;5;5;5;5;5;5];
    [0;1;2;2;2;2;3;3;3;3;3;3;3;4;4;4;4;4;4;4;4;4;4;4;4;4;4;4;4;4;4;5;5;5;5;5;5;5;5;5;5;5;5;5;5;5;5;5;5;5;5;5;5;5;5;5;5;5;5;5;5;5;5;5];
    [0;1;2;2;2;3;3;3;3;3;3;3;3;4;4;4;4;4;4;4;4;4;4;4;4;4;4;4;4;5;5;5;5;5;5;5;5;5;5;5;5;5;5;5;5;5;5;5;5;5;5;5;5;5;5;5;5;5;5;5;5;5;5;5];
    [0;1;2;2;2;3;3;3;3;3;3;3;4;4;4;4;4;4;4;4;4;4;4;4;4;4;4;5;5;5;5;5;5;5;5;5;5;5;5;5;5;5;5;5;5;5;5;5;5;5;5;5;5;5;5;5;5;5;5;6;6;6;6;6];
    [0;1;2;2;2;3;3;3;3;3;3;4;4;4;4;4;4;4;4;4;4;4;4;4;4;5;5;5;5;5;5;5;5;5;5;5;5;5;5;5;5;5;5;5;5;5;5;5;5;5;5;5;5;5;5;6;6;6;6;6;6;6;6;6];
    [0;1;2;2;2;3;3;3;3;3;3;4;4;4;4;4;4;4;4;4;4;4;4;4;5;5;5;5;5;5;5;5;5;5;5;5;5;5;5;5;5;5;5;5;5;5;5;5;5;5;5;6;6;6;6;6;6;6;6;6;6;6;6;6];
    [0;1;2;2;2;3;3;3;3;3;3;4;4;4;4;4;4;4;4;4;4;4;4;5;5;5;5;5;5;5;5;5;5;5;5;5;5;5;5;5;5;5;5;5;5;5;5;5;6;6;6;6;6;6;6;6;6;6;6;6;6;6;6;6];
    [0;1;2;2;2;3;3;3;3;3;4;4;4;4;4;4;4;4;4;4;4;4;5;5;5;5;5;5;5;5;5;5;5;5;5;5;5;5;5;5;5;5;5;5;5;6;6;6;6;6;6;6;6;6;6;6;6;6;6;6;6;6;6;6];
    [0;1;2;2;2;3;3;3;3;3;4;4;4;4;4;4;4;4;4;4;4;5;5;5;5;5;5;5;5;5;5;5;5;5;5;5;5;5;5;5;5;5;5;6;6;6;6;6;6;6;6;6;6;6;6;6;6;6;6;6;6;6;6;6];
    [0;1;2;2;3;3;3;3;3;4;4;4;4;4;4;4;4;4;4;4;5;5;5;5;5;5;5;5;5;5;5;5;5;5;5;5;5;5;5;5;5;6;6;6;6;6;6;6;6;6;6;6;6;6;6;6;6;6;6;6;6;6;6;6];
    [0;1;2;2;3;3;3;3;3;4;4;4;4;4;4;4;4;4;4;5;5;5;5;5;5;5;5;5;5;5;5;5;5;5;5;5;5;5;5;6;6;6;6;6;6;6;6;6;6;6;6;6;6;6;6;6;6;6;6;6;6;6;6;6];
    [0;1;2;2;3;3;3;3;3;4;4;4;4;4;4;4;4;4;5;5;5;5;5;5;5;5;5;5;5;5;5;5;5;5;5;5;5;6;6;6;6;6;6;6;6;6;6;6;6;6;6;6;6;6;6;6;6;6;6;6;6;6;6;6];
    [0;1;2;2;3;3;3;3;3;4;4;4;4;4;4;4;4;4;5;5;5;5;5;5;5;5;5;5;5;5;5;5;5;5;5;5;6;6;6;6;6;6;6;6;6;6;6;6;6;6;6;6;6;6;6;6;6;6;6;6;6;6;6;6];
    [0;1;2;2;3;3;3;3;4;4;4;4;4;4;4;4;4;5;5;5;5;5;5;5;5;5;5;5;5;5;5;5;5;5;6;6;6;6;6;6;6;6;6;6;6;6;6;6;6;6;6;6;6;6;6;6;6;6;6;6;6;6;6;6];
    [0;1;2;2;3;3;3;3;4;4;4;4;4;4;4;4;4;5;5;5;5;5;5;5;5;5;5;5;5;5;5;5;5;6;6;6;6;6;6;6;6;6;6;6;6;6;6;6;6;6;6;6;6;6;6;6;6;6;6;6;6;6;6;6];
    [0;1;2;2;3;3;3;3;4;4;4;4;4;4;4;4;5;5;5;5;5;5;5;5;5;5;5;5;5;5;5;5;6;6;6;6;6;6;6;6;6;6;6;6;6;6;6;6;6;6;6;6;6;6;6;6;6;6;6;6;6;6;7;7];
    [0;1;2;2;3;3;3;3;4;4;4;4;4;4;4;4;5;5;5;5;5;5;5;5;5;5;5;5;5;5;5;6;6;6;6;6;6;6;6;6;6;6;6;6;6;6;6;6;6;6;6;6;6;6;6;6;6;6;6;6;7;7;7;7] ]%nat.

Definition lmrReduction (depth mi : nat) : nat :=
  nth (Nat.min 63 mi) (nth (Nat.min 31 depth) LMR_TABLE []) 0%nat.

Definition RAZOR_MARGIN : list Z := [0; 200; 350].
Definition FUTILITY_MARGIN : list Z := [0; 150; 300; 500].
Definition LMP_THRESHOLD : list nat := [0; 5; 12]%nat.
Definition NMP_R : nat := 3.
Definition DELTA : Q := 200.
Definition ASP_DELTA : Q := 50.

(** ** Evaluation, quiescence, alpha-beta and the root driver *)

Section Engine.
Context {Chess : Type} `{ChessLib Chess}.

Definition oppMoveCount (c : Chess) : nat :=
  match load (flipTurnFen (fen c)) with
  | Some c' => length (moves c')
  | None => 0%nat
  end.

Definition observe (c : Chess) : EvalObs :=
  mkEvalObs (in_checkmate c) (in_draw c) (in_stalemate c)
            (in_threefold_repetition c) (turn c) (board c)
            (length (moves c)) (oppMoveCount c).

Definition evaluate (c : Chess) (skipMobility : bool) : Q :=
  evaluateObs (observe c) skipMobility.

(** A search call: score, the position object afterwards, the state. *)
Definition Result : Type := option (Q * Chess * Search).

(** *** Quiescence *)

Inductive StandPat :=
| Cutoff (v : Q)
| Continue (stand : option Q) (alpha beta : Q).

(** The stand-pat block; [ev] is the evaluator it calls. *)
Definition qsStandPat (ev : Chess -> bool -> Q) (c : Chess) (alpha beta : Q)
    (maximizing : bool) : StandPat :=
  if in_check c then Continue None alpha beta
  else
    let stand := ev c true in
    if maximizing then
      if Js.geb stand beta then Cutoff beta
      else Continue (Some stand) (if Js.gtb stand alpha then stand else alpha) beta
    else
      if Js.leb stand alpha then Cutoff alpha
      else Continue (Some stand) alpha (if Js.ltb stand beta then stand else beta).

Definition qsCandidates (c : Chess) : list Move :=
  sortDesc qsVal
    (if in_check c then moves c
     else List.filter isCaptureOrPromotion (moves c)).

(** [stand] is only defined when not in check, which is when delta pruning
    applies. *)
Definition deltaPruned (stand : option Q) (maximizing : bool) (alpha beta : Q)
    (m : Move) : bool :=
  match stand, m_captured m with
  | Some sv, Some cp =>
      let gain := Js.ofZ (PIECE_VALUE cp) in
      if maximizing then Js.ltb (sv + gain + DELTA)%Q alpha
      else Js.gtb (sv - gain - DELTA)%Q beta
  | _, _ => false
  end.

Fixpoint qsLoop (rec : Chess -> Q -> Q -> bool -> Search -> Result)
    (maximizing : bool) (stand : option Q) (mvs : list Move)
    (c : Chess) (alpha beta : Q) (st : Search) : option (Q * Q * Chess * Search) :=
  match mvs with
  | [] => Some (alpha, beta, c, st)
  | m :: rest =>
      if deltaPruned stand maximizing alpha beta m
      then qsLoop rec maximizing stand rest c alpha beta st
      else
        '(score, c1, st1) ← rec (move c m) alpha beta (negb maximizing) st;
        let c2 := undo c1 in
        if maximizing then
          let alpha' := if Js.gtb score alpha then score else alpha in
          if Js.geb alpha' beta then Some (alpha', beta, c2, st1)
          else qsLoop rec maximizing stand rest c2 alpha' beta st1
        else
          let beta' := if Js.ltb score beta then score else beta in
          if Js.geb alpha beta' then Some (alpha, beta', c2, st1)
          else qsLoop rec maximizing stand rest c2 alpha beta' st1
  end.

Fixpoint quiescenceWith (ev : Chess -> bool -> Q) (fuel : nat) (c : Chess)
    (alpha beta : Q) (maximizing : bool) (st : Search) : Result :=
  match fuel with
  | O => None
  | S n =>
      let st := bumpNodes st in
      match qsStandPat ev c alpha beta maximizing with
      | Cutoff v => Some (v, c, st)
      | Continue stand alpha beta =>
          if in_check c && bool_decide (moves c = [])
          then Some ((if maximizing then -30000 else 30000)%Q, c, st)
          else
            '(a, b, c', st') ←
              qsLoop (quiescenceWith ev n) maximizing stand (qsCandidates c)
                     c alpha beta st;
            Some (if maximizing then a else b, c', st')
      end
  end.

Definition quiescence : nat -> Chess -> Q -> Q -> bool -> Search -> Result :=
  quiescenceWith evaluate.

(** *** Alpha-beta *)

(** The local variables of the move loop. *)
Record Loop := mkLoop {
  l_alpha : Q;
  l_beta : Q;
  l_best : Q;
  l_bestMoveSoFar : option string;
  l_searchedFirst : bool;
  l_quietSearched : nat
}.

Definition futilityPruned (staticEval : option Q) (depth : nat) (maximizing : bool)
    (alpha beta : Q) (m : Move) : bool :=
  match staticEval with
  | Some se =>
      isQuietMove m &&
      (if maximizing
       then Js.leb (se + Js.ofZ (at_ FUTILITY_MARGIN (Z.of_nat depth)))%Q alpha
       else Js.geb (se - Js.ofZ (at_ FUTILITY_MARGIN (Z.of_nat depth)))%Q beta)
  | None => false
  end.

(** Killer, history and countermove updates on a cutoff by a quiet move. *)
Definition recordCutoff (st : Search) (ply depth : nat) (prevMoveKey : option string)
    (m : Move) : Search :=
  if isQuietMove m then
    let '(k0, k1) := default (None, None) (s_killers st !! ply) in
    let kk := fromTo m in
    let killers' :=
      if bool_decide (k0 = Some kk) then <[ply := (k0, k1)]> (s_killers st)
      else <[ply := (Some kk, k0)]> (s_killers st) in
    let st := setKillers st killers' in
    let st := histAdd st (pieceFromTo m) (Z.of_nat depth * Z.of_nat depth) in
    match prevMoveKey with
    | Some pk => setCounterMoves st (<[pk := pieceFromTo m]> (s_counterMoves st))
    | None => st
    end
  else st.

(** The search of one move: first move, LMR + PVS, or plain PVS. *)
Definition searchMove (rec : Chess -> nat -> Q -> Q -> bool -> nat -> Search -> Result)
    (depth : nat) (maximizing inCheckNow : bool) (ply mi : nat) (m : Move)
    (L : Loop) (c : Chess) (st : Search) : Result :=
  let alpha := l_alpha L in
  let beta := l_beta L in
  let givesCheck := in_check c in
  let newDepth := (depth - 1)%nat in
  let nullLo := if maximizing then alpha else (beta - 1)%Q in
  let nullHi := if maximizing then (alpha + 1)%Q else beta in
  let inside (s : Q) := Js.gtb s alpha && Js.ltb s beta in
  if negb (l_searchedFirst L) then
    rec c newDepth alpha beta (negb maximizing) (S ply) st
  else
    let first_depth :=
      if (2 <=? mi)%nat && (3 <=? depth)%nat && isQuietMove m
         && negb givesCheck && negb inCheckNow
      then (newDepth - Nat.min newDepth (lmrReduction depth mi))%nat
      else newDepth in
    '(score, c1, st1) ← rec c first_depth nullLo nullHi (negb maximizing) (S ply) st;
    if inside score
    then rec c1 newDepth alpha beta (negb maximizing) (S ply) st1
    else Some (score, c1, st1).

(** Bookkeeping after [chess.undo()]: best, window, history. *)
Definition updateLoop (depth : nat) (maximizing : bool) (m : Move) (score : Q)
    (L : Loop) (st : Search) : Loop * Search :=
  let improves := if maximizing then Js.gtb score (l_best L) else Js.ltb score (l_best L) in
  let best' := if improves then score else l_best L in
  let bm' := if improves then Some (fromTo m) else l_bestMoveSoFar L in
  let narrows := if maximizing then Js.gtb score (l_alpha L) else Js.ltb score (l_beta L) in
  let alpha' := if maximizing && narrows then score else l_alpha L in
  let beta' := if negb maximizing && narrows then score else l_beta L in
  let st' := if narrows && isQuietMove m
             then histAdd st (pieceFromTo m) (Z.of_nat depth) else st in
  (mkLoop alpha' beta' best' bm' true (l_quietSearched L), st').

Fixpoint abLoop (rec : Chess -> nat -> Q -> Q -> bool -> nat -> Search -> Result)
    (depth : nat) (maximizing inCheckNow : bool) (staticEval : option Q)
    (prevMoveKey : option string) (ply : nat)
    (mvs : list (nat * Move)) (L : Loop) (c : Chess) (st : Search)
    : option (Loop * Chess * Search) :=
  match mvs with
  | [] => Some (L, c, st)
  | (mi, m) :: rest =>
      let continue_ L' st' :=
        abLoop rec depth maximizing inCheckNow staticEval prevMoveKey ply rest L' c st' in
      if futilityPruned staticEval depth maximizing (l_alpha L) (l_beta L) m
      then continue_ L st
      else
        let lmp := negb inCheckNow && (depth <=? 2)%nat && isQuietMove m
                   && l_searchedFirst L in
        let quietSearched := if lmp then S (l_quietSearched L) else l_quietSearched L in
        let L := mkLoop (l_alpha L) (l_beta L) (l_best L) (l_bestMoveSoFar L)
                        (l_searchedFirst L) quietSearched in
        if lmp && (nth depth LMP_THRESHOLD 0 <? quietSearched)%nat
        then continue_ L st
        else
          let st := setMoveStack st (<[ply := pieceFromTo m]> (s_moveStack st)) in
          let c1 := move c m in
          '(score, c2, st2) ←
            searchMove rec depth maximizing inCheckNow ply mi m L c1 st;
          let c3 := undo c2 in
          let '(L', st3) := updateLoop depth maximizing m score L st2 in
          if Js.geb (l_alpha L') (l_beta L')
          then Some (L', c3, recordCutoff st3 ply depth prevMoveKey m)
          else abLoop rec depth maximizing inCheckNow staticEval prevMoveKey ply
                      rest L' c3 st3
  end.

(** The outcome of the null-move block: an early return value, or none. *)
Definition nullMove (rec : Chess -> nat -> Q -> Q -> bool -> nat -> Search -> Result)
    (c : Chess) (depth : nat) (alpha beta : Q) (maximizing inCheckNow : bool)
    (ply : nat) (st : Search) : option (option Q * Search) :=
  if negb inCheckNow && (NMP_R + 1 <=? depth)%nat then
    match load (makeNullMoveFen (fen c)) with
    | Some nullChess =>
        if in_check nullChess then Some (None, st)
        else
          '(ns, _, st') ← rec nullChess (depth - 1 - NMP_R)%nat alpha beta
                              (negb maximizing) (S ply) st;
          if maximizing && Js.geb ns beta then Some (Some beta, st')
          else if negb maximizing && Js.leb ns alpha then Some (Some alpha, st')
          else Some (None, st')
    | None => Some (None, st)
    end
  else Some (None, st).

(** The razoring block: the static eval kept for futility, and an early
    return value when the zero-width quiescence fails low. *)
Definition razoring (qs : Chess -> Q -> Q -> bool -> Search -> Result)
    (c : Chess) (depth : nat) (alpha : Q) (maximizing inCheckNow : bool)
    (st : Search) : option (option Q * option Q * Chess * Search) :=
  if negb inCheckNow && (depth <=? 3)%nat then
    let staticEval := evaluate c false in
    if maximizing && (1 <=? depth)%nat && (depth <=? 2)%nat
       && Js.ltb (staticEval + Js.ofZ (at_ RAZOR_MARGIN (Z.of_nat depth)))%Q alpha
    then
      '(qsScore, c', st') ← qs c (alpha - 1)%Q alpha maximizing st;
      if Js.ltb qsScore alpha then Some (Some staticEval, Some qsScore, c', st')
      else Some (Some staticEval, None, c', st')
    else Some (Some staticEval, None, c, st)
  else Some (None, None, c, st).

Fixpoint indexed {A} (i : nat) (l : list A) : list (nat * A) :=
  match l with
  | [] => []
  | x :: l' => (i, x) :: indexed (S i) l'
  end.

Fixpoint alphaBeta (fuel : nat) (c : Chess) (depth : nat) (alpha beta : Q)
    (maximizing : bool) (ply : nat) (st : Search) : Result :=
  match fuel with
  | O => None
  | S n =>
      let st := bumpNodes st in
      let alpha := Js.max alpha (Js.ofZ (- (30000 - Z.of_nat ply))) in
      let beta := Js.min beta (Js.ofZ (30000 - Z.of_nat ply)) in
      if Js.geb alpha beta then Some (alpha, c, st) else
      let fen0 := fen c in
      match ttGet (s_ttTable st) fen0 depth alpha beta with
      | Some ttHit => Some (ttHit, c, st)
      | None =>
      if (depth =? 0)%nat then quiescence n c alpha beta maximizing st else
      if game_over c then Some (evaluate c false, c, st) else
      let rawMoves := moves c in
      if bool_decide (rawMoves = []) then Some (evaluate c false, c, st) else
      let inCheckNow := in_check c in
      '(nullRet, st) ← nullMove (alphaBeta n) c depth alpha beta maximizing
                                inCheckNow ply st;
      match nullRet with
      | Some v => Some (v, c, st)
      | None =>
      '(staticEval, razorRet, c, st) ←
        razoring (quiescence n) c depth alpha maximizing inCheckNow st;
      match razorRet with
      | Some v => Some (v, c, st)
      | None =>
      let prevMoveKey := if (0 <? ply)%nat then s_moveStack st !! (ply - 1)%nat
                         else None in
      let ttMove := ttGetMove (s_ttTable st) fen0 in
      let ordered := orderMoves rawMoves ply prevMoveKey ttMove st in
      let L0 := mkLoop alpha beta (if maximizing then - INFINITY else INFINITY)%Q
                       None false 0%nat in
      '(L, c, st) ← abLoop (alphaBeta n) depth maximizing inCheckNow staticEval
                           prevMoveKey ply (indexed 0 ordered) L0 c st;
      let best := l_best L in
      let flag := if Js.geb best (l_beta L) then TT_LOWER
                  else if Js.leb best alpha then TT_UPPER
                  else TT_EXACT in
      Some (best, c,
            setTT st (ttSet (s_ttTable st) fen0 depth best flag (l_bestMoveSoFar L)))
      end end end
  end.
End Engine.

(** ** Iterative deepening with aspiration windows

    The inner [for (let d = 1; d <= depth; d++)] loop of [searchRoot], over
    any search procedure [search d lo hi] threading a state [State]; the
    root driver instantiates it with [alphaBeta] on the child position. *)

Section Deepening.
Context {State : Type}.
Variable search : nat -> Q -> Q -> State -> option (Q * State).

Definition failsWindow (s lo hi : Q) : bool := Js.leb s lo || Js.geb s hi.

(** One iteration: the value of [s] at depth [d]. *)
Definition aspirate (d : nat) (prevScore : Q) (st : State) : option (Q * State) :=
  if (1 <? d)%nat then
    let lo := (prevScore - ASP_DELTA)%Q in
    let hi := (prevScore + ASP_DELTA)%Q in
    '(s, st) ← search (d - 1)%nat lo hi st;
    if failsWindow s lo hi then
      let lo := (prevScore - ASP_DELTA * 3)%Q in
      let hi := (prevScore + ASP_DELTA * 3)%Q in
      '(s, st) ← search (d - 1)%nat lo hi st;
      if failsWindow s lo hi
      then search (d - 1)%nat (- INFINITY)%Q INFINITY st
      else Some (s, st)
    else Some (s, st)
  else search (d - 1)%nat (- INFINITY)%Q INFINITY st.

Definition isMateScore (s : Q) : bool := Js.geb (Js.abs s) 29000.

(** The loop over [d = from, from + 1, ...] for [count] iterations;
    [score] and [prevScore] are the two loop-carried variables. *)
Fixpoint deepen (count from : nat) (score prevScore : Q) (st : State)
    : option (Q * State) :=
  match count with
  | O => Some (score, st)
  | S k =>
      '(s, st) ← aspirate from prevScore st;
      if isMateScore s then Some (s, st)
      else deepen k (S from) s s st
  end.
End Deepening.

(** ** [searchRoot] and the worker's message handler *)

Record Line := mkLine { ln_move : Move; ln_score : Q }.

Inductive RootOutcome (Chess : Type) :=
| Threw
| Returned (lines : list Line) (c : Chess) (st : Search).
Arguments Threw {Chess}.
Arguments Returned {Chess} lines c st.

Section Root.
Context {Chess : Type} `{ChessLib Chess}.

(** History gravity: [v = oldHist[k] >> 1; if (v > 0) _histTable[k] = v]. *)
Definition gravity (h : gmap string Z) : gmap string Z :=
  omap (fun v => let v' := Z.shiftr v 1 in if 0 <? v' then Some v' else None) h.

Definition resetForRoot (st : Search) : Search :=
  mkSearch 0 (s_ttTable st) ∅ (gravity (s_histTable st)) (s_counterMoves st) ∅.

(** [alphaBeta(chess, d - 1, lo, hi, !max, 0)] as a search procedure on the
    pair of the position object and the engine state. *)
Definition rootSearch (fuel : nat) (max : bool) (d : nat) (lo hi : Q)
    (cs : Chess * Search) : option (Q * (Chess * Search)) :=
  '(s, c, st) ← alphaBeta fuel (fst cs) d lo hi (negb max) 0 (snd cs);
  Some (s, (c, st)).

Definition rootMoveScore (fuel : nat) (max : bool) (depth : nat)
    (cs : Chess * Search) : option (Q * (Chess * Search)) :=
  deepen (rootSearch fuel max) depth 1 0 0 cs.

Fixpoint rootLoop (fuel : nat) (max : bool) (depth : nat) (mvs : list Move)
    (c : Chess) (st : Search) (results : list Line)
    : option (list Line * Chess * Search) :=
  match mvs with
  | [] => Some (results, c, st)
  | m :: rest =>
      let c1 := move c m in
      '(score, cs) ← rootMoveScore fuel max depth (c1, st);
      let c3 := undo (fst cs) in
      rootLoop fuel max depth rest c3 (snd cs)
               (results ++ [mkLine m (if max then score else (- score)%Q)])
  end.

Definition searchRoot (fuel : nat) (f : string) (depth multiPV : nat)
    (st : Search) : option (RootOutcome Chess) :=
  match load f with
  | None => Some Threw
  | Some c =>
      let max := bool_decide (turn c = White) in
      let st := resetForRoot st in
      let rawMoves := moves c in
      if bool_decide (rawMoves = []) then Some (Returned [] c st)
      else
        '(results, c', st') ← rootLoop fuel max depth rawMoves c st [];
        Some (Returned (take multiPV (sortDesc ln_score results)) c' st')
  end.
End Root.

(** ** Tasks and worker replies *)

Record Task := mkTask {
  t_fen : string;
  t_depth : nat;
  t_multiPV : nat;
  t_taskId : string;
  t_rootMove : option string;
  t_moves : list string
}.

(** [{ type: 'result', taskId, lines, nodes }] or [{ type: 'error', taskId, error }]. *)
Inductive Reply :=
| ResultMsg (taskId : string) (lines : list Line) (nodes : nat)
| ErrorMsg (taskId : string).

Section Worker.
Context {Chess : Type} `{ChessLib Chess}.

(** [self.onmessage]: [multiPV || 1], and the [try / catch] around
    [searchRoot]. *)
Definition onmessage (fuel : nat) (t : Task) (st : Search) : option (Reply * Search) :=
  let multiPV := if (t_multiPV t =? 0)%nat then 1%nat else t_multiPV t in
  r ← searchRoot (Chess := Chess) fuel (t_fen t) (t_depth t) multiPV st;
  match r with
  | Threw => Some (ErrorMsg (t_taskId t), st)
  | Returned lines _ st' => Some (ResultMsg (t_taskId t) lines (s_nodes st'), st')
  end.
End Worker.

(** ** [PlanQueue.generate] *)

Section Plans.
Context {Chess : Type} `{ChessLib Chess}.

(** [Math.ceil((maxPlans - tasks.length) / rootMoves.length)] *)
Definition replyShare (maxPlans emitted rootMoveCount : nat) : nat :=
  Z.to_nat (Js.ceil (Js.ofNat (maxPlans - emitted) / Js.ofNat rootMoveCount)).

(** The level-2 loop over the sliced replies; [id] is the shared counter. *)
Fixpoint level2 (maxPlans maxDepth : nat) (rm : Move) (replies : list Move)
    (c : Chess) (tasks : list Task) (id : nat) : list Task * nat * Chess :=
  match replies with
  | [] => (tasks, id, c)
  | rp :: rest =>
      if (maxPlans <=? length tasks)%nat then (tasks, id, c)
      else
        let c1 := move c rp in
        let t := mkTask (fen c1) (Nat.max 1 (maxDepth - 2)) 1
                        ("l2-" +:+ pretty id) (Some (m_san rm))
                        [m_san rm; m_san rp] in
        level2 maxPlans maxDepth rm rest (undo c1) (tasks ++ [t]) (S id)
  end.

Fixpoint level1 (maxPlans maxDepth rootMoveCount : nat) (rootMoves : list Move)
    (c : Chess) (tasks : list Task) (id : nat) : list Task :=
  match rootMoves with
  | [] => tasks
  | rm :: rest =>
      if (maxPlans <=? length tasks)%nat then tasks
      else
        let c1 := move c rm in
        let t := mkTask (fen c1) (Nat.max 1 (maxDepth - 1))
                        (Nat.min 4 (length (moves c1)))
                        ("l1-" +:+ pretty id) (Some (m_san rm)) [m_san rm] in
        let tasks := tasks ++ [t] in
        let replies := moves c1 in
        let '(tasks, id, c2) :=
          level2 maxPlans maxDepth rm
                 (take (replyShare maxPlans (length tasks) rootMoveCount) replies)
                 c1 tasks (S id) in
        level1 maxPlans maxDepth rootMoveCount rest (undo c2) tasks id
  end.

(** [None] when [new Chess(fen)] throws. *)
Definition generate (f : string) (maxPlans maxDepth : nat) : option (list Task) :=
  c ← load f;
  let rootMoves := moves c in
  if bool_decide (rootMoves = []) then Some []
  else
    let root := mkTask f maxDepth (Nat.min 8 (length rootMoves)) "root" None [] in
    Some (level1 maxPlans maxDepth (length rootMoves) rootMoves c [root] 1).
End Plans.

(** ** [AnalysisCoordinator] *)

Definition LINE_COLORS : list string :=
  [ "#ff4d4d"; "#ff9f40"; "#ffdd57"; "#48c774";
    "#00d1b2"; "#3273dc"; "#9b59b6"; "#ff6b9d";
    "#f97316"; "#84cc16"; "#06b6d4"; "#8b5cf6";
    "#ec4899"; "#14b8a6"; "#f59e0b"; "#10b981";
    "#ef4444"; "#a855f7"; "#22c55e"; "#0ea5e9";
    "#fb923c"; "#d946ef"; "#4ade80"; "#38bdf8";
    "#fbbf24"; "#e879f9"; "#86efac"; "#67e8f9";
    "#fcd34d"; "#f0abfc"; "#bbf7d0"; "#a5f3fc" ].

(** A JavaScript [Map] keeps insertion order: an association list whose
    [set] overwrites in place or appends. *)
Fixpoint mapSet {V} (k : string) (v : V) (l : list (string * V)) : list (string * V) :=
  match l with
  | [] => [(k, v)]
  | (k', v') :: l' =>
      if bool_decide (k' = k) then (k, v) :: l' else (k', v') :: mapSet k v l'
  end.

Fixpoint mapGet {V} (k : string) (l : list (string * V)) : option V :=
  match l with
  | [] => None
  | (k', v') :: l' => if bool_decide (k' = k) then Some v' else mapGet k l'
  end.

Record ColoredLine := mkColoredLine {
  cl_rootMove : string;
  cl_score : Q;
  cl_moves : list string;
  cl_color : string;
  cl_depth : nat;
  cl_plans : nat
}.

Record Stats := mkStats {
  stats_nodes : nat;
  stats_tasks : nat;
  stats_total : nat;
  stats_final : bool
}.

(** One call of [onUpdate(lines, stats)]; the clock readings [nps] and
    [elapsed] are left out. *)
Record Emission := mkEmission { em_lines : list ColoredLine; em_stats : Stats }.

Record Coordinator := mkCoordinator {
  co_maxPlans : nat;
  co_maxDepth : nat;
  co_running : bool;
  co_results : list (string * (Task * Reply));
  co_totalNodes : nat;
  (** the calls of [onUpdate] so far, oldest first *)
  co_emitted : list Emission
}.

Definition replyLines (r : Reply) : list Line :=
  match r with ResultMsg _ lines _ => lines | ErrorMsg _ => [] end.
Definition replyNodes (r : Reply) : nat :=
  match r with ResultMsg _ _ nodes => nodes | ErrorMsg _ => 0%nat end.

Definition colorAt (colorIdx : nat) : string :=
  nth (colorIdx mod length LINE_COLORS) LINE_COLORS EmptyString.

(** Seeding [lineMap] from the root task's lines. *)
Fixpoint seedLines (maxDepth : nat) (rootLines : list Line)
    (lineMap : list (string * ColoredLine)) (colorIdx : nat)
    : list (string * ColoredLine) * nat :=
  match rootLines with
  | [] => (lineMap, colorIdx)
  | rl :: rest =>
      let san := m_san (ln_move rl) in
      if bool_decide (san = EmptyString) then seedLines maxDepth rest lineMap colorIdx
      else seedLines maxDepth rest
             (mapSet san (mkColoredLine san (ln_score rl) [san] (colorAt colorIdx)
                                        maxDepth 0) lineMap)
             (S colorIdx)
  end.

(** The enrichment loop over [_results] in insertion order. *)
Fixpoint enrichLines (entries : list (string * (Task * Reply)))
    (lineMap : list (string * ColoredLine)) (planCount : list (string * nat))
    (colorIdx : nat) : list (string * ColoredLine) * list (string * nat) :=
  match entries with
  | [] => (lineMap, planCount)
  | (_, (task, result)) :: rest =>
      match bool_decide (t_taskId task = "root"), replyLines result, t_rootMove task with
      | false, best :: _, Some rm =>
          if bool_decide (rm = EmptyString) then enrichLines rest lineMap planCount colorIdx
          else
            let planCount := mapSet rm (S (default 0%nat (mapGet rm planCount))) planCount in
            let taskScore := if (length (t_moves task) =? 1)%nat then ln_score best
                             else (- ln_score best)%Q in
            let bestSan := m_san (ln_move best) in
            match mapGet rm lineMap with
            | None =>
                enrichLines rest
                  (mapSet rm (mkColoredLine rm taskScore
                                (t_moves task ++
                                 (if bool_decide (bestSan = EmptyString) then [] else [bestSan]))
                                (colorAt colorIdx) (t_depth task) 0) lineMap)
                  planCount (S colorIdx)
            | Some existing =>
                if (length (cl_moves existing) <? length (t_moves task))%nat
                   && negb (bool_decide (bestSan ∈ cl_moves existing))
                then enrichLines rest
                       (mapSet rm (mkColoredLine (cl_rootMove existing) (cl_score existing)
                                     (t_moves task ++ [bestSan]) (cl_color existing)
                                     (cl_depth existing) 0) lineMap)
                       planCount colorIdx
                else enrichLines rest lineMap planCount colorIdx
            end
      | _, _, _ => enrichLines rest lineMap planCount colorIdx
      end
  end.

Definition buildLines (co : Coordinator) : list ColoredLine :=
  let rootLines := match mapGet "root" (co_results co) with
                   | Some (_, result) => replyLines result
                   | None => []
                   end in
  let '(lineMap, colorIdx) := seedLines (co_maxDepth co) rootLines [] 0 in
  let '(lineMap, planCount) := enrichLines (co_results co) lineMap [] colorIdx in
  sortDesc cl_score
    (List.map (fun kv : string * ColoredLine =>
       let line := snd kv in
       let plans := match mapGet (cl_rootMove line) planCount with
                    | Some (S n) => S n
                    | _ => 1%nat
                    end in
       mkColoredLine (cl_rootMove line) (cl_score line) (cl_moves line)
                     (cl_color line) (cl_depth line) plans) lineMap).

(** [_emit(final)] *)
Definition emit (final : bool) (co : Coordinator) : Coordinator :=
  let e := mkEmission (buildLines co)
             (mkStats (co_totalNodes co) (length (co_results co))
                      (co_maxPlans co) final) in
  mkCoordinator (co_maxPlans co) (co_maxDepth co) (co_running co)
                (co_results co) (co_totalNodes co) (co_emitted co ++ [e]).

(** How the promise of one dispatched task settles: the worker posted a
    message ([_onMessage] resolves) or raised an error event ([_onError]
    rejects). *)
Inductive Outcome :=
| Resolved (result : Reply)
| Rejected.

(** The [.then(...)] handler of a dispatched task, with [.catch(() => {})]
    for a rejection. *)
Definition onSettled (co : Coordinator) (ev : Task * Outcome) : Coordinator :=
  match snd ev with
  | Resolved result =>
      if co_running co then
        emit false
          (mkCoordinator (co_maxPlans co) (co_maxDepth co) (co_running co)
             (mapSet (t_taskId (fst ev)) (fst ev, result) (co_results co))
             (co_totalNodes co + replyNodes result) (co_emitted co))
      else co
  | Rejected => co
  end.

(** [start] from the generated [tasks] on: the fresh run state, the
    settlements in the order the control context handles them, and the
    closing [if (this.running) { this.running = false; this._emit(true) }]. *)
Definition startRun (maxPlans maxDepth : nat) (schedule : list (Task * Outcome))
    : Coordinator :=
  let co0 := mkCoordinator maxPlans maxDepth true [] 0 [] in
  let co := fold_left onSettled schedule co0 in
  if co_running co then
    emit true (mkCoordinator (co_maxPlans co) (co_maxDepth co) false
                 (co_results co) (co_totalNodes co) (co_emitted co))
  else co.

Section Coordinator.
Context {Chess : Type} `{ChessLib Chess}.

(** [start(fen)] for a schedule that settles the generated tasks. *)
Definition start (f : string) (maxPlans maxDepth : nat)
    (outcomes : list Task -> list (Task * Outcome)) : option Coordinator :=
  tasks ← generate (Chess := Chess) f maxPlans maxDepth;
  Some (startRun maxPlans maxDepth (outcomes tasks)).
End Coordinator.

(** ** Reading a board out of a FEN string

    Used to write down concrete positions: the first FEN field gives the
    grid of [chess.board()], the second the side to move, the fifth the
    half-move clock. *)

Definition pieceOfChar (a : Ascii.ascii) : option Piece :=
  let code := charCode a in
  let color := if (65 <=? code) && (code <=? 90) then White else Black in
  let lower := if (65 <=? code) && (code <=? 90) then code + 32 else code in
  if lower =? 112 then Some (mkPiece Pawn color)
  else if lower =? 110 then Some (mkPiece Knight color)
  else if lower =? 98 then Some (mkPiece Bishop color)
  else if lower =? 114 then Some (mkPiece Rook color)
  else if lower =? 113 then Some (mkPiece Queen color)
  else if lower =? 107 then Some (mkPiece King color)
  else None.

Fixpoint parseRow (s : string) : list (option Piece) :=
  match s with
  | EmptyString => []
  | String a s' =>
      if isDigit a then replicate (Z.to_nat (digitValue a)) None ++ parseRow s'
      else pieceOfChar a :: parseRow s'
  end.

Definition fenField (i : nat) (f : string) : string :=
  default EmptyString (split Ascii.Space f !! i).

Definition boardOfFen (f : string) : Board :=
  List.map parseRow (split (Ascii.ascii_of_nat 47) (fenField 0 f)).

Definition turnOfFen (f : string) : Color :=
  if bool_decide (fenField 1 f = "w") then White else Black.

Definition halfMovesOfFen (f : string) : N := default 0%N (parseInt (fenField 4 f)).

(** The repetition key of chess.js: the first four FEN fields. *)
Definition repetitionKey (f : string) : string :=
  join " " (take 4 (split Ascii.Space f)).

(** The colour mirror of a board: rows reversed, every piece recoloured. *)
Definition mirrorBoard (b : Board) : Board :=
  List.map (List.map (fun c : option Piece =>
    match c with
    | Some p => Some (mkPiece (p_type p) (opposite (p_color p)))
    | None => None
    end)) (rev b).

(** ** A finite excerpt of chess.js behaviour

    A [Node] records what chess.js answers in one position: its FEN, whether
    the side to move is in check, whether material is insufficient, and the
    legal moves in generation order, each with the position it leads to.
    [Beyond] marks a position past the excerpt's horizon, of which only the
    FEN is recorded.  The position object is the current node and the stack
    of nodes the moves so far were made from. *)

#[warnings="-register-all"]
Inductive Node :=
| Beyond (f : string)
| Pos (f : string) (check insufficient : bool) (next : list (Move * Node)).

Definition nodeFen (n : Node) : string :=
  match n with Beyond f => f | Pos f _ _ _ => f end.
Definition nodeNext (n : Node) : list (Move * Node) :=
  match n with Beyond _ => [] | Pos _ _ _ next => next end.
Definition nodeCheck (n : Node) : bool :=
  match n with Beyond _ => false | Pos _ check _ _ => check end.
Definition nodeInsufficient (n : Node) : bool :=
  match n with Beyond _ => false | Pos _ _ ins _ => ins end.
Definition nodeKnown (n : Node) : bool :=
  match n with Beyond _ => false | Pos _ _ _ _ => true end.

Record Game := mkGame { g_cur : Node; g_hist : list Node }.

(** chess.js matches a move object on its squares and promotion piece. *)
Definition sameMove (a b : Move) : bool :=
  bool_decide (m_from a = m_from b) && bool_decide (m_to a = m_to b)
  && bool_decide (m_promotion a = m_promotion b).

Fixpoint lookupMove (m : Move) (next : list (Move * Node)) : option Node :=
  match next with
  | [] => None
  | (m', n) :: rest => if sameMove m' m then Some n else lookupMove m rest
  end.

Fixpoint findNode (f : string) (n : Node) : option Node :=
  if bool_decide (nodeFen n = f) then Some n
  else match n with
       | Beyond _ => None
       | Pos _ _ _ next =>
           (fix go (l : list (Move * Node)) : option Node :=
              match l with
              | [] => None
              | (_, n') :: l' =>
                  match findNode f n' with
                  | Some r => Some r
                  | None => go l'
                  end
              end) next
       end.

Fixpoint findInBook (f : string) (book : list Node) : option Node :=
  match book with
  | [] => None
  | n :: rest => match findNode f n with Some r => Some r | None => findInBook f rest end
  end.

Module Excerpt.
Definition g_moves (g : Game) : list Move := List.map fst (nodeNext (g_cur g)).
Definition g_move (g : Game) (m : Move) : Game :=
  match lookupMove m (nodeNext (g_cur g)) with
  | Some n => mkGame n (g_cur g :: g_hist g)
  | None => g
  end.
Definition g_undo (g : Game) : Game :=
  match g_hist g with
  | h :: t => mkGame h t
  | [] => g
  end.
Definition g_in_check (g : Game) : bool := nodeCheck (g_cur g).
Definition g_in_checkmate (g : Game) : bool :=
  nodeKnown (g_cur g) && g_in_check g && bool_decide (g_moves g = []).
Definition g_in_stalemate (g : Game) : bool :=
  nodeKnown (g_cur g) && negb (g_in_check g) && bool_decide (g_moves g = []).
Definition g_fifty (g : Game) : bool := (100 <=? halfMovesOfFen (nodeFen (g_cur g)))%N.
Definition g_threefold (g : Game) : bool :=
  let keys := List.map (fun n => repetitionKey (nodeFen n)) (g_cur g :: g_hist g) in
  existsb (fun k => (3 <=? length (List.filter (fun k' => bool_decide (k' = k)) keys))%nat) keys.
Definition g_insufficient (g : Game) : bool := nodeInsufficient (g_cur g).
Definition g_in_draw (g : Game) : bool :=
  g_fifty g || g_in_stalemate g || g_insufficient g || g_threefold g.
Definition g_game_over (g : Game) : bool :=
  g_fifty g || g_in_checkmate g || g_in_stalemate g || g_insufficient g || g_threefold g.
End Excerpt.

(** The library instance answering from a book of recorded nodes. *)
Definition excerptLib (book : list Node) : ChessLib Game := {|
  turn g := turnOfFen (nodeFen (g_cur g));
  board g := boardOfFen (nodeFen (g_cur g));
  fen g := nodeFen (g_cur g);
  moves := Excerpt.g_moves;
  move := Excerpt.g_move;
  undo := Excerpt.g_undo;
  load f := (fun n => mkGame n []) <$> findInBook f book;
  in_check := Excerpt.g_in_check;
  in_checkmate := Excerpt.g_in_checkmate;
  in_stalemate := Excerpt.g_in_stalemate;
  in_draw := Excerpt.g_in_draw;
  in_threefold_repetition := Excerpt.g_threefold;
  insufficient_material := Excerpt.g_insufficient;
  game_over := Excerpt.g_game_over
|}.

(** ** Recorded positions

    The king-and-pawn ending [7k/8/8/8/8/8/P7/K7 w - - 0 1] with its four
    white moves and the three black replies to each, in the order chess.js
    generates them; the positions after [1. Kb1] and a black reply are
    recorded with their six white moves.  A stalemate and a checkmate
    position complete the book. *)

Module Book.
Definition quiet (from to : string) (t : PieceType) (c : Color) (san : string) : Move :=
  mkMove from to t c None None san.

Definition m_a3 := quiet "a2" "a3" Pawn White "a3".
Definition m_a4 := quiet "a2" "a4" Pawn White "a4".
Definition m_Kb2 := quiet "a1" "b2" King White "Kb2".
Definition m_Kb1 := quiet "a1" "b1" King White "Kb1".
Definition m_Kh7 := quiet "h8" "h7" King Black "Kh7".
Definition m_Kg7 := quiet "h8" "g7" King Black "Kg7".
Definition m_Kg8 := quiet "h8" "g8" King Black "Kg8".

(** The three placements of the black king after its reply: rows 8 and 7. *)
Definition kingRows : list (Move * string) :=
  [ (m_Kh7, "8/7k"); (m_Kg7, "8/6k1"); (m_Kg8, "6k1/8") ].

(** After [1. Kb1] and a reply: white king b1, pawn a2, white to move. *)
Definition afterKb1 (rows : string) : Node :=
  Pos (rows +:+ "/8/8/8/8/P7/1K6 w - - 2 2") false false
    [ (quiet "a2" "a3" Pawn White "a3", Beyond (rows +:+ "/8/8/8/P7/8/1K6 b - - 0 2"));
      (quiet "a2" "a4" Pawn White "a4", Beyond (rows +:+ "/8/8/P7/8/8/1K6 b - a3 0 2"));
      (quiet "b1" "b2" King White "Kb2", Beyond (rows +:+ "/8/8/8/8/PK6/8 b - - 3 2"));
      (quiet "b1" "c2" King White "Kc2", Beyond (rows +:+ "/8/8/8/8/P1K5/8 b - - 3 2"));
      (quiet "b1" "c1" King White "Kc1", Beyond (rows +:+ "/8/8/8/8/P7/2K5 b - - 3 2"));
      (quiet "b1" "a1" King White "Ka1", Beyond (rows +:+ "/8/8/8/8/P7/K7 b - - 3 2")) ].

Definition repliesTo (rest : string) (expand : bool) : list (Move * Node) :=
  List.map (fun kr : Move * string =>
    (fst kr, if expand then afterKb1 (snd kr) else Beyond (snd kr +:+ rest))) kingRows.

Definition afterA3 : Node :=
  Pos "7k/8/8/8/8/P7/8/K7 b - - 0 1" false false
      (repliesTo "/8/8/8/P7/8/K7 w - - 1 2" false).
Definition afterA4 : Node :=
  Pos "7k/8/8/8/P7/8/8/K7 b - a3 0 1" false false
      (repliesTo "/8/8/P7/8/8/K7 w - - 1 2" false).
Definition afterKb2 : Node :=
  Pos "7k/8/8/8/8/8/PK6/8 b - - 1 1" false false
      (repliesTo "/8/8/8/8/PK6/8 w - - 2 2" false).
Definition afterKb1Root : Node :=
  Pos "7k/8/8/8/8/8/P7/1K6 b - - 1 1" false false (repliesTo EmptyString true).

Definition endgame : Node :=
  Pos "7k/8/8/8/8/8/P7/K7 w - - 0 1" false false
    [ (m_a3, afterA3); (m_a4, afterA4); (m_Kb2, afterKb2); (m_Kb1, afterKb1Root) ].

Definition stalemate : Node := Pos "7k/5Q2/6K1/8/8/8/8/8 b - - 0 1" false false [].
Definition checkmate : Node := Pos "R5k1/5ppp/8/8/8/8/5PPP/6K1 b - - 1 1" true false [].

Definition book : list Node := [endgame; stalemate; checkmate].
Definition lib : ChessLib Game := excerptLib book.

Definition endgameFen : string := "7k/8/8/8/8/8/P7/K7 w - - 0 1".
Definition blackToMoveFen : string := "7k/8/8/8/8/8/P7/1K6 b - - 1 1".

Definition emptySearch : Search := mkSearch 0 ∅ ∅ ∅ ∅ ∅.
End Book.

(** A table whose slot for the endgame FEN already holds a deeper entry. *)
Definition staleTable : gmap Z TTEntry :=
  {[ ttKey Book.endgameFen := mkTTEntry Book.endgameFen 5 10 TT_UPPER None ]}.

(** ** The aspiration schedule, as the specification words it

    A [Call] is one invocation of the search procedure: the depth and the
    window it was given and the score it returned.  [IterLog d prev] lists
    the calls iteration [d] may make after a previous score [prev]: the full
    window alone at [d = 1]; otherwise the window of half-width 50 around
    [prev], then on a fail-low or fail-high the window of half-width 150,
    then the full window.  [DeepenLog] chains the iterations and stops at
    the first score of magnitude 29000 or more. *)






(** ** The shape of a generated plan list, as the specification words it

    [blockOf] is what one root move contributes: its level-1 task followed
    by level-2 tasks for the first [n] replies, numbered consecutively from
    [id].  [PlanBlocks] lists such blocks for the root moves in enumeration
    order, possibly stopping early. *)

Section PlanShape.
Context {Chess : Type} `{ChessLib Chess}.

Definition rootTask (f : string) (maxDepth rootMoveCount : nat) : Task :=
  mkTask f maxDepth (Nat.min 8 rootMoveCount) "root" None [].

Definition l1Task (maxDepth : nat) (c : Chess) (rm : Move) (id : nat) : Task :=
  mkTask (fen (move c rm)) (Nat.max 1 (maxDepth - 1))
         (Nat.min 4 (length (moves (move c rm))))
         ("l1-" +:+ pretty id) (Some (m_san rm)) [m_san rm].

Definition l2Task (maxDepth : nat) (c1 : Chess) (rm : Move) (id : nat) (rp : Move)
    : Task :=
  mkTask (fen (move c1 rp)) (Nat.max 1 (maxDepth - 2)) 1
         ("l2-" +:+ pretty id) (Some (m_san rm)) [m_san rm; m_san rp].

Definition blockOf (maxDepth : nat) (c : Chess) (rm : Move) (n id : nat) : list Task :=
  l1Task maxDepth c rm id
  :: imap (fun i rp => l2Task maxDepth (move c rm) rm (S id + i) rp)
          (take n (moves (move c rm))).

Inductive PlanBlocks (maxDepth : nat) (c : Chess) : list Move -> nat -> list Task -> Prop :=
| PlanStop mvs id : PlanBlocks maxDepth c mvs id []
| PlanBlock rm rest id n tasks :
    (n <= length (moves (move c rm)))%nat ->
    PlanBlocks maxDepth c rest (S id + n) tasks ->
    PlanBlocks maxDepth c (rm :: rest) id (blockOf maxDepth c rm n id ++ tasks).

(** The replies summed over the root moves. *)
Definition sumReplies (c : Chess) (mvs : list Move) : nat :=
  foldr (fun rm acc => (length (moves (move c rm)) + acc)%nat) 0%nat mvs.
End PlanShape.

(** ** Counting settlements *)

Definition isResolved (ev : Task * Outcome) : bool :=
  match snd ev with Resolved _ => true | Rejected => false end.

Definition resolvedCount (schedule : list (Task * Outcome)) : nat :=
  length (List.filter isResolved schedule).

(** A schedule in which the worker of every task raised an error event. *)
Definition allRejected (tasks : list Task) : list (Task * Outcome) :=
  List.map (fun t => (t, Rejected)) tasks.

(** A schedule in which every task is answered with an empty result. *)
Definition allResolved (tasks : list Task) : list (Task * Outcome) :=
  List.map (fun t => (t, Resolved (ResultMsg (t_taskId t) [] 7))) tasks.

(** ** A position and its colour mirror

    After [1. e4 e5 2. Nf3 Nf6 3. Nh4], black to move, and the mirrored
    position after [1. e3 e5 2. e4 Nf6 3. Nf3 Nh5], white to move.  Neither
    is terminal; chess.js counts 27 legal moves for the side to move and 29
    for the other side in both. *)

Definition knightRaidFen : string :=
  "rnbqkb1r/pppp1ppp/5n2/4p3/4P2N/8/PPPP1PPP/RNBQKB1R b KQkq - 3 3".
Definition knightRaidMirrorFen : string :=
  "rnbqkb1r/pppp1ppp/8/4p2n/4P3/5N2/PPPP1PPP/RNBQKB1R w KQkq - 3 4".

(** What [evaluate] observes in a non-terminal position with the given FEN
    and mobility counts. *)
Definition liveObs (f : string) (toMoveCount oppCount : nat) : EvalObs :=
  mkEvalObs false false false false (turnOfFen f) (boardOfFen f) toMoveCount oppCount.

Definition tropismOfFen (f : string) : Z :=
  let s := scanBoard (boardOfFen f) in
  kingTropismScore (boardOfFen f) (sc_wKingFile s) (sc_wKingRank s)
                   (sc_bKingFile s) (sc_bKingRank s).

(** ** Search procedures that hand the position object back as they got it *)

Section Restoring.
Context {Chess : Type} `{ChessLib Chess}.

Definition QsRestores (rec : Chess -> Q -> Q -> bool -> Search -> Result) : Prop :=
  forall c a b m st s c' st', rec c a b m st = Some (s, c', st') -> c' = c.

Definition AbRestores
    (rec : Chess -> nat -> Q -> Q -> bool -> nat -> Search -> Result) : Prop :=
  forall c d a b m p st s c' st', rec c d a b m p st = Some (s, c', st') -> c' = c.
End Restoring.

(** An emission made while the run is still going. *)
Definition isUpdate (e : Emission) : Prop := stats_final (em_stats e) = false.

(** ** How a search may change the engine state *)

(** The heuristic tables and the transposition table are the same. *)
Definition sameTables (st st' : Search) : Prop :=
  s_ttTable st' = s_ttTable st
  /\ s_killers st' = s_killers st
  /\ s_histTable st' = s_histTable st
  /\ s_counterMoves st' = s_counterMoves st
  /\ s_moveStack st' = s_moveStack st.

(** Every occupied slot stays occupied, at the same depth or deeper. *)
Definition ttGrows (t t' : gmap Z TTEntry) : Prop :=
  forall k e, t !! k = Some e ->
    exists e', t' !! k = Some e' /\ (e_depth e <= e_depth e')%nat.

(** Nodes are only counted up, table slots only deepen, and a recorded
    countermove is never forgotten. *)
Definition evolves (st st' : Search) : Prop :=
  (s_nodes st <= s_nodes st')%nat
  /\ ttGrows (s_ttTable st) (s_ttTable st')
  /\ (forall k, is_Some (s_counterMoves st !! k) -> is_Some (s_counterMoves st' !! k)).

(** The stand-pat value of [quiescence]: the static score brought into the
    window. *)
Definition standPatValue (stand alpha beta : Q) (maximizing : bool) : Q :=
  if maximizing then
    if Js.geb stand beta then beta else if Js.gtb stand alpha then stand else alpha
  else
    if Js.leb stand alpha then alpha else if Js.ltb stand beta then stand else beta.

Section Evolving.
Context {Chess : Type} `{ChessLib Chess}.

Definition AbEvolves
    (rec : Chess -> nat -> Q -> Q -> bool -> nat -> Search -> Result (Chess := Chess))
    : Prop :=
  forall c d a b m p st s c' st', rec c d a b m p st = Some (s, c', st') -> evolves st st'.
End Evolving.

(** ** The shape of the heuristic tables *)

(** Every history counter present is positive. *)
Definition posHist (h : gmap string Z) : Prop :=
  forall k v, h !! k = Some v -> 0 < v.

(** A killer pair has its first slot filled and holds no move twice. *)
Definition killersOk (ks : gmap nat (option string * option string)) : Prop :=
  forall ply k0 k1, ks !! ply = Some (k0, k1) -> is_Some k0 /\ k0 <> k1.

Definition wellFormed (st : Search) : Prop :=
  posHist (s_histTable st) /\ killersOk (s_killers st).

Section WellFormed.
Context {Chess : Type} `{ChessLib Chess}.

Definition AbWellFormed
    (rec : Chess -> nat -> Q -> Q -> bool -> nat -> Search -> Result (Chess := Chess))
    : Prop :=
  forall c d a b m p st s c' st',
    rec c d a b m p st = Some (s, c', st') -> wellFormed st -> wellFormed st'.
End WellFormed.

(** ** [WorkerPool]

    The pool runs in the control context: [dispatch] is called by the
    coordinator, [_onMessage] and [_onError] by the event loop when worker
    [idx] posts a message or raises an error event.  The calls of
    [postMessage], [resolve] and [reject] are kept as logs. *)

(** [{ task, resolve, reject }]: the promise is named by the number of the
    [dispatch] call that made it. *)
Record Job := mkJob { j_task : Task; j_promise : nat }.

Record Pool := mkPool {
  (** [this.workers.length] *)
  p_workers : nat;
  p_queue : list Job;
  p_active : gmap nat Job;
  (** the calls [workers[i].postMessage(job.task)], oldest first *)
  p_posted : list (nat * Job);
  (** the calls of [job.resolve] and [job.reject], oldest first *)
  p_settled : list (Job * Outcome);
  (** the number of [dispatch] calls so far *)
  p_dispatched : nat
}.

(** [new WorkerPool(size)] *)
Definition newPool (size : nat) : Pool := mkPool size [] ∅ [] [] 0.

(** The loop of [_drain] over the worker indices still to visit. *)
Fixpoint drainFrom (idxs : list nat) (p : Pool) : Pool :=
  match idxs with
  | [] => p
  | i :: rest =>
      if bool_decide (is_Some (p_active p !! i)) then drainFrom rest p
      else
        match p_queue p with
        | [] => p
        | job :: queue =>
            drainFrom rest
              (mkPool (p_workers p) queue (<[i := job]> (p_active p))
                      (p_posted p ++ [(i, job)]) (p_settled p) (p_dispatched p))
        end
  end.

Definition drain (p : Pool) : Pool := drainFrom (seq 0 (p_workers p)) p.

(** [dispatch(task)]: the executor of the promise runs at once. *)
Definition dispatch (task : Task) (p : Pool) : Pool :=
  drain (mkPool (p_workers p) (p_queue p ++ [mkJob task (p_dispatched p)])
                (p_active p) (p_posted p) (p_settled p) (S (p_dispatched p))).

(** [_onMessage] and [_onError] differ in the way they settle the job. *)
Definition settle (idx : nat) (o : Outcome) (p : Pool) : Pool :=
  let job := p_active p !! idx in
  drain (mkPool (p_workers p) (p_queue p) (delete idx (p_active p)) (p_posted p)
                (match job with
                 | Some j => p_settled p ++ [(j, o)]
                 | None => p_settled p
                 end)
                (p_dispatched p)).

Definition onMessage (idx : nat) (data : Reply) (p : Pool) : Pool :=
  settle idx (Resolved data) p.
Definition onError (idx : nat) (p : Pool) : Pool := settle idx Rejected p.

Definition terminate (p : Pool) : Pool :=
  mkPool 0 [] ∅ (p_posted p) (p_settled p) (p_dispatched p).

(** What can happen to a pool, and a run of such events. *)
Inductive PoolEvent :=
| Dispatch (task : Task)
| Message (idx : nat) (data : Reply)
| Error (idx : nat)
| Terminate.

Definition poolStep (p : Pool) (ev : PoolEvent) : Pool :=
  match ev with
  | Dispatch task => dispatch task p
  | Message idx data => onMessage idx data p
  | Error idx => onError idx p
  | Terminate => terminate p
  end.

Definition poolRun (evs : list PoolEvent) (p : Pool) : Pool := fold_left poolStep evs p.

Definition isTerminate (ev : PoolEvent) : bool :=
  match ev with Terminate => true | _ => false end.

(** The jobs made by the [dispatch] calls of a run, numbered from [n]. *)
Fixpoint jobsFrom (n : nat) (evs : list PoolEvent) : list Job :=
  match evs with
  | [] => []
  | Dispatch task :: rest => mkJob task n :: jobsFrom (S n) rest
  | _ :: rest => jobsFrom n rest
  end.

(** A run of worker events in which each event comes from a worker that
    holds a job at that moment. *)
Fixpoint answered (p : Pool) (evs : list PoolEvent) : Prop :=
  match evs with
  | [] => True
  | ev :: rest =>
      match ev with
      | Message idx _ | Error idx => is_Some (p_active p !! idx)
      | _ => False
      end
      /\ answered (poolStep p ev) rest
  end.

(** Every posted job is in flight or settled. *)
Definition accounted (p : Pool) : Prop :=
  Permutation (List.map fst (p_settled p) ++ List.map snd (map_to_list (p_active p)))
              (List.map snd (p_posted p)).

(** Three tasks for a pool of two workers, and the workers' answers: worker
    0 answers the first task and is handed the third, worker 1 fails on the
    second, worker 0 answers the third. *)
Definition threeTasks : list Task :=
  [ mkTask "7k/8/8/8/8/8/P7/K7 w - - 0 1" 3 4 "root" None [];
    mkTask "7k/8/8/8/8/8/P7/1K6 b - - 1 1" 2 3 "l1-1" (Some "Kb1") ["Kb1"];
    mkTask "6k1/8/8/8/8/8/P7/1K6 w - - 2 2" 1 1 "l2-2" (Some "Kb1") ["Kb1"; "Kg8"] ].

Definition threeAnswers : list PoolEvent :=
  [ Message 0 (ResultMsg "root" [] 40); Error 1; Message 0 (ResultMsg "l2-2" [] 9) ].

(** ** The shape of [lineMap] in [_buildLines] *)

(** Keys are distinct, and an entry is filed under its own, non-empty root
    move with a colour of the palette. *)
Definition lineMapOk (lineMap : list (string * ColoredLine)) : Prop :=
  NoDup (List.map fst lineMap)
  /\ Forall (fun kv => cl_rootMove (snd kv) = fst kv
                       /\ fst kv <> EmptyString
                       /\ cl_color (snd kv) ∈ LINE_COLORS) lineMap.

(** The entries carry the palette colours in the order of their insertion. *)
Definition coloredInOrder (lineMap : list (string * ColoredLine)) (colorIdx : nat) : Prop :=
  List.map (fun kv => cl_color (snd kv)) lineMap = List.map colorAt (seq 0 (length lineMap))
  /\ colorIdx = length lineMap.

(** The lines of the root task's reply, as [_buildLines] reads them. *)
Definition rootLinesOf (co : Coordinator) : list Line :=
  match mapGet "root" (co_results co) with
  | Some (_, result) => replyLines result
  | None => []
  end.

(** A coordinator holding the root reply and one level-1 reply. *)
Definition twoReplies : Coordinator :=
  mkCoordinator 16 6 true
    [ ("root",
       (mkTask "7k/8/8/8/8/8/P7/K7 w - - 0 1" 6 4 "root" None [],
        ResultMsg "root"
          [ mkLine (mkMove "a2" "a4" Pawn White None None "a4") 25;
            mkLine (mkMove "a1" "b1" King White None None "Kb1") 10 ] 40));
      ("l1-1",
       (mkTask "7k/8/8/8/8/8/P7/1K6 b - - 1 1" 5 3 "l1-1" (Some "Kb1") ["Kb1"],
        ResultMsg "l1-1"
          [ mkLine (mkMove "h8" "g8" King Black None None "Kg8") 30 ] 9)) ]
    49 [].

(** ** Totals of a run *)

(** The nodes a settlement adds to [_totalNodes]: [result.nodes || 0]. *)
Definition outcomeNodes (ev : Task * Outcome) : nat :=
  match snd ev with Resolved r => replyNodes r | Rejected => 0%nat end.

Definition resolvedNodes (schedule : list (Task * Outcome)) : nat :=
  foldr (fun ev acc => (outcomeNodes ev + acc)%nat) 0%nat schedule.

(** The statistics of a later emission are not smaller. *)
Definition statsGrow (e1 e2 : Emission) : Prop :=
  (stats_nodes (em_stats e1) <= stats_nodes (em_stats e2))%nat
  /\ (stats_tasks (em_stats e1) <= stats_tasks (em_stats e2))%nat.

(** ** The coordinator on top of the pool *)

(** The settlements of the pool's promises, in the order in which the
    [.then] handlers of [start] see them. *)
Definition poolSchedule (p : Pool) : list (Task * Outcome) :=
  List.map (fun s : Job * Outcome => (j_task (fst s), snd s)) (p_settled p).

Definition isMessage (ev : PoolEvent) : bool :=
  match ev with Message _ _ => true | _ => false end.

Definition messageCount (evs : list PoolEvent) : nat :=
  length (List.filter isMessage evs).

(** Workers [0 .. n-1] each answer once, in turn. *)
Definition answersInTurn (n : nat) : list PoolEvent :=
  List.map (fun i => Message i (ResultMsg (pretty i) [] 7)) (seq 0 n).

(** ** FEN fields *)

(** The string holds no blank. *)
Fixpoint noSpace (s : string) : bool :=
  match s with
  | EmptyString => true
  | String a s' => negb (Ascii.eqb a Ascii.Space) && noSpace s'
  end.

(** ** The progress shown by [_onAnalysisUpdate] *)

(** [Math.round((stats.tasks / stats.total) * 100)] *)
Definition progressPercent (s : Stats) : Z :=
  Js.round (Js.ofNat (stats_tasks s) / Js.ofNat (stats_total s) * 100)%Q.

(** ** Board geometry ([board.js]) *)

(** [_sq(row, col)]: the square shown in grid cell [(row, col)]. *)
Definition boardSq (flipped : bool) (row col : Z) : string :=
  let r := if flipped then row + 1 else 8 - row in
  let f := if flipped then 7 - col else col in
  squareName f r.

(** [_sqCenter(sq, sqSize)]: the canvas point at which an arrow for [sq]
    starts or ends. *)
Definition sqCenter (flipped : bool) (sq : string) (sqSize : Q) : Q * Q :=
  match sq with
  | String c0 (String c1 _) =>
      let file := indexOfFrom 0 c0 fileLetters in
      let rank := digitValue c1 in
      let col := if flipped then 7 - file else file in
      let row := if flipped then rank - 1 else 8 - rank in
      ((Js.ofZ col * sqSize + sqSize / 2)%Q, (Js.ofZ row * sqSize + sqSize / 2)%Q)
  | _ => (0%Q, 0%Q)
  end.

(** ** The plan list in closed form

    The list of tasks as the description of the generator gives it: while
    fewer than [maxPlans] tasks are emitted, the next root move contributes
    its level-1 task and the level-2 tasks of its first [blockSize] replies. *)

Section PlanList.
Context {Chess : Type} `{ChessLib Chess}.

(** The number of level-2 tasks of a root move with [replies] replies, when
    [emitted] tasks precede its level-1 task: the fair share, the replies
    there are, and the budget left, whichever is least. *)
Definition blockSize (maxPlans k emitted replies : nat) : nat :=
  Nat.min (Nat.min (replyShare maxPlans (S emitted) k) replies) (maxPlans - S emitted).

Fixpoint planTasks (maxPlans k maxDepth : nat) (c : Chess) (mvs : list Move)
    (id emitted : nat) : list Task :=
  match mvs with
  | [] => []
  | rm :: rest =>
      if (maxPlans <=? emitted)%nat then []
      else
        let n := blockSize maxPlans k emitted (length (moves (move c rm))) in
        blockOf maxDepth c rm n id
        ++ planTasks maxPlans k maxDepth c rest (S id + n) (S emitted + n)
  end.
End PlanList.

(** ** An engine state left by earlier searches

    Two occupied transposition-table slots (the endgame position and the
    position after [Kb1], both at depth 1), a killer pair that names one
    move twice, a history counter that halves to zero and one that does
    not, one countermove, and 100 nodes on the counter. *)

Definition warmSearch : Search :=
  mkSearch 100
    {[ ttKey Book.endgameFen := mkTTEntry Book.endgameFen 1 5 TT_LOWER (Some "a2a4");
       ttKey Book.blackToMoveFen := mkTTEntry Book.blackToMoveFen 1 5 TT_LOWER None ]}
    {[ 0%nat := (Some "a1b1", Some "a1b1") ]}
    {[ "ka1b1" := 1; "pa2a4" := 9 ]}
    {[ "kh8g8" := "pa2a4" ]}
    ∅.

(** * Properties *)

(** ** Comparisons and rounding *)

Lemma Js_leb_le a b : Js.leb a b = true <-> (a <= b)%Q.
Proof. apply Qle_bool_iff. Qed.

Lemma Js_geb_le a b : Js.geb a b = true <-> (b <= a)%Q.
Proof. apply Qle_bool_iff. Qed.

Lemma Js_ltb_lt a b : Js.ltb a b = true <-> (a < b)%Q.
Proof.
  unfold Js.ltb. rewrite negb_true_iff.
  split.
  - intros H. apply Qnot_le_lt. intros Hle.
    apply Qle_bool_iff in Hle. congruence.
  - intros H. destruct (Qle_bool b a) eqn:E; [|done].
    apply Qle_bool_iff in E. exfalso. eapply Qlt_not_le; eauto.
Qed.

Lemma Js_gtb_lt a b : Js.gtb a b = true <-> (b < a)%Q.
Proof. apply (Js_ltb_lt b a). Qed.

Lemma Js_round_ofZ z : Js.round (Js.ofZ z) = z.
Proof.
  unfold Js.round, Js.ofZ, Qfloor, inject_Z, Qplus. simpl.
  rewrite Z.mul_1_r.
  replace (z * 2 + 1) with (1 + z * 2) by lia.
  rewrite Z.div_add by lia. reflexivity.
Qed.

(** ** Transposition table *)

Lemma ttGet_Some_inv (tt : gmap Z TTEntry) fen depth alpha beta s :
  ttGet tt fen depth alpha beta = Some s ->
  exists e, tt !! ttKey fen = Some e /\ e_fen e = fen /\ (depth <= e_depth e)%nat
            /\ s = e_score e
            /\ (e_flag e = TT_EXACT
                \/ (e_flag e = TT_LOWER /\ (beta <= e_score e)%Q)
                \/ (e_flag e = TT_UPPER /\ (e_score e <= alpha)%Q)).
Proof.
  unfold ttGet. destruct (tt !! ttKey fen) as [e|] eqn:He; [|done].
  destruct (bool_decide (e_fen e = fen)) eqn:Hf; simpl; [|done].
  apply bool_decide_eq_true in Hf.
  destruct (e_depth e <? depth)%nat eqn:Hd; [done|].
  apply Nat.ltb_ge in Hd.
  intros Hs. exists e. split; [done|]. split; [done|]. split; [done|].
  destruct (bool_decide (e_flag e = TT_EXACT)) eqn:Hx.
  { apply bool_decide_eq_true in Hx. inversion Hs. auto. }
  destruct (bool_decide (e_flag e = TT_LOWER)) eqn:Hl; simpl in Hs.
  { apply bool_decide_eq_true in Hl.
    destruct (Js.geb (e_score e) beta) eqn:Hb.
    - inversion Hs. apply Js_geb_le in Hb. auto.
    - rewrite Hl in Hs. simpl in Hs. done. }
  destruct (bool_decide (e_flag e = TT_UPPER)) eqn:Hu; simpl in Hs; [|done].
  apply bool_decide_eq_true in Hu.
  destruct (Js.leb (e_score e) alpha) eqn:Ha; [|done].
  inversion Hs. apply Js_leb_le in Ha. auto.
Qed.

Lemma ttSet_writes_spec (tt : gmap Z TTEntry) fen depth :
  ttSet_writes tt fen depth = true <->
  (tt !! ttKey fen = None
   \/ exists e, tt !! ttKey fen = Some e /\ (e_depth e <= depth)%nat).
Proof.
  unfold ttSet_writes. destruct (tt !! ttKey fen) as [e|].
  - rewrite Nat.leb_le. split.
    + intros Hle. right. eauto.
    + intros [Hn | (e' & He' & Hle)]; [done|]. by inversion He'; subst.
  - split; auto.
Qed.

Lemma ttGet_after_write (tt : gmap Z TTEntry) fen depth score bestMove d' alpha beta :
  (d' <= depth)%nat ->
  ttGet (<[ttKey fen := mkTTEntry fen depth score TT_EXACT bestMove]> tt)
        fen d' alpha beta = Some score.
Proof.
  intros Hd. unfold ttGet. rewrite lookup_insert_eq. simpl.
  rewrite bool_decide_eq_true_2 by done. simpl.
  destruct (depth <? d')%nat eqn:E; [apply Nat.ltb_lt in E; lia|].
  reflexivity.
Qed.

(** C4 (amended): a probe answers only from an entry with the probe's FEN,
    a depth at least the requested one and a flag that admits the window; a
    store replaces the slot exactly when it is empty or holds a depth at most
    the new one, and leaves the table alone otherwise; and after a store with
    flag EXACT that did replace the slot, a probe of the same FEN with the
    full window returns the stored score for every requested depth up to the
    stored one. *)
Theorem tt_probe_store_contract (tt : gmap Z TTEntry) (fen : string) (depth : nat)
    (score : Q) (flag : TTFlag) (bestMove : option string) :
  (forall d alpha beta s,
      ttGet tt fen d alpha beta = Some s ->
      exists e, tt !! ttKey fen = Some e /\ e_fen e = fen /\ (d <= e_depth e)%nat
                /\ s = e_score e
                /\ (e_flag e = TT_EXACT
                    \/ (e_flag e = TT_LOWER /\ (beta <= e_score e)%Q)
                    \/ (e_flag e = TT_UPPER /\ (e_score e <= alpha)%Q)))
  /\ (ttSet_writes tt fen depth = true <->
      (tt !! ttKey fen = None
       \/ exists e, tt !! ttKey fen = Some e /\ (e_depth e <= depth)%nat))
  /\ (ttSet_writes tt fen depth = true ->
      ttSet tt fen depth score flag bestMove
      = <[ttKey fen := mkTTEntry fen depth score flag bestMove]> tt)
  /\ (ttSet_writes tt fen depth = false ->
      ttSet tt fen depth score flag bestMove = tt)
  /\ (ttSet_writes tt fen depth = true ->
      forall d', (d' <= depth)%nat ->
        ttGet (ttSet tt fen depth score TT_EXACT bestMove) fen d' (- INFINITY) INFINITY
        = Some score).
Proof.
  split; [intros; by apply ttGet_Some_inv|].
  split; [apply ttSet_writes_spec|].
  split; [intros Hw; unfold ttSet; by rewrite Hw|].
  split; [intros Hw; unfold ttSet; by rewrite Hw|].
  intros Hw d' Hd. unfold ttSet. rewrite Hw. by apply ttGet_after_write.
Qed.

Lemma tt_probe_store_contract_witness :
  ttGet (ttSet ∅ Book.endgameFen 3 42 TT_EXACT None) Book.endgameFen 2
        (- INFINITY) INFINITY = Some (42 : Q).
Proof.
  apply (tt_probe_store_contract ∅ Book.endgameFen 3 42 TT_EXACT None).
  - reflexivity.
  - lia.
Defined.

(** C4 as stated fails: the slot holds a deeper UPPER entry for the same
    FEN, so the EXACT store at depth 3 is dropped and the full-window probe
    at depth 2 misses instead of returning 42. *)
Lemma tt_probe_after_dropped_store :
  ttSet_writes staleTable Book.endgameFen 3 = false
  /\ ttGet (ttSet staleTable Book.endgameFen 3 42 TT_EXACT None) Book.endgameFen 2
           (- INFINITY) INFINITY = None
  /\ ttGet (ttSet staleTable Book.endgameFen 3 42 TT_EXACT None) Book.endgameFen 2
           (- INFINITY) INFINITY <> Some (42 : Q).
Proof. repeat split; try (vm_compute; reflexivity). vm_compute. discriminate. Qed.

(** ** The recorded positions obey the library contract *)

Lemma sameMove_refl m : sameMove m m = true.
Proof. unfold sameMove. by rewrite !bool_decide_eq_true_2. Qed.

Lemma lookupMove_In m next :
  In m (List.map fst next) -> is_Some (lookupMove m next).
Proof.
  induction next as [|[m' n] next IH]; simpl; [done|].
  intros [->|Hin].
  - rewrite sameMove_refl. eauto.
  - destruct (sameMove m' m); eauto.
Qed.

Lemma excerpt_laws (book : list Node) : @ChessLaws Game (excerptLib book).
Proof.
  split.
  - intros [cur hist] m Hin. simpl in *.
    unfold Excerpt.g_move, Excerpt.g_moves in *. simpl in *.
    destruct (lookupMove_In _ _ Hin) as [n Hn]. rewrite Hn. reflexivity.
  - intros g Hins. simpl in *. unfold Excerpt.g_in_draw.
    rewrite Hins. by rewrite !orb_true_r.
Qed.

(** ** Terminal positions *)

Section Terminal.
Context {Chess : Type} `{ChessLaws Chess}.

(** C1: [evaluate] starts with the terminal shortcut: a checkmate position
    scores -30000 with white to move and +30000 with black to move, and,
    the checkmate test having failed, a stalemate, insufficient-material or
    threefold-repetition position scores 0, whatever the mobility flag. *)
Theorem evaluate_terminal (c : Chess) (skipMobility : bool) :
  (in_checkmate c = true ->
   evaluate c skipMobility
   = match turn c with White => (-30000)%Q | Black => 30000%Q end)
  /\ (in_checkmate c = false ->
      in_stalemate c = true \/ insufficient_material c = true
      \/ in_threefold_repetition c = true ->
      evaluate c skipMobility = 0%Q).
Proof.
  unfold evaluate, evaluateObs, observe. simpl. split.
  - intros ->. reflexivity.
  - intros -> [Hs | [Hi | Ht]].
    + rewrite Hs. by rewrite orb_true_r.
    + by rewrite (insufficient_material_in_draw c Hi).
    + rewrite Ht. by rewrite !orb_true_r.
Qed.
End Terminal.

Lemma evaluate_terminal_witness :
  @evaluate Game Book.lib (mkGame Book.checkmate []) false = 30000%Q
  /\ @evaluate Game Book.lib (mkGame Book.stalemate []) false = 0%Q.
Proof.
  split.
  - apply (@evaluate_terminal Game Book.lib (excerpt_laws Book.book)
             (mkGame Book.checkmate []) false).
    reflexivity.
  - apply (@evaluate_terminal Game Book.lib (excerpt_laws Book.book)
             (mkGame Book.stalemate []) false).
    + reflexivity.
    + left. reflexivity.
Defined.

(** ** Sorting keeps the elements *)

Lemma insertDesc_Permutation {A} (key : A -> Q) x l :
  Permutation (insertDesc key x l) (x :: l).
Proof.
  induction l as [|y l IH]; simpl; [done|].
  destruct (Js.gtb (key y) (key x)); [|done].
  rewrite IH. apply Permutation_swap.
Qed.

Lemma sortDesc_Permutation {A} (key : A -> Q) l :
  Permutation (sortDesc key l) l.
Proof.
  induction l as [|x l IH]; simpl; [done|].
  rewrite insertDesc_Permutation. by constructor.
Qed.

Lemma sortDesc_In {A} (key : A -> Q) l x : In x (sortDesc key l) -> In x l.
Proof.
  intros Hin. eapply Permutation_in; [apply sortDesc_Permutation|done].
Qed.

(** ** Quiescence *)

Section QuiescenceFacts.
Context {Chess : Type} `{ChessLib Chess}.

Lemma qsLoop_ext rec1 rec2 maximizing stand mvs :
  (forall c a b m st, rec1 c a b m st = rec2 c a b m st) ->
  forall c alpha beta st,
    qsLoop rec1 maximizing stand mvs c alpha beta st
    = qsLoop rec2 maximizing stand mvs c alpha beta st.
Proof.
  intros Hrec. induction mvs as [|m rest IH]; intros c alpha beta st; simpl; [done|].
  destruct (deltaPruned stand maximizing alpha beta m); [apply IH|].
  rewrite Hrec.
  destruct (rec2 (move c m) alpha beta (negb maximizing) st) as [[[score c1] st1]|];
    simpl; [|done].
  destruct maximizing.
  - destruct (Js.geb _ beta); [done|apply IH].
  - destruct (Js.geb alpha _); [done|apply IH].
Qed.

Lemma quiescenceWith_ext ev1 ev2 :
  (forall c, ev1 c true = ev2 c true) ->
  forall fuel c alpha beta maximizing st,
    quiescenceWith ev1 fuel c alpha beta maximizing st
    = quiescenceWith ev2 fuel c alpha beta maximizing st.
Proof.
  intros Hev. induction fuel as [|n IH]; intros c alpha beta maximizing st; simpl; [done|].
  assert (Hsp : qsStandPat ev1 c alpha beta maximizing
                = qsStandPat ev2 c alpha beta maximizing).
  { unfold qsStandPat. by rewrite Hev. }
  rewrite Hsp. destruct (qsStandPat ev2 c alpha beta maximizing) as [v|stand a b]; [done|].
  destruct (in_check c && bool_decide (moves c = [])); [done|].
  by rewrite (qsLoop_ext _ _ _ _ _ IH).
Qed.

(** C6: in check, quiescence takes no stand-pat (the loop starts from the
    caller's window, with no static score) and its candidates are all the
    legal moves; in check with no legal move it returns -30000 for the
    maximizing side and +30000 for the minimizing side; and the evaluator
    is only ever called with the mobility flag set, a call whose result
    does not depend on the mobility counts. *)
Theorem quiescence_contract (c : Chess) (alpha beta : Q) (maximizing : bool)
    (st : Search) :
  (in_check c = true ->
     (forall ev, qsStandPat ev c alpha beta maximizing = Continue None alpha beta)
     /\ Permutation (qsCandidates c) (moves c)
     /\ (moves c <> [] ->
         forall ev n,
           quiescenceWith ev (S n) c alpha beta maximizing st
           = '(a, b, c', st') ←
               qsLoop (quiescenceWith ev n) maximizing None (qsCandidates c)
                      c alpha beta (bumpNodes st);
             Some (if maximizing then a else b, c', st'))
     /\ (moves c = [] ->
         forall n,
           quiescence (S n) c alpha beta maximizing st
           = Some ((if maximizing then -30000 else 30000)%Q, c, bumpNodes st)))
  /\ (forall ev1 ev2,
        (forall c', ev1 c' true = ev2 c' true) ->
        forall fuel,
          quiescenceWith ev1 fuel c alpha beta maximizing st
          = quiescenceWith ev2 fuel c alpha beta maximizing st)
  /\ (forall fuel,
        quiescence fuel c alpha beta maximizing st
        = quiescenceWith (fun c' _ => evaluate c' true) fuel c alpha beta
                         maximizing st)
  /\ (forall (o : EvalObs) (toMoveCount oppCount : nat),
        evaluateObs (setMobility o toMoveCount oppCount) true = evaluateObs o true).
Proof.
  split; [|split; [|split]].
  - intros Hchk.
    assert (Hsp : forall ev, qsStandPat ev c alpha beta maximizing
                             = Continue None alpha beta).
    { intros ev. unfold qsStandPat. by rewrite Hchk. }
    split; [done|]. split.
    { unfold qsCandidates. rewrite Hchk. apply sortDesc_Permutation. }
    split.
    + intros Hne ev n. simpl. rewrite Hsp, Hchk. simpl.
      rewrite bool_decide_eq_false_2 by done. reflexivity.
    + intros Hnil n. unfold quiescence. simpl. rewrite Hsp, Hchk. simpl.
      rewrite bool_decide_eq_true_2 by done. reflexivity.
  - intros ev1 ev2 Hev fuel. by apply quiescenceWith_ext.
  - intros fuel. unfold quiescence. by apply quiescenceWith_ext.
  - intros o n m. reflexivity.
Qed.
End QuiescenceFacts.

Lemma quiescence_contract_witness :
  @quiescence Game Book.lib 1 (mkGame Book.checkmate []) (- INFINITY) INFINITY true
              Book.emptySearch
  = Some ((-30000)%Q, mkGame Book.checkmate [], bumpNodes Book.emptySearch).
Proof.
  apply (@quiescence_contract Game Book.lib (mkGame Book.checkmate [])
           (- INFINITY) INFINITY true Book.emptySearch); reflexivity.
Defined.

(** ** Iterative deepening *)

Section DeepeningFacts.
Context {State : Type}.
Variable search : nat -> Q -> Q -> State -> option (Q * State).



End DeepeningFacts.


(** ** Every move made by the search is taken back *)

Section Restore.
Context {Chess : Type} `{ChessLaws Chess}.

Lemma qsLoop_restores rec maximizing stand mvs :
  QsRestores rec ->
  forall c alpha beta st a b c' st',
    (forall m, In m mvs -> In m (moves c)) ->
    qsLoop rec maximizing stand mvs c alpha beta st = Some (a, b, c', st') ->
    c' = c.
Proof.
  intros Hrec. induction mvs as [|m rest IH]; intros c alpha beta st a b c' st' Hin; simpl.
  - by intros [= _ _ <- _].
  - assert (Hrest : forall m', In m' rest -> In m' (moves c)) by (intros; apply Hin; by right).
    destruct (deltaPruned stand maximizing alpha beta m); [by apply IH|].
    destruct (rec (move c m) alpha beta (negb maximizing) st) as [[[score c1] st1]|] eqn:E;
      cbn [mbind option_bind]; [|done].
    apply Hrec in E. subst c1. rewrite (undo_move c m) by (apply Hin; by left).
    destruct maximizing.
    + destruct (Js.geb _ beta); [by intros [= _ _ <- _]|by apply IH].
    + destruct (Js.geb alpha _); [by intros [= _ _ <- _]|by apply IH].
Qed.

Lemma qsCandidates_legal c m : In m (qsCandidates c) -> In m (moves c).
Proof.
  unfold qsCandidates. intros Hin. apply sortDesc_In in Hin.
  destruct (in_check c); [done|]. apply filter_In in Hin. tauto.
Qed.

Lemma quiescenceWith_restores ev fuel : QsRestores (quiescenceWith ev fuel).
Proof.
  induction fuel as [|n IH]; intros c a b m st s c' st'; simpl; [done|].
  destruct (qsStandPat ev c a b m) as [v|stand a' b']; [by intros [= _ <- _]|].
  destruct (in_check c && bool_decide (moves c = [])); [by intros [= _ <- _]|].
  destruct (qsLoop _ _ _ _ _ _ _ _) as [[[[a1 b1] c1] st1]|] eqn:E;
    cbn [mbind option_bind]; [|done].
  intros [= _ <- _].
  eapply qsLoop_restores; [exact IH| |exact E]. apply qsCandidates_legal.
Qed.

Lemma searchMove_restores rec depth maximizing inCheckNow ply mi m L :
  AbRestores rec ->
  forall c st s c' st',
    searchMove rec depth maximizing inCheckNow ply mi m L c st = Some (s, c', st') ->
    c' = c.
Proof.
  intros Hrec c st s c' st'. unfold searchMove.
  destruct (negb (l_searchedFirst L)); [apply Hrec|].
  destruct (rec c _ _ _ _ _ st) as [[[score c1] st1]|] eqn:E;
    cbn [mbind option_bind]; [|done].
  apply Hrec in E. subst c1.
  destruct (_ && _); [apply Hrec|by intros [= _ <- _]].
Qed.

Lemma indexed_In {A} (l : list A) i mi (x : A) : In (mi, x) (indexed i l) -> In x l.
Proof.
  revert i. induction l as [|y l IH]; intros i; simpl; [done|].
  intros [[= _ ->]|Hin]; [by left|right; eauto].
Qed.

Lemma abLoop_restores rec depth maximizing inCheckNow staticEval prevMoveKey ply mvs :
  AbRestores rec ->
  forall L c st L' c' st',
    (forall mi m, In (mi, m) mvs -> In m (moves c)) ->
    abLoop rec depth maximizing inCheckNow staticEval prevMoveKey ply mvs L c st
    = Some (L', c', st') ->
    c' = c.
Proof.
  intros Hrec. induction mvs as [|[mi m] rest IH]; intros L c st L' c' st' Hin; simpl.
  - by intros [= _ <- _].
  - assert (Hrest : forall mi' m', In (mi', m') rest -> In m' (moves c))
      by (intros mi' m' Hr; apply (Hin mi' m'); by right).
    destruct (futilityPruned _ _ _ _ _ _); [by apply IH|].
    destruct (_ && (_ <? _)%nat); [by apply IH|].
    destruct (searchMove _ _ _ _ _ _ _ _ _ _) as [[[score c2] st2]|] eqn:E;
      cbn [mbind option_bind]; [|done].
    eapply searchMove_restores in E; [|exact Hrec]. subst c2.
    rewrite (undo_move c m) by (apply (Hin mi m); by left).
    destruct (Js.geb _ _); [by intros [= _ <- _]|by apply IH].
Qed.

Lemma razoring_restores qs c depth alpha maximizing inCheckNow st se rr c' st' :
  QsRestores qs ->
  razoring qs c depth alpha maximizing inCheckNow st = Some (se, rr, c', st') ->
  c' = c.
Proof.
  intros Hqs. unfold razoring.
  destruct (negb inCheckNow && _); [|by intros [= _ _ <- _]].
  destruct (_ && Js.ltb _ _); [|by intros [= _ _ <- _]].
  destruct (qs c _ _ _ st) as [[[q c1] st1]|] eqn:E; cbn [mbind option_bind]; [|done].
  apply Hqs in E. subst c1.
  destruct (Js.ltb q alpha); by intros [= _ _ <- _].
Qed.

Lemma orderMoves_legal mvs ply prevMoveKey ttMove st mi m :
  In (mi, m) (indexed 0 (orderMoves mvs ply prevMoveKey ttMove st)) -> In m mvs.
Proof.
  intros Hin. apply indexed_In in Hin. by apply sortDesc_In in Hin.
Qed.

Lemma alphaBeta_restores fuel : AbRestores (alphaBeta fuel).
Proof.
  induction fuel as [|n IH]; intros c d a b m p st s c' st'; simpl; [done|].
  destruct (Js.geb _ _); [by intros [= _ <- _]|].
  destruct (ttGet _ _ _ _ _); [by intros [= _ <- _]|].
  destruct (d =? 0)%nat; [apply quiescenceWith_restores|].
  destruct (game_over c); [by intros [= _ <- _]|].
  destruct (bool_decide (moves c = [])); [by intros [= _ <- _]|].
  destruct (nullMove _ _ _ _ _ _ _ _ _) as [[nullRet st1]|];
    cbn [mbind option_bind]; [|done].
  destruct nullRet; [by intros [= _ <- _]|].
  destruct (razoring _ _ _ _ _ _ _) as [[[[se rr] c1] st2]|] eqn:Er;
    cbn [mbind option_bind]; [|done].
  apply razoring_restores in Er; [|apply quiescenceWith_restores]. subst c1.
  destruct rr; [by intros [= _ <- _]|].
  destruct (abLoop _ _ _ _ _ _ _ _ _ _ _) as [[[L c2] st3]|] eqn:El;
    cbn [mbind option_bind]; [|done].
  intros [= _ <- _].
  eapply abLoop_restores; [exact IH| |exact El].
  intros mi mv. apply orderMoves_legal.
Qed.

Lemma aspirate_fst {S} (search : nat -> Q -> Q -> Chess * S -> option (Q * (Chess * S))) :
  (forall d lo hi cs s cs', search d lo hi cs = Some (s, cs') -> fst cs' = fst cs) ->
  forall d prev cs s cs', aspirate search d prev cs = Some (s, cs') -> fst cs' = fst cs.
Proof.
  intros Hs d prev cs s cs'. unfold aspirate.
  destruct (1 <? d)%nat; [|apply Hs].
  destruct (search _ _ _ cs) as [[s1 cs1]|] eqn:E1; cbn [mbind option_bind]; [|done].
  apply Hs in E1.
  destruct (failsWindow s1 _ _); [|intros [= _ <-]; done].
  destruct (search _ _ _ cs1) as [[s2 cs2]|] eqn:E2; cbn [mbind option_bind]; [|done].
  apply Hs in E2.
  destruct (failsWindow s2 _ _); [|intros [= _ <-]; congruence].
  intros E3. apply Hs in E3. congruence.
Qed.

Lemma deepen_fst {S} (search : nat -> Q -> Q -> Chess * S -> option (Q * (Chess * S))) :
  (forall d lo hi cs s cs', search d lo hi cs = Some (s, cs') -> fst cs' = fst cs) ->
  forall k from score prev cs r cs',
    deepen search k from score prev cs = Some (r, cs') -> fst cs' = fst cs.
Proof.
  intros Hs k. induction k as [|k IH]; intros from score prev cs r cs'; simpl.
  - by intros [= _ <-].
  - destruct (aspirate search from prev cs) as [[s cs1]|] eqn:Ea;
      cbn [mbind option_bind]; [|done].
    apply (aspirate_fst _ Hs) in Ea.
    destruct (isMateScore s); [intros [= _ <-]; done|].
    intros Hd. apply IH in Hd. congruence.
Qed.

Lemma rootSearch_fst fuel max d lo hi cs s cs' :
  rootSearch fuel max d lo hi cs = Some (s, cs') -> fst cs' = fst cs.
Proof.
  unfold rootSearch.
  destruct (alphaBeta _ _ _ _ _ _ _ _) as [[[s1 c1] st1]|] eqn:E;
    cbn [mbind option_bind]; [|done].
  apply alphaBeta_restores in E. intros [= _ <-]. done.
Qed.

Lemma rootLoop_restores fuel max depth mvs :
  forall c st results results' c' st',
    (forall m, In m mvs -> In m (moves c)) ->
    rootLoop fuel max depth mvs c st results = Some (results', c', st') ->
    c' = c.
Proof.
  induction mvs as [|m rest IH]; intros c st results results' c' st' Hin; simpl.
  - by intros [= _ <- _].
  - destruct (rootMoveScore _ _ _ _) as [[score cs]|] eqn:E;
      cbn [mbind option_bind]; [|done].
    apply (deepen_fst _ (rootSearch_fst fuel max)) in E. simpl in E. rewrite E.
    rewrite (undo_move c m) by (apply Hin; by left).
    apply IH. intros; apply Hin; by right.
Qed.

(** C9: when [searchRoot] returns, the position object is the one
    [new Chess(fen)] built, so its FEN is the FEN it had when constructed;
    and so it is for every call of [alphaBeta] and of [quiescence]: each
    [chess.move] they make is undone before they return. *)
Theorem search_restores_position (fuel : nat) :
  (forall f depth multiPV st lines c' st',
      searchRoot fuel f depth multiPV st = Some (Returned lines c' st') ->
      exists c0, load f = Some c0 /\ c' = c0 /\ fen c' = fen c0)
  /\ (forall c depth alpha beta maximizing ply st s c' st',
        alphaBeta fuel c depth alpha beta maximizing ply st = Some (s, c', st') ->
        c' = c)
  /\ (forall c alpha beta maximizing st s c' st',
        quiescence fuel c alpha beta maximizing st = Some (s, c', st') ->
        c' = c).
Proof.
  split; [|split].
  - intros f depth multiPV st lines c' st'. unfold searchRoot.
    destruct (load f) as [c0|]; [|done].
    destruct (bool_decide (moves c0 = [])).
    + intros [= _ <- _]. eauto.
    + destruct (rootLoop _ _ _ _ _ _ _) as [[[results c1] st1]|] eqn:E;
        cbn [mbind option_bind]; [|done].
      apply rootLoop_restores in E; [|done]. subst c1.
      intros [= _ <- _]. eauto.
  - apply alphaBeta_restores.
  - apply quiescenceWith_restores.
Qed.
End Restore.

Lemma search_restores_position_witness :
  exists lines c' st',
    @searchRoot Game Book.lib 10 Book.blackToMoveFen 1 3 Book.emptySearch
    = Some (Returned lines c' st')
    /\ @fen Game Book.lib c' = Book.blackToMoveFen.
Proof.
  destruct (@searchRoot Game Book.lib 10 Book.blackToMoveFen 1 3 Book.emptySearch)
    as [[|lines c' st']|] eqn:E.
  - vm_compute in E. discriminate.
  - exists lines, c', st'. split; [reflexivity|].
    destruct (@search_restores_position Game Book.lib (excerpt_laws Book.book) 10)
      as [Hroot _].
    destruct (Hroot _ _ _ _ _ _ _ E) as (c0 & Hload & -> & _).
    vm_compute in Hload. injection Hload as <-. reflexivity.
  - vm_compute in E. discriminate.
Defined.

(** ** The score of a returned line *)

Section RootLines.
Context {Chess : Type} `{ChessLaws Chess}.

Lemma take_In {A} (n : nat) (l : list A) (x : A) : In x (take n l) -> In x l.
Proof.
  intros Hin. apply list_elem_of_In. apply (subseteq_take n l).
  by apply list_elem_of_In.
Qed.

Lemma rootLoop_lines fuel max depth mvs :
  forall c st results results' c' st',
    (forall m, In m mvs -> In m (moves c)) ->
    rootLoop fuel max depth mvs c st results = Some (results', c', st') ->
    forall ln, In ln results' ->
      In ln results
      \/ exists stA s csB,
           In (ln_move ln) mvs
           /\ rootMoveScore fuel max depth (move c (ln_move ln), stA) = Some (s, csB)
           /\ ln_score ln = if max then s else (- s)%Q.
Proof.
  induction mvs as [|m rest IH]; intros c st results results' c' st' Hin; simpl.
  - intros [= <- _ _] ln Hln. by left.
  - destruct (rootMoveScore fuel max depth (move c m, st)) as [[score cs]|] eqn:E;
      cbn [mbind option_bind]; [|done].
    pose proof (deepen_fst _ (rootSearch_fst fuel max) _ _ _ _ _ _ _ E) as Hfst.
    simpl in Hfst. rewrite Hfst.
    rewrite (undo_move c m) by (apply Hin; by left).
    intros Hloop ln Hln.
    destruct (IH _ _ _ _ _ _ (fun m' Hm' => Hin m' (or_intror Hm')) Hloop ln Hln)
      as [Hold | (stA & s & csB & Hm & Hs & Hsc)].
    + apply in_app_or in Hold. destruct Hold as [Hold | [<- | []]]; [by left|].
      right. exists st, score, cs. simpl. split; [by left|]. by split.
    + right. exists stA, s, csB. split; [by right|]. by split.
Qed.

(** C2 (amended): every line [searchRoot] returns belongs to a legal root
    move and carries that move's deepening score [s], the white-positive
    search value of the position after the move, as it is when white is to
    move at the root and negated when black is: the score is from the root
    side's point of view. *)
Theorem line_score_root_perspective (fuel : nat) (f : string) (depth multiPV : nat)
    (st : Search) (lines : list Line) (c' : Chess) (st' : Search) :
  searchRoot fuel f depth multiPV st = Some (Returned lines c' st') ->
  forall ln, In ln lines ->
    exists c0 stA s csB,
      load f = Some c0
      /\ In (ln_move ln) (moves c0)
      /\ rootMoveScore fuel (bool_decide (turn c0 = White)) depth
                       (move c0 (ln_move ln), stA) = Some (s, csB)
      /\ ln_score ln = match turn c0 with White => s | Black => (- s)%Q end.
Proof.
  unfold searchRoot. destruct (load f) as [c0|]; [|done].
  destruct (bool_decide (moves c0 = [])); [by intros [= <- _ _] ln []|].
  destruct (rootLoop _ _ _ _ _ _ _) as [[[results c1] st1]|] eqn:E;
    cbn [mbind option_bind]; [|done].
  intros [= <- _ _] ln Hln.
  apply take_In, sortDesc_In in Hln.
  destruct (rootLoop_lines _ _ _ _ _ _ _ _ _ _ (fun m Hm => Hm) E ln Hln)
    as [[] | (stA & s & csB & Hm & Hs & Hsc)].
  exists c0, stA, s, csB. split; [done|]. split; [done|]. split; [done|].
  rewrite Hsc. destruct (turn c0); reflexivity.
Qed.
End RootLines.

Lemma line_score_root_perspective_witness :
  exists lines c' st',
    @searchRoot Game Book.lib 10 Book.blackToMoveFen 1 3 Book.emptySearch
    = Some (Returned lines c' st')
    /\ forall ln, In ln lines ->
         exists s, ln_score ln = (- s)%Q
                   /\ In (ln_move ln) [Book.m_Kh7; Book.m_Kg7; Book.m_Kg8].
Proof.
  destruct (@searchRoot Game Book.lib 10 Book.blackToMoveFen 1 3 Book.emptySearch)
    as [[|lines c' st']|] eqn:E.
  - vm_compute in E. discriminate.
  - exists lines, c', st'. split; [reflexivity|]. intros ln Hln.
    destruct (@line_score_root_perspective Game Book.lib (excerpt_laws Book.book)
                _ _ _ _ _ _ _ _ E ln Hln)
      as (c0 & stA & s & csB & Hload & Hm & _ & Hsc).
    vm_compute in Hload. injection Hload as <-.
    exists s. split; [exact Hsc | exact Hm].
  - vm_compute in E. discriminate.
Defined.

(** C2 as stated fails with black to move: in [7k/8/8/8/8/8/P7/1K6 b - - 1 1]
    searched to depth 1, the line of [Kh7] has a negative score although the
    position after it, white a pawn up and to move, has the positive
    white-positive search score [s]; the line carries [-s]. *)
Lemma black_root_line_is_negated :
  exists lines c' st' s cs,
    @searchRoot Game Book.lib 10 Book.blackToMoveFen 1 3 Book.emptySearch
    = Some (Returned lines c' st')
    /\ @rootMoveScore Game Book.lib 10 false 1
         (@move Game Book.lib (mkGame Book.afterKb1Root []) Book.m_Kh7,
          resetForRoot Book.emptySearch) = Some (s, cs)
    /\ (0 < s)%Q
    /\ s = @evaluate Game Book.lib
             (@move Game Book.lib (mkGame Book.afterKb1Root []) Book.m_Kh7) true
    /\ In (mkLine Book.m_Kh7 (- s)) lines
    /\ ~ ((0 < - s)%Q <-> (0 < s)%Q).
Proof.
  eexists _, _, _, _, _.
  split; [vm_compute; reflexivity|].
  split; [vm_compute; reflexivity|].
  split; [vm_compute; reflexivity|].
  split; [vm_compute; reflexivity|].
  split.
  - vm_compute. right. right. left. reflexivity.
  - vm_compute. intros [_ Hc]. specialize (Hc eq_refl). discriminate.
Qed.

(** ** The plan generator *)

Section PlanFacts.
Context {Chess : Type} `{ChessLaws Chess}.

Lemma level2_spec maxPlans maxDepth rm (c : Chess) replies :
  forall tasks id,
    (forall rp, In rp replies -> In rp (moves c)) ->
    exists n,
      (n <= length replies)%nat
      /\ level2 maxPlans maxDepth rm replies c tasks id
         = (tasks ++ imap (fun i rp => l2Task maxDepth c rm (id + i) rp) (take n replies),
            (id + n)%nat, c)
      /\ (length tasks + n <= Nat.max maxPlans (length tasks))%nat.
Proof.
  induction replies as [|rp rest IH]; intros tasks id Hin; simpl.
  - exists 0%nat. rewrite app_nil_r, Nat.add_0_r. split; [done|]. split; [done|lia].
  - destruct (maxPlans <=? length tasks)%nat eqn:Hfull.
    + exists 0%nat. simpl. rewrite app_nil_r, Nat.add_0_r.
      split; [lia|]. split; [done|lia].
    + apply Nat.leb_gt in Hfull.
      rewrite (undo_move c rp) by (apply Hin; by left).
      destruct (IH (tasks ++ [mkTask (fen (move c rp)) (Nat.max 1 (maxDepth - 2)) 1
                                     ("l2-" +:+ pretty id) (Some (m_san rm))
                                     [m_san rm; m_san rp]]) (S id)
                   (fun rp' Hrp' => Hin rp' (or_intror Hrp')))
        as (n & Hn & Heq & Hlen).
      exists (S n). split; [lia|]. split.
      * assert (Himap :
          imap (fun i rp0 => l2Task maxDepth c rm (id + i) rp0) (rp :: take n rest)
          = l2Task maxDepth c rm id rp
            :: imap (fun i rp0 => l2Task maxDepth c rm (S id + i) rp0) (take n rest)).
        { simpl. rewrite Nat.add_0_r. f_equal.
          apply imap_ext. intros i x _. simpl. f_equal. lia. }
        rewrite Heq. change (take (S n) (rp :: rest)) with (rp :: take n rest).
        rewrite Himap. rewrite <- app_assoc.
        replace (id + S n)%nat with (S id + n)%nat by lia. reflexivity.
      * rewrite length_app in Hlen. simpl in Hlen. lia.
Qed.

Lemma sumReplies_cons (c : Chess) rm rest :
  sumReplies c (rm :: rest) = (length (moves (move c rm)) + sumReplies c rest)%nat.
Proof. reflexivity. Qed.

Lemma level1_cons maxPlans maxDepth k (c : Chess) rm rest tasks id :
  level1 maxPlans maxDepth k (rm :: rest) c tasks id
  = if (maxPlans <=? length tasks)%nat then tasks
    else
      let r := level2 maxPlans maxDepth rm
                 (take (replyShare maxPlans
                          (length (tasks ++ [l1Task maxDepth c rm id])) k)
                       (moves (move c rm)))
                 (move c rm) (tasks ++ [l1Task maxDepth c rm id]) (S id) in
      level1 maxPlans maxDepth k rest (undo (snd r)) (fst (fst r)) (snd (fst r)).
Proof.
  cbn [level1]. destruct (maxPlans <=? length tasks)%nat; [done|].
  unfold l1Task. cbv zeta.
  match goal with |- context [level2 ?a ?b ?c ?d ?e ?f ?g] =>
    destruct (level2 a b c d e f g) as [[? ?] ?] end.
  reflexivity.
Qed.

Lemma level1_spec maxPlans maxDepth k (c : Chess) mvs :
  forall tasks id,
    (forall m, In m mvs -> In m (moves c)) ->
    exists new,
      level1 maxPlans maxDepth k mvs c tasks id = tasks ++ new
      /\ PlanBlocks maxDepth c mvs id new
      /\ (length tasks + length new <= Nat.max maxPlans (length tasks))%nat
      /\ (length new <= length mvs + sumReplies c mvs)%nat.
Proof.
  induction mvs as [|rm rest IH]; intros tasks id Hin.
  - exists []. simpl. rewrite app_nil_r. split; [done|]. split; [constructor|].
    simpl. lia.
  - rewrite level1_cons. destruct (maxPlans <=? length tasks)%nat eqn:Hfull.
    + exists []. rewrite app_nil_r. split; [done|]. split; [constructor|].
      simpl. lia.
    + apply Nat.leb_gt in Hfull. cbv zeta.
      set (c1 := move c rm).
      set (t1 := l1Task maxDepth c rm id).
      set (share := replyShare maxPlans (length (tasks ++ [t1])) k).
      destruct (level2_spec maxPlans maxDepth rm c1 (take share (moves c1))
                  (tasks ++ [t1]) (S id)) as (n & Hn & Heq & Hlen).
      { intros rp Hrp. by apply take_In in Hrp. }
      rewrite Heq. cbn [fst snd].
      replace (undo c1) with c
        by (symmetry; apply undo_move; apply Hin; by left).
      destruct (IH ((tasks ++ [t1]) ++
                    imap (fun i rp => l2Task maxDepth c1 rm (S id + i) rp)
                         (take n (take share (moves c1))))
                   (S id + n)%nat (fun m' Hm' => Hin m' (or_intror Hm')))
        as (new & Hnew & Hblocks & Hlen' & Hsum).
      rewrite Hnew.
      rewrite take_take in *.
      assert (Hns : Nat.min n share = n) by (rewrite length_take in Hn; lia).
      rewrite Hns in *.
      assert (Hle : (n <= length (moves c1))%nat).
      { rewrite length_take in Hn. lia. }
      exists (blockOf maxDepth c rm n id ++ new).
      split.
      { unfold blockOf. fold c1 t1. rewrite <- !app_assoc. reflexivity. }
      split; [by apply PlanBlock|].
      unfold blockOf. fold c1 t1.
      rewrite !length_app in *. simpl length in *.
      rewrite ?length_imap, ?length_take in *.
      rewrite sumReplies_cons. fold c1. split; lia.
Qed.

Lemma generate_blocks (f : string) (maxPlans maxDepth : nat) (c : Chess)
    (tasks : list Task) :
  load f = Some c ->
  generate f maxPlans maxDepth = Some tasks ->
  tasks = []
  \/ exists rest,
       tasks = rootTask f maxDepth (length (moves c)) :: rest
       /\ PlanBlocks maxDepth c (moves c) 1 rest.
Proof.
  intros Hload. unfold generate. rewrite Hload. cbn [mbind option_bind].
  destruct (bool_decide (moves c = [])).
  - intros Hg. left. congruence.
  - intros Hg. pose proof (f_equal (default []) Hg) as Ht.
    cbv [default from_option id] in Ht. subst tasks. right.
    destruct (level1_spec maxPlans maxDepth (length (moves c)) c (moves c)
                [mkTask f maxDepth (Nat.min 8 (length (moves c))) "root" None []] 1
                (fun m Hm => Hm))
      as (new & Hnew & Hblocks & _).
    exists new. by rewrite Hnew.
Qed.

Lemma level2_exact maxPlans maxDepth rm (c : Chess) replies :
  forall tasks id,
    (forall rp, In rp replies -> In rp (moves c)) ->
    level2 maxPlans maxDepth rm replies c tasks id
    = (tasks ++ imap (fun i rp => l2Task maxDepth c rm (id + i) rp)
                     (take (Nat.min (length replies) (maxPlans - length tasks)) replies),
       (id + Nat.min (length replies) (maxPlans - length tasks))%nat, c).
Proof.
  induction replies as [|rp rest IH]; intros tasks id Hin; simpl.
  - by rewrite app_nil_r, Nat.add_0_r.
  - destruct (maxPlans <=? length tasks)%nat eqn:Hfull.
    + apply Nat.leb_le in Hfull.
      replace (maxPlans - length tasks)%nat with 0%nat by lia.
      simpl. by rewrite app_nil_r, Nat.add_0_r.
    + apply Nat.leb_gt in Hfull.
      rewrite (undo_move c rp) by (apply Hin; by left).
      rewrite IH by (intros rp' Hrp'; apply Hin; by right).
      rewrite length_app. simpl.
      replace (maxPlans - length tasks)%nat
        with (S (maxPlans - (length tasks + 1)))%nat by lia.
      set (n := Nat.min (length rest) (maxPlans - (length tasks + 1))).
      change (take (S n) (rp :: rest)) with (rp :: take n rest).
      assert (Himap :
        imap (fun i rp0 => l2Task maxDepth c rm (id + i) rp0) (rp :: take n rest)
        = l2Task maxDepth c rm id rp
          :: imap (fun i rp0 => l2Task maxDepth c rm (S id + i) rp0) (take n rest)).
      { simpl. rewrite Nat.add_0_r. f_equal.
        apply imap_ext. intros i x _. simpl. f_equal. lia. }
      rewrite Himap, <- app_assoc.
      replace (id + S n)%nat with (S id + n)%nat by lia. reflexivity.
Qed.

Lemma level1_exact maxPlans maxDepth k (c : Chess) mvs :
  forall tasks id,
    (forall m, In m mvs -> In m (moves c)) ->
    level1 maxPlans maxDepth k mvs c tasks id
    = tasks ++ planTasks maxPlans k maxDepth c mvs id (length tasks).
Proof.
  induction mvs as [|rm rest IH]; intros tasks id Hin.
  - simpl. by rewrite app_nil_r.
  - rewrite level1_cons. cbn [planTasks].
    destruct (maxPlans <=? length tasks)%nat; [by rewrite app_nil_r|].
    cbv zeta.
    rewrite level2_exact by (intros rp Hrp; by apply take_In in Hrp).
    cbn [fst snd]. rewrite (undo_move c rm) by (apply Hin; by left).
    rewrite IH by (intros m Hm; apply Hin; by right).
    assert (HL : length (tasks ++ [l1Task maxDepth c rm id]) = S (length tasks))
      by (rewrite length_app; simpl; lia).
    rewrite !HL, !length_take.
    change (Nat.min (Nat.min (replyShare maxPlans (S (length tasks)) k)
                             (length (moves (move c rm))))
                    (maxPlans - S (length tasks)))
      with (blockSize maxPlans k (length tasks) (length (moves (move c rm)))).
    set (n := blockSize maxPlans k (length tasks) (length (moves (move c rm)))).
    assert (Hn1 : (n <= replyShare maxPlans (S (length tasks)) k)%nat)
      by (subst n; unfold blockSize; lia).
    assert (Hn2 : (n <= length (moves (move c rm)))%nat)
      by (subst n; unfold blockSize; lia).
    rewrite take_take, (Nat.min_l _ _ Hn1).
    rewrite length_app, HL, length_imap, length_take, (Nat.min_l _ _ Hn2).
    unfold blockOf. rewrite <- !app_assoc. reflexivity.
Qed.

(** C7 (amended): for a position with at least one legal move the
    generator emits the root task first and then the list [planTasks]: for
    the root moves in enumeration order, as long as fewer than [maxPlans]
    tasks are emitted, each move's level-1 task directly followed by the
    level-2 tasks of its first [blockSize] replies (the least of the fair
    share [ceil((maxPlans - emitted) / k)], the number of replies, and the
    budget left), the task numbers running on from 1; when [maxPlans >= 1]
    this is at most [min(maxPlans, 1 + k + sum of replies)] tasks, and
    possibly fewer; for a position without legal moves it emits none. *)
Theorem generate_contract (f : string) (maxPlans maxDepth : nat) (c : Chess)
    (tasks : list Task) :
  load f = Some c ->
  generate f maxPlans maxDepth = Some tasks ->
  (moves c = [] -> tasks = [])
  /\ (moves c <> [] ->
      exists rest,
        tasks = rootTask f maxDepth (length (moves c)) :: rest
        /\ rest = planTasks maxPlans (length (moves c)) maxDepth c (moves c) 1 1
        /\ PlanBlocks maxDepth c (moves c) 1 rest
        /\ ((1 <= maxPlans)%nat ->
            (length tasks
             <= Nat.min maxPlans (1 + length (moves c) + sumReplies c (moves c)))%nat)).
Proof.
  intros Hload. unfold generate. rewrite Hload. cbn [mbind option_bind].
  destruct (bool_decide (moves c = [])) eqn:Hnil.
  - apply bool_decide_eq_true in Hnil. intros [= <-]. split; [done|]. by intros [].
  - apply bool_decide_eq_false in Hnil. intros Hg.
    pose proof (f_equal (default []) Hg) as Ht. cbv [default from_option id] in Ht. subst tasks.
    clear Hg. split; [done|]. intros _.
    destruct (level1_spec maxPlans maxDepth (length (moves c)) c (moves c)
                [mkTask f maxDepth (Nat.min 8 (length (moves c))) "root" None []] 1
                (fun m Hm => Hm))
      as (new & Hnew & Hblocks & Hlen & Hsum).
    pose proof (level1_exact maxPlans maxDepth (length (moves c)) c (moves c)
                  [mkTask f maxDepth (Nat.min 8 (length (moves c))) "root" None []] 1
                  (fun m Hm => Hm)) as Hexact.
    rewrite Hnew in Hexact. apply app_inv_head in Hexact.
    exists new. rewrite Hnew. split; [done|]. split; [exact Hexact|]. split; [done|].
    intros Hmax. simpl in *. lia.
Qed.
End PlanFacts.

Lemma generate_contract_witness :
  exists tasks rest,
    @generate Game Book.lib Book.endgameFen 16 6 = Some tasks
    /\ tasks = rootTask Book.endgameFen 6 4 :: rest
    /\ List.map t_taskId rest
       = ["l1-1"; "l2-2"; "l2-3"; "l2-4"; "l1-5"; "l2-6"; "l2-7"; "l2-8";
          "l1-9"; "l2-10"; "l2-11"; "l1-12"; "l2-13"]
    /\ (length tasks <= 16)%nat.
Proof.
  destruct (@generate Game Book.lib Book.endgameFen 16 6) as [tasks|] eqn:E;
    [|vm_compute in E; discriminate].
  destruct (@generate_contract Game Book.lib (excerpt_laws Book.book)
              Book.endgameFen 16 6 (mkGame Book.endgame []) tasks eq_refl E)
    as [_ Hne].
  destruct Hne as (rest & Ht & Hrest & _ & Hlen); [vm_compute; discriminate|].
  exists tasks, rest. split; [reflexivity|]. split; [exact Ht|].
  split; [rewrite Hrest; vm_compute; reflexivity|].
  specialize (Hlen ltac:(lia)). lia.
Defined.

(** C7 as stated fails.  With 4 root moves of 3 replies each and
    [maxPlans = 16] the generator emits 14 tasks, not [min(16, 1 + 4 + 12)]
    = 16, and level-1 and level-2 tasks alternate by root move; with
    [maxPlans = 0] it still emits the root task; and for a stalemate
    position it emits nothing, not the root task. *)
Lemma generate_misses_plan_count :
  (exists tasks,
      @generate Game Book.lib Book.endgameFen 16 6 = Some tasks
      /\ length tasks = 14%nat
      /\ Nat.min 16 (1 + 4 + @sumReplies Game Book.lib (mkGame Book.endgame [])
                                 (@moves Game Book.lib (mkGame Book.endgame [])))
         = 16%nat
      /\ List.map t_taskId tasks
         = ["root"; "l1-1"; "l2-2"; "l2-3"; "l2-4"; "l1-5"; "l2-6"; "l2-7"; "l2-8";
            "l1-9"; "l2-10"; "l2-11"; "l1-12"; "l2-13"])
  /\ (exists tasks,
        @generate Game Book.lib Book.endgameFen 0 6 = Some tasks
        /\ length tasks = 1%nat)
  /\ @generate Game Book.lib "7k/5Q2/6K1/8/8/8/8/8 b - - 0 1" 16 6 = Some [].
Proof.
  split; [|split].
  - eexists. split; [vm_compute; reflexivity|]. repeat split; vm_compute; reflexivity.
  - eexists. split; [vm_compute; reflexivity|]. reflexivity.
  - vm_compute. reflexivity.
Qed.

(** ** Task identifiers are distinct *)

Lemma prefixed_inj (p : string) (a b : nat) :
  p +:+ pretty a = p +:+ pretty b -> a = b.
Proof.
  induction p as [|ch p IH]; simpl.
  - apply pretty_nat_inj.
  - intros [= Heq]. by apply IH.
Qed.

Lemma planId_neq (a b : nat) s t :
  a <> b ->
  (s = "l1-" +:+ pretty a \/ s = "l2-" +:+ pretty a) ->
  (t = "l1-" +:+ pretty b \/ t = "l2-" +:+ pretty b) ->
  s <> t.
Proof.
  intros Hab [-> | ->] [-> | ->] Heq; try (apply prefixed_inj in Heq; done);
    simpl in Heq; discriminate.
Qed.

Section PlanIds.
Context {Chess : Type} `{ChessLib Chess}.

(** The identifiers of a block list: entry [i] is numbered [id + i]. *)
Lemma PlanBlocks_ids maxDepth (c : Chess) mvs id tasks :
  PlanBlocks maxDepth c mvs id tasks ->
  forall i t, tasks !! i = Some t ->
    t_taskId t = "l1-" +:+ pretty (id + i)%nat
    \/ t_taskId t = "l2-" +:+ pretty (id + i)%nat.
Proof.
  induction 1 as [|rm rest id n tasks Hn Hb IH]; intros i t Hi; [done|].
  unfold blockOf in Hi. destruct i as [|i]; simpl in Hi.
  - injection Hi as <-. left. simpl. by rewrite Nat.add_0_r.
  - destruct (decide (i < n)%nat) as [Hlt|Hge].
    + rewrite lookup_app_l in Hi by (rewrite length_imap, length_take; lia).
      rewrite list_lookup_imap in Hi.
      destruct (take n (moves (move c rm)) !! i) as [rp|]; [|done].
      injection Hi as <-. right. simpl. f_equal. f_equal. lia.
    + rewrite lookup_app_r in Hi by (rewrite length_imap, length_take; lia).
      rewrite length_imap, length_take in Hi.
      replace (Nat.min n (length (moves (move c rm)))) with n in Hi by lia.
      apply IH in Hi.
      replace (id + S i)%nat with (S id + n + (i - n))%nat by lia. exact Hi.
Qed.

Lemma PlanBlocks_NoDup maxDepth (c : Chess) mvs id tasks :
  PlanBlocks maxDepth c mvs id tasks ->
  NoDup (List.map t_taskId tasks) /\ ~ In "root" (List.map t_taskId tasks).
Proof.
  intros Hb. pose proof (PlanBlocks_ids _ _ _ _ _ Hb) as Hid. split.
  - apply NoDup_alt. intros i j s Hi Hj.
    rewrite !list_lookup_fmap in *.
    destruct (tasks !! i) as [ti|] eqn:Ei; [|done].
    destruct (tasks !! j) as [tj|] eqn:Ej; [|done].
    simpl in *. injection Hi as <-. injection Hj as Hj.
    destruct (decide (i = j)) as [|Hne]; [done|]. exfalso.
    eapply (planId_neq (id + i) (id + j)); [lia|by apply Hid|by apply Hid|done].
  - intros Hin. apply in_map_iff in Hin. destruct Hin as (t & Ht & Hin).
    apply list_elem_of_In, list_elem_of_lookup in Hin. destruct Hin as [i Hi].
    destruct (Hid i t Hi) as [Hs|Hs]; rewrite Hs in Ht; simpl in Ht; discriminate.
Qed.
End PlanIds.

Section GenerateIds.
Context {Chess : Type} `{ChessLaws Chess}.

Lemma generate_ids_NoDup f maxPlans maxDepth tasks :
  generate f maxPlans maxDepth = Some tasks -> NoDup (List.map t_taskId tasks).
Proof.
  intros Hg. destruct (load f) as [c|] eqn:Hload.
  - destruct (generate_blocks f maxPlans maxDepth c tasks Hload Hg)
      as [-> | (rest & -> & Hb)].
    + constructor.
    + destruct (PlanBlocks_NoDup _ _ _ _ _ Hb) as [Hnd Hroot].
      simpl. constructor; [|done]. by rewrite list_elem_of_In.
  - unfold generate in Hg. by rewrite Hload in Hg.
Qed.
End GenerateIds.

(** ** The coordinator's emissions *)

Lemma mapSet_fresh {V} (k : string) (v : V) (l : list (string * V)) :
  ~ In k (List.map fst l) -> mapSet k v l = l ++ [(k, v)].
Proof.
  induction l as [|[k' v'] l IH]; simpl; [done|].
  intros Hnin. rewrite bool_decide_eq_false_2 by tauto.
  rewrite IH by tauto. reflexivity.
Qed.

Lemma settle_all (schedule : list (Task * Outcome)) :
  forall co,
    co_running co = true ->
    NoDup (List.map fst (co_results co) ++ List.map (fun ev => t_taskId (fst ev)) schedule) ->
    let co' := fold_left onSettled schedule co in
    co_running co' = true
    /\ co_maxPlans co' = co_maxPlans co
    /\ co_maxDepth co' = co_maxDepth co
    /\ length (co_results co') = (length (co_results co) + resolvedCount schedule)%nat
    /\ exists updates,
         co_emitted co' = co_emitted co ++ updates
         /\ length updates = resolvedCount schedule
         /\ Forall isUpdate updates
         /\ (forall j e, updates !! j = Some e ->
               stats_tasks (em_stats e) = (length (co_results co) + S j)%nat).
Proof.
  induction schedule as [|[t o] rest IH]; intros co Hrun Hnd; simpl fold_left.
  - cbv zeta. unfold resolvedCount. simpl. rewrite Nat.add_0_r.
    repeat split; try done. exists []. rewrite app_nil_r. repeat split; try done; constructor.
  - simpl in Hnd.
    assert (Hfresh : ~ In (t_taskId t) (List.map fst (co_results co))).
    { intros Hin. apply NoDup_app in Hnd. destruct Hnd as (_ & Hdisj & _).
      apply (Hdisj (t_taskId t)); [by apply list_elem_of_In|]. left. }
    destruct o as [result|].
    + unfold onSettled at 2. cbn [snd fst]. rewrite Hrun.
      rewrite (mapSet_fresh _ _ _ Hfresh).
      set (co1 := emit false _).
      destruct (IH co1) as (Hr & Hmp & Hmd & Hlen & updates & Hem & Hul & Hup & Htasks).
      { reflexivity. }
      { subst co1. cbn [emit co_results].
        rewrite map_app. simpl. rewrite <- app_assoc. exact Hnd. }
      cbv zeta. split; [exact Hr|]. split; [by rewrite Hmp|]. split; [by rewrite Hmd|].
      assert (Hrc : resolvedCount ((t, Resolved result) :: rest) = S (resolvedCount rest))
        by reflexivity.
      rewrite Hrc. split.
      { rewrite Hlen. subst co1. cbn [emit co_results]. rewrite length_app. simpl. lia. }
      subst co1. cbn [emit co_results co_emitted co_totalNodes co_maxPlans] in *.
      eexists (_ :: updates). split.
      { rewrite Hem. rewrite <- app_assoc. reflexivity. }
      split; [simpl; by rewrite Hul|]. split.
      { constructor; [reflexivity|exact Hup]. }
      intros [|j] e Hj; simpl in Hj.
      * injection Hj as <-. cbn. rewrite length_app. simpl. lia.
      * rewrite (Htasks j e Hj). rewrite length_app. simpl. lia.
    + unfold onSettled at 2. cbn [snd].
      destruct (IH co) as (Hr & Hmp & Hmd & Hlen & updates & Hem & Hul & Hup & Htasks).
      { exact Hrun. }
      { apply NoDup_app in Hnd. destruct Hnd as (Hn1 & Hdisj & Hn2).
        apply NoDup_app. split; [done|]. split.
        - intros x Hx Hx'. apply (Hdisj x Hx). by right.
        - by apply NoDup_cons in Hn2 as [_ Hn2]. }
      cbv zeta. split; [exact Hr|]. split; [exact Hmp|]. split; [exact Hmd|].
      assert (Hrc : resolvedCount ((t, Rejected) :: rest) = resolvedCount rest)
        by reflexivity.
      rewrite Hrc. split; [exact Hlen|]. exists updates. by repeat split.
Qed.

Section StartFacts.
Context {Chess : Type} `{ChessLaws Chess}.

(** C8 (amended): in a run of [start] in which every generated task settles
    once, [emit] is called once after each task that resolves, these calls
    carry [final = false] and the running count of stored results, and one
    further call closes the run: it is the only one with [final = true],
    and its [tasks] is the number of tasks that resolved; a task whose
    promise is rejected triggers no emission and is not counted. *)
Theorem start_emissions (f : string) (maxPlans maxDepth : nat)
    (outcomes : list Task -> list (Task * Outcome)) (tasks : list Task)
    (co : Coordinator) :
  generate f maxPlans maxDepth = Some tasks ->
  Permutation (List.map fst (outcomes tasks)) tasks ->
  start f maxPlans maxDepth outcomes = Some co ->
  exists updates last,
    co_emitted co = updates ++ [last]
    /\ length updates = resolvedCount (outcomes tasks)
    /\ Forall isUpdate updates
    /\ (forall j e, updates !! j = Some e -> stats_tasks (em_stats e) = S j)
    /\ stats_final (em_stats last) = true
    /\ stats_tasks (em_stats last) = resolvedCount (outcomes tasks)
    /\ stats_total (em_stats last) = maxPlans.
Proof.
  intros Hg Hperm. unfold start. rewrite Hg. cbn [mbind option_bind].
  intros Hco. pose proof (f_equal (from_option co_emitted []) Hco) as Hem0.
  pose proof (generate_ids_NoDup _ _ _ _ Hg) as Hnd.
  assert (Hnd' : NoDup (List.map (fun ev => t_taskId (fst ev)) (outcomes tasks))).
  { rewrite <- (map_map fst t_taskId). by rewrite Hperm. }
  destruct (settle_all (outcomes tasks) (mkCoordinator maxPlans maxDepth true [] 0 [])
              eq_refl Hnd')
    as (Hr & Hmp & Hmd & Hlen & updates & Hem & Hul & Hup & Htasks).
  cbv zeta in *. cbn [co_results co_emitted co_maxPlans length app] in *.
  assert (Hco' : co = startRun maxPlans maxDepth (outcomes tasks)) by congruence.
  unfold startRun in Hco'. cbv zeta in Hco'. rewrite Hr in Hco'.
  exists updates.
  eexists. split.
  { rewrite Hco'. cbn [emit co_emitted]. rewrite Hem. reflexivity. }
  split; [done|]. split; [done|]. split; [exact Htasks|].
  cbn. by repeat split.
Qed.
End StartFacts.

Lemma start_emissions_witness :
  exists co updates last,
    @start Game Book.lib Book.endgameFen 16 6 allResolved = Some co
    /\ co_emitted co = updates ++ [last]
    /\ length updates = 14%nat
    /\ stats_final (em_stats last) = true
    /\ stats_tasks (em_stats last) = 14%nat.
Proof.
  destruct (@generate Game Book.lib Book.endgameFen 16 6) as [tasks|] eqn:Hg;
    [|vm_compute in Hg; discriminate].
  destruct (@start Game Book.lib Book.endgameFen 16 6 allResolved) as [co|] eqn:Hs;
    [|vm_compute in Hs; discriminate].
  assert (Hperm : Permutation (List.map fst (allResolved tasks)) tasks).
  { unfold allResolved. rewrite map_map. simpl. by rewrite map_id. }
  destruct (@start_emissions Game Book.lib (excerpt_laws Book.book)
              Book.endgameFen 16 6 allResolved tasks co Hg Hperm Hs)
    as (updates & last & Hem & Hlen & _ & _ & Hfin & Htasks & _).
  assert (Hcount : resolvedCount (allResolved tasks) = 14%nat).
  { vm_compute in Hg. injection Hg as <-. reflexivity. }
  exists co, updates, last. rewrite Hcount in *. by repeat split.
Defined.

(** C8 as stated fails: with two tasks dispatched and both promises
    rejected by a worker error event, the run makes a single emission, the
    final one, and it reports [tasks = 0] although two tasks settled. *)
Lemma rejected_tasks_are_not_counted :
  exists tasks co last,
    @generate Game Book.lib Book.endgameFen 2 6 = Some tasks
    /\ length tasks = 2%nat
    /\ length (allRejected tasks) = 2%nat
    /\ @start Game Book.lib Book.endgameFen 2 6 allRejected = Some co
    /\ co_emitted co = [last]
    /\ stats_final (em_stats last) = true
    /\ stats_tasks (em_stats last) = 0%nat
    /\ stats_tasks (em_stats last) <> length (allRejected tasks)
    /\ (length (co_emitted co) < length (allRejected tasks))%nat.
Proof.
  eexists _, _, _.
  split; [vm_compute; reflexivity|].
  split; [reflexivity|]. split; [reflexivity|].
  split; [vm_compute; reflexivity|].
  split; [reflexivity|]. split; [reflexivity|]. split; [reflexivity|].
  split; [vm_compute; discriminate|]. vm_compute. lia.
Qed.

(** ** Colour symmetry of the evaluator *)

Lemma Js_round_int (x : Q) (z : Z) : (x == inject_Z z)%Q -> Js.round x = z.
Proof.
  intros Hx. unfold Js.round. rewrite Hx. apply Js_round_ofZ.
Qed.

Lemma mobilityTerm_middlegame (t : Color) (toMoveCount oppCount : nat) :
  mobilityTerm t toMoveCount oppCount 0
  = match t with
    | White => 2 * (Z.of_nat toMoveCount - Z.of_nat oppCount)
    | Black => 2 * (Z.of_nat oppCount - Z.of_nat toMoveCount)
    end.
Proof.
  unfold mobilityTerm. change (Js.max 0 (1 - 0)) with (1 # 1)%Q.
  destruct t; apply Js_round_int;
    unfold Js.ofZ, inject_Z, Qeq, Qmult; simpl; lia.
Qed.

Lemma evaluateObs_live (f : string) (toMoveCount oppCount : nat) :
  evaluateObs (liveObs f toMoveCount oppCount) false
  = (boardScore (boardOfFen f) (turnOfFen f)
     + Js.ofZ (mobilityTerm (turnOfFen f) toMoveCount oppCount
                 (endgameWeight (scanBoard (boardOfFen f)))))%Q.
Proof. reflexivity. Qed.

Lemma knightRaid_facts :
  turnOfFen knightRaidFen = Black
  /\ endgameWeight (scanBoard (boardOfFen knightRaidFen)) = 0%Q
  /\ Qred (boardScore (boardOfFen knightRaidFen) Black) = (-53)%Q.
Proof. repeat split; vm_compute; reflexivity. Qed.

Lemma knightRaidMirror_facts :
  turnOfFen knightRaidMirrorFen = White
  /\ endgameWeight (scanBoard (boardOfFen knightRaidMirrorFen)) = 0%Q
  /\ Qred (boardScore (boardOfFen knightRaidMirrorFen) White) = 54%Q.
Proof. repeat split; vm_compute; reflexivity. Qed.

Lemma knightRaid_eval (toMoveCount oppCount : nat) :
  (evaluateObs (liveObs knightRaidFen toMoveCount oppCount) false
   == -53 + inject_Z (2 * (Z.of_nat oppCount - Z.of_nat toMoveCount)))%Q.
Proof.
  destruct knightRaid_facts as (Ht & He & Hb).
  rewrite evaluateObs_live, Ht, He, mobilityTerm_middlegame.
  rewrite <- (Qred_correct (boardScore _ _)), Hb. reflexivity.
Qed.

Lemma knightRaidMirror_eval (toMoveCount oppCount : nat) :
  (evaluateObs (liveObs knightRaidMirrorFen toMoveCount oppCount) false
   == 54 + inject_Z (2 * (Z.of_nat toMoveCount - Z.of_nat oppCount)))%Q.
Proof.
  destruct knightRaidMirror_facts as (Ht & He & Hb).
  rewrite evaluateObs_live, Ht, He, mobilityTerm_middlegame.
  rewrite <- (Qred_correct (boardScore _ _)), Hb. reflexivity.
Qed.

(** C3 fails on the code: for the position after [1. e4 e5 2. Nf3 Nf6 3. Nh4]
    and its colour mirror, whatever the two mobility counts, the two
    evaluations add up to 1 instead of 0.  The boards are mirror images, every
    other term cancels, and [kingTropismScore] rounds 3/2 up to 2 on one side
    and -3/2 up to -1 on the other. *)
Theorem evaluate_breaks_color_symmetry (toMoveCount oppCount : nat) :
  boardOfFen knightRaidMirrorFen = mirrorBoard (boardOfFen knightRaidFen)
  /\ turnOfFen knightRaidMirrorFen = opposite (turnOfFen knightRaidFen)
  /\ tropismOfFen knightRaidFen = 2
  /\ tropismOfFen knightRaidMirrorFen = -1
  /\ (evaluateObs (liveObs knightRaidFen toMoveCount oppCount) false
      == -53 + inject_Z (2 * (Z.of_nat oppCount - Z.of_nat toMoveCount)))%Q
  /\ (evaluateObs (liveObs knightRaidMirrorFen toMoveCount oppCount) false
      == 54 + inject_Z (2 * (Z.of_nat toMoveCount - Z.of_nat oppCount)))%Q
  /\ (evaluateObs (liveObs knightRaidFen toMoveCount oppCount) false
      + evaluateObs (liveObs knightRaidMirrorFen toMoveCount oppCount) false == 1)%Q
  /\ ~ (evaluateObs (liveObs knightRaidFen toMoveCount oppCount) false
        == - evaluateObs (liveObs knightRaidMirrorFen toMoveCount oppCount) false)%Q.
Proof.
  pose proof (knightRaid_eval toMoveCount oppCount) as H1.
  pose proof (knightRaidMirror_eval toMoveCount oppCount) as H2.
  assert (H3 : (evaluateObs (liveObs knightRaidFen toMoveCount oppCount) false
                + evaluateObs (liveObs knightRaidMirrorFen toMoveCount oppCount) false
                == 1)%Q).
  { rewrite H1, H2. unfold inject_Z, Qeq, Qplus. simpl. lia. }
  split; [vm_compute; reflexivity|]. split; [vm_compute; reflexivity|].
  split; [vm_compute; reflexivity|]. split; [vm_compute; reflexivity|].
  split; [exact H1|]. split; [exact H2|]. split; [exact H3|].
  intros Hneg. rewrite Hneg, Qplus_comm, Qplus_opp_r in H3.
  revert H3. unfold Qeq. simpl. lia.
Qed.

(** * Further properties of the engine and the coordinator *)

(** ** The transposition table as a cache *)

Lemma ttKey_step_range (h : Z) (a : Ascii.ascii) :
  0 <= Z.land (h * 31 + charCode a) (TT_SIZE - 1) < TT_SIZE.
Proof.
  change (TT_SIZE - 1) with (Z.ones 20). rewrite Z.land_ones by lia.
  change TT_SIZE with (2 ^ 20). apply Z.mod_pos_bound. lia.
Qed.

(** X1: the slot index of every string lies inside the table of [TT_SIZE]
    slots. *)
Theorem ttKey_in_table (f : string) : 0 <= ttKey f < TT_SIZE.
Proof.
  unfold ttKey.
  assert (Hgen : forall l h, 0 <= h < TT_SIZE ->
    0 <= fold_left (fun h a => Z.land (h * 31 + charCode a) (TT_SIZE - 1)) l h < TT_SIZE).
  { induction l as [|a l IH]; intros h Hh; simpl; [done|].
    apply IH. apply ttKey_step_range. }
  apply Hgen. vm_compute. split; [discriminate|reflexivity].
Qed.

(** X2: a store touches no slot but its own, never empties a slot and never
    lowers the depth a slot holds. *)
Theorem ttSet_keeps_deeper_entries (tt : gmap Z TTEntry) (f : string) (depth : nat)
    (score : Q) (flag : TTFlag) (bestMove : option string) (k : Z) :
  (k <> ttKey f -> ttSet tt f depth score flag bestMove !! k = tt !! k)
  /\ (forall e, tt !! k = Some e ->
        exists e', ttSet tt f depth score flag bestMove !! k = Some e'
                   /\ (e_depth e <= e_depth e')%nat).
Proof.
  unfold ttSet, ttSet_writes. split.
  - intros Hk. destruct (tt !! ttKey f) as [e0|]; [destruct (_ <=? _)%nat|];
      by rewrite ?lookup_insert_ne.
  - intros e He. destruct (decide (k = ttKey f)) as [->|Hk].
    + rewrite He. destruct (e_depth e <=? depth)%nat eqn:Hd.
      * rewrite lookup_insert_eq. eexists. split; [done|]. simpl.
        by apply Nat.leb_le.
      * exists e. by split.
    + exists e. split; [|done].
      destruct (tt !! ttKey f) as [e0|]; [destruct (_ <=? _)%nat|];
        by rewrite ?lookup_insert_ne.
Qed.

(** X3: the best move goes in and out with the entry: after a store that wrote
    the slot, [ttGetMove] for the same FEN returns the stored move key, while
    a probe or a move lookup for a different FEN hashing to the same slot
    misses. *)
Theorem ttSet_then_lookup (tt : gmap Z TTEntry) (f g : string) (depth : nat)
    (score : Q) (flag : TTFlag) (bestMove : option string) :
  ttSet_writes tt f depth = true ->
  ttGetMove (ttSet tt f depth score flag bestMove) f = bestMove
  /\ (ttKey g = ttKey f -> g <> f ->
      (forall d alpha beta,
          ttGet (ttSet tt f depth score flag bestMove) g d alpha beta = None)
      /\ ttGetMove (ttSet tt f depth score flag bestMove) g = None).
Proof.
  intros Hw. unfold ttSet. rewrite Hw. split.
  - unfold ttGetMove. rewrite lookup_insert_eq. simpl.
    by rewrite bool_decide_eq_true_2.
  - intros Hk Hne. split.
    + intros d alpha beta. unfold ttGet. rewrite Hk, lookup_insert_eq. simpl.
      rewrite bool_decide_eq_false_2 by congruence. reflexivity.
    + unfold ttGetMove. rewrite Hk, lookup_insert_eq. simpl.
      rewrite bool_decide_eq_false_2 by congruence. reflexivity.
Qed.

Lemma ttSet_then_lookup_witness :
  ttGetMove (ttSet ∅ "ab" 2 7 TT_EXACT (Some "e2e4")) "ab" = Some "e2e4"
  /\ ttGet (ttSet ∅ "ab" 2 7 TT_EXACT (Some "e2e4")) "bC" 1 (- INFINITY) INFINITY = None.
Proof.
  assert (Hw : ttSet_writes ∅ "ab" 2 = true) by reflexivity.
  destruct (ttSet_then_lookup ∅ "ab" "bC" 2 7 TT_EXACT (Some "e2e4") Hw)
    as [Hm Hc].
  split; [exact Hm|].
  destruct Hc as [Hg _]; [reflexivity|discriminate|]. apply Hg.
Defined.

(** ** Move ordering *)

Lemma insertDesc_sorted {A} (key : A -> Q) (x : A) (l : list A) :
  StronglySorted (fun a b => (key b <= key a)%Q) l ->
  StronglySorted (fun a b => (key b <= key a)%Q) (insertDesc key x l).
Proof.
  induction l as [|y l IH]; intros Hs; simpl.
  - repeat constructor.
  - apply StronglySorted_inv in Hs as [Hs Hy].
    destruct (Js.gtb (key y) (key x)) eqn:E.
    + constructor; [by apply IH|].
      apply Js_gtb_lt in E. rewrite Forall_forall in Hy.
      apply Forall_forall. intros b Hb. apply list_elem_of_In in Hb.
      apply (Permutation_in _ (insertDesc_Permutation key x l)) in Hb.
      destruct Hb as [->|Hb]; [by apply Qlt_le_weak|].
      apply Hy. by apply list_elem_of_In.
    + assert (Hyx : (key y <= key x)%Q).
      { destruct (Qlt_le_dec (key x) (key y)) as [Hlt|Hle]; [|done].
        apply Js_gtb_lt in Hlt. congruence. }
      constructor; [by constructor|].
      constructor; [done|].
      rewrite Forall_forall in Hy. apply Forall_forall. intros b Hb.
      eapply Qle_trans; [apply (Hy b Hb)|done].
Qed.

Lemma insertDesc_stable {A} (key : A -> Q) (q : Q) (x : A) (l : list A) :
  List.filter (fun z => Qeq_bool (key z) q) (insertDesc key x l)
  = List.filter (fun z => Qeq_bool (key z) q) (x :: l).
Proof.
  induction l as [|y l IH]; [done|]. simpl insertDesc.
  destruct (Js.gtb (key y) (key x)) eqn:E; [|done].
  apply Js_gtb_lt in E.
  cbn [List.filter]. rewrite IH. cbn [List.filter].
  destruct (Qeq_bool (key y) q) eqn:Ey; [|done].
  destruct (Qeq_bool (key x) q) eqn:Ex; [|done].
  apply Qeq_bool_iff in Ey, Ex. rewrite Ey, Ex in E.
  exfalso. by apply (Qlt_irrefl q).
Qed.

(** X4: [orderMoves] returns the moves it was given, in non-increasing order of
    their ordering score, and moves of equal score keep the order in which
    the move generator listed them. *)
Theorem orderMoves_sorted_stable (mvs : list Move) (ply : nat)
    (prevMoveKey ttMove : option string) (st : Search) :
  let score := scoreMove st ply prevMoveKey ttMove in
  Permutation (orderMoves mvs ply prevMoveKey ttMove st) mvs
  /\ StronglySorted (fun a b => (score b <= score a)%Q)
                    (orderMoves mvs ply prevMoveKey ttMove st)
  /\ (forall q,
        List.filter (fun m => Qeq_bool (score m) q) (orderMoves mvs ply prevMoveKey ttMove st)
        = List.filter (fun m => Qeq_bool (score m) q) mvs).
Proof.
  cbv zeta. unfold orderMoves. split; [apply sortDesc_Permutation|]. split.
  - induction mvs as [|m mvs IH]; simpl; [constructor|].
    by apply insertDesc_sorted.
  - intros q. induction mvs as [|m mvs IH]; [done|]. simpl sortDesc.
    rewrite insertDesc_stable. cbn [List.filter]. by rewrite IH.
Qed.

(** ** Quiescence on quiet positions, and what quiescence leaves alone *)

Section QuiescenceMore.
Context {Chess : Type} `{ChessLib Chess}.

(** X6: in a position that is not in check and offers no capture or promotion,
    [quiescence] makes no move: it counts one node and returns the static
    score without mobility, brought into the window (for the maximizing side
    [beta] if the score reaches it, else the larger of [alpha] and the score;
    mirrored for the minimizing side). *)
Theorem quiescence_quiet_position (c : Chess) (alpha beta : Q) (maximizing : bool)
    (st : Search) (n : nat) :
  in_check c = false ->
  List.filter isCaptureOrPromotion (moves c) = [] ->
  quiescence (S n) c alpha beta maximizing st
  = Some (standPatValue (evaluate c true) alpha beta maximizing, c, bumpNodes st).
Proof.
  intros Hchk Hquiet. unfold quiescence, standPatValue. simpl.
  unfold qsStandPat, qsCandidates. rewrite Hchk, Hquiet. simpl.
  destruct maximizing.
  - destruct (Js.geb (evaluate c true) beta); [done|].
    destruct (Js.gtb (evaluate c true) alpha); reflexivity.
  - destruct (Js.leb (evaluate c true) alpha); [done|].
    destruct (Js.ltb (evaluate c true) beta); reflexivity.
Qed.

Lemma qsLoop_sameTables rec maximizing stand mvs :
  (forall c a b m st s c' st',
      rec c a b m st = Some (s, c', st') ->
      sameTables st st' /\ (s_nodes st <= s_nodes st')%nat) ->
  forall c alpha beta st a b c' st',
    qsLoop rec maximizing stand mvs c alpha beta st = Some (a, b, c', st') ->
    sameTables st st' /\ (s_nodes st <= s_nodes st')%nat.
Proof.
  intros Hrec. induction mvs as [|m rest IH]; intros c alpha beta st a b c' st'; simpl.
  - intros [= _ _ _ <-]. by repeat split.
  - destruct (deltaPruned stand maximizing alpha beta m); [apply IH|].
    destruct (rec (move c m) alpha beta (negb maximizing) st) as [[[score c1] st1]|] eqn:E;
      cbn [mbind option_bind]; [|done].
    apply Hrec in E. destruct E as [(E1 & E2 & E3 & E4 & E5) En].
    assert (Hstep : forall a0 b0 c0,
      qsLoop rec maximizing stand rest c0 a0 b0 st1 = Some (a, b, c', st') ->
      sameTables st st' /\ (s_nodes st <= s_nodes st')%nat).
    { intros a0 b0 c0 Hl. apply IH in Hl.
      destruct Hl as [(L1 & L2 & L3 & L4 & L5) Ln].
      split; [|lia]. repeat split; congruence. }
    destruct maximizing.
    + destruct (Js.geb _ beta); [|apply Hstep].
      intros [= _ _ _ <-]. split; [|done]. by repeat split.
    + destruct (Js.geb alpha _); [|apply Hstep].
      intros [= _ _ _ <-]. split; [|done]. by repeat split.
Qed.

Lemma quiescenceWith_sameTables ev (fuel : nat) :
  forall c alpha beta maximizing st s c' st',
    quiescenceWith ev fuel c alpha beta maximizing st = Some (s, c', st') ->
    sameTables st st' /\ (s_nodes st <= s_nodes st')%nat.
Proof.
  induction fuel as [|n IH]; intros c alpha beta maximizing st s c' st'; simpl; [done|].
  destruct (qsStandPat ev c alpha beta maximizing) as [v|stand a0 b0].
  { intros [= _ _ <-]. split; [by repeat split|simpl; lia]. }
  destruct (in_check c && bool_decide (moves c = [])).
  { intros [= _ _ <-]. split; [by repeat split|simpl; lia]. }
  destruct (qsLoop _ _ _ _ _ _ _ _) as [[[[a1 b1] c1] st1]|] eqn:E;
    cbn [mbind option_bind]; [|done].
  intros [= _ _ <-].
  apply (qsLoop_sameTables _ _ _ _ IH) in E.
  destruct E as [Ht Hn]. split; [exact Ht|]. simpl in Hn. lia.
Qed.

(** X7: [quiescence] writes nothing but the node counter: the transposition
    table, the killers, the history and countermove tables and the move stack
    come back unchanged, and at least one node is counted. *)
Theorem quiescence_only_counts_nodes (fuel : nat) (c : Chess) (alpha beta : Q)
    (maximizing : bool) (st : Search) (s : Q) (c' : Chess) (st' : Search) :
  quiescence fuel c alpha beta maximizing st = Some (s, c', st') ->
  sameTables st st' /\ (s_nodes st < s_nodes st')%nat.
Proof.
  unfold quiescence. destruct fuel as [|n]; simpl; [done|].
  destruct (qsStandPat evaluate c alpha beta maximizing) as [v|stand a0 b0].
  { intros [= _ _ <-]. split; [by repeat split|simpl; lia]. }
  destruct (in_check c && bool_decide (moves c = [])).
  { intros [= _ _ <-]. split; [by repeat split|simpl; lia]. }
  destruct (qsLoop _ _ _ _ _ _ _ _) as [[[[a1 b1] c1] st1]|] eqn:E;
    cbn [mbind option_bind]; [|done].
  intros [= _ _ <-].
  apply (qsLoop_sameTables _ _ _ _ (quiescenceWith_sameTables evaluate n)) in E.
  destruct E as [Ht Hn]. split; [exact Ht|]. simpl in Hn. lia.
Qed.
End QuiescenceMore.

Lemma quiescence_quiet_position_witness :
  @quiescence Game Book.lib 1 (mkGame (Book.afterKb1 "8/7k") []) (- INFINITY) INFINITY
              true Book.emptySearch
  = Some (@evaluate Game Book.lib (mkGame (Book.afterKb1 "8/7k") []) true,
          mkGame (Book.afterKb1 "8/7k") [], bumpNodes Book.emptySearch).
Proof.
  rewrite (@quiescence_quiet_position Game Book.lib (mkGame (Book.afterKb1 "8/7k") [])
             (- INFINITY) INFINITY true Book.emptySearch 0 eq_refl eq_refl).
  vm_compute. reflexivity.
Defined.

Lemma quiescence_only_counts_nodes_witness :
  exists s c' st',
    @quiescence Game Book.lib 3 (mkGame (Book.afterKb1 "8/7k") []) (- INFINITY) INFINITY
                true Book.emptySearch = Some (s, c', st')
    /\ sameTables Book.emptySearch st' /\ (0 < s_nodes st')%nat.
Proof.
  destruct (@quiescence Game Book.lib 3 (mkGame (Book.afterKb1 "8/7k") [])
              (- INFINITY) INFINITY true Book.emptySearch) as [[[s c'] st']|] eqn:E;
    [|vm_compute in E; discriminate].
  exists s, c', st'. split; [reflexivity|].
  exact (@quiescence_only_counts_nodes Game Book.lib _ _ _ _ _ _ _ _ _ E).
Defined.

(** ** What a search keeps in the engine state *)

Lemma ttGrows_refl t : ttGrows t t.
Proof. intros k e He. eauto. Qed.

Lemma ttGrows_trans t1 t2 t3 : ttGrows t1 t2 -> ttGrows t2 t3 -> ttGrows t1 t3.
Proof.
  intros H12 H23 k e He. destruct (H12 k e He) as (e2 & He2 & Hd2).
  destruct (H23 k e2 He2) as (e3 & He3 & Hd3). exists e3. split; [done|lia].
Qed.

Lemma ttGrows_ttSet t f depth score flag bestMove :
  ttGrows t (ttSet t f depth score flag bestMove).
Proof.
  intros k e He. unfold ttSet, ttSet_writes.
  destruct (decide (k = ttKey f)) as [->|Hk].
  - rewrite He. destruct (e_depth e <=? depth)%nat eqn:Hd.
    + rewrite lookup_insert_eq. eexists. split; [done|]. simpl. by apply Nat.leb_le.
    + exists e. by split.
  - exists e. split; [|done].
    destruct (t !! ttKey f) as [e0|]; [destruct (_ <=? _)%nat|];
      by rewrite ?lookup_insert_ne.
Qed.

Lemma evolves_refl st : evolves st st.
Proof. split; [done|]. split; [apply ttGrows_refl|done]. Qed.

Lemma evolves_trans st1 st2 st3 : evolves st1 st2 -> evolves st2 st3 -> evolves st1 st3.
Proof.
  intros (N1 & T1 & C1) (N2 & T2 & C2). split; [lia|]. split.
  - by eapply ttGrows_trans.
  - auto.
Qed.

Lemma evolves_sameTables st st' :
  sameTables st st' -> (s_nodes st <= s_nodes st')%nat -> evolves st st'.
Proof.
  intros (E1 & _ & _ & E4 & _) Hn. split; [done|]. split.
  - rewrite E1. apply ttGrows_refl.
  - by rewrite E4.
Qed.

Lemma evolves_histAdd st hk d : evolves st (histAdd st hk d).
Proof. split; [done|]. split; [apply ttGrows_refl|done]. Qed.

Lemma evolves_recordCutoff st ply depth prevMoveKey m :
  evolves st (recordCutoff st ply depth prevMoveKey m).
Proof.
  unfold recordCutoff. destruct (isQuietMove m); [|apply evolves_refl].
  destruct (default (None, None) (s_killers st !! ply)) as [k0 k1].
  destruct prevMoveKey as [pk|].
  - split; [done|]. split; [apply ttGrows_refl|]. intros k Hk. simpl.
    destruct (decide (pk = k)) as [->|Hne].
    + rewrite lookup_insert_eq. eauto.
    + by rewrite lookup_insert_ne.
  - split; [done|]. split; [apply ttGrows_refl|done].
Qed.

Section Evolution.
Context {Chess : Type} `{ChessLib Chess}.

Lemma quiescence_evolves fuel c a b m st s c' st' :
  quiescence fuel c a b m st = Some (s, c', st') -> evolves st st'.
Proof.
  intros Hq. apply quiescenceWith_sameTables in Hq. destruct Hq as [Ht Hn].
  by apply evolves_sameTables.
Qed.

Lemma searchMove_evolves rec depth maximizing inCheckNow ply mi m L :
  AbEvolves rec ->
  forall c st s c' st',
    searchMove rec depth maximizing inCheckNow ply mi m L c st = Some (s, c', st') ->
    evolves st st'.
Proof.
  intros Hrec c st s c' st'. unfold searchMove.
  destruct (negb (l_searchedFirst L)); [apply Hrec|].
  destruct (rec c _ _ _ _ _ st) as [[[score c1] st1]|] eqn:E;
    cbn [mbind option_bind]; [|done].
  apply Hrec in E.
  destruct (_ && _).
  - intros E2. apply Hrec in E2. by eapply evolves_trans.
  - by intros [= _ _ <-].
Qed.

Lemma abLoop_evolves rec depth maximizing inCheckNow staticEval prevMoveKey ply mvs :
  AbEvolves rec ->
  forall L c st L' c' st',
    abLoop rec depth maximizing inCheckNow staticEval prevMoveKey ply mvs L c st
    = Some (L', c', st') ->
    evolves st st'.
Proof.
  intros Hrec. induction mvs as [|[mi m] rest IH]; intros L c st L' c' st'; simpl.
  - intros [= _ _ <-]. apply evolves_refl.
  - destruct (futilityPruned _ _ _ _ _ _); [apply IH|].
    destruct (_ && (_ <? _)%nat); [apply IH|].
    destruct (searchMove _ _ _ _ _ _ _ _ _ _) as [[[score c2] st2]|] eqn:E;
      cbn [mbind option_bind]; [|done].
    eapply searchMove_evolves in E; [|exact Hrec].
    assert (E0 : evolves st st2).
    { eapply evolves_trans; [|exact E]. split; [done|]. split; [apply ttGrows_refl|done]. }
    match goal with
    | |- context [recordCutoff ?s0 _ _ _ _] =>
        assert (E1 : evolves st2 s0)
          by (destruct (_ && isQuietMove m); [apply evolves_histAdd|apply evolves_refl])
    end.
    destruct (Js.geb _ _).
    + intros [= _ _ <-].
      eapply evolves_trans; [exact E0|]. eapply evolves_trans; [exact E1|].
      apply evolves_recordCutoff.
    + intros Hl. apply IH in Hl.
      eapply evolves_trans; [exact E0|]. by eapply evolves_trans.
Qed.

Lemma nullMove_evolves rec c depth alpha beta maximizing inCheckNow ply st r st' :
  AbEvolves rec ->
  nullMove rec c depth alpha beta maximizing inCheckNow ply st = Some (r, st') ->
  evolves st st'.
Proof.
  intros Hrec. unfold nullMove.
  destruct (negb inCheckNow && _); [|intros [= _ <-]; apply evolves_refl].
  destruct (load _) as [nullChess|]; [|intros [= _ <-]; apply evolves_refl].
  destruct (in_check nullChess); [intros [= _ <-]; apply evolves_refl|].
  destruct (rec nullChess _ _ _ _ _ st) as [[[ns c1] st1]|] eqn:E;
    cbn [mbind option_bind]; [|done].
  apply Hrec in E.
  destruct (maximizing && _); [by intros [= _ <-]|].
  destruct (negb maximizing && _); by intros [= _ <-].
Qed.

Lemma razoring_evolves fuel c depth alpha maximizing inCheckNow st se rr c' st' :
  razoring (quiescence fuel) c depth alpha maximizing inCheckNow st
  = Some (se, rr, c', st') ->
  evolves st st'.
Proof.
  unfold razoring.
  destruct (negb inCheckNow && _); [|intros [= _ _ _ <-]; apply evolves_refl].
  destruct (_ && Js.ltb _ _); [|intros [= _ _ _ <-]; apply evolves_refl].
  destruct (quiescence fuel c _ _ _ st) as [[[q c1] st1]|] eqn:E;
    cbn [mbind option_bind]; [|done].
  apply quiescence_evolves in E.
  destruct (Js.ltb q alpha); by intros [= _ _ _ <-].
Qed.

Lemma evolves_bumpNodes st : evolves st (bumpNodes st).
Proof. split; [simpl; lia|]. split; [apply ttGrows_refl|done]. Qed.

Lemma alphaBeta_evolves fuel : AbEvolves (alphaBeta fuel).
Proof.
  induction fuel as [|n IH]; intros c d a b m p st s c' st'; simpl; [done|].
  destruct (Js.geb _ _); [intros [= _ _ <-]; apply evolves_bumpNodes|].
  destruct (ttGet _ _ _ _ _); [intros [= _ _ <-]; apply evolves_bumpNodes|].
  destruct (d =? 0)%nat.
  { intros Hq. apply quiescence_evolves in Hq.
    eapply evolves_trans; [apply evolves_bumpNodes|exact Hq]. }
  destruct (game_over c); [intros [= _ _ <-]; apply evolves_bumpNodes|].
  destruct (bool_decide (moves c = [])); [intros [= _ _ <-]; apply evolves_bumpNodes|].
  destruct (nullMove _ _ _ _ _ _ _ _ _) as [[nullRet st1]|] eqn:En;
    cbn [mbind option_bind]; [|done].
  apply nullMove_evolves in En; [|exact IH].
  assert (E1 : evolves st st1)
    by (eapply evolves_trans; [apply evolves_bumpNodes|exact En]).
  destruct nullRet; [by intros [= _ _ <-]|].
  destruct (razoring _ _ _ _ _ _ _) as [[[[se rr] c1] st2]|] eqn:Er;
    cbn [mbind option_bind]; [|done].
  apply razoring_evolves in Er.
  assert (E2 : evolves st st2) by (by eapply evolves_trans).
  destruct rr; [by intros [= _ _ <-]|].
  destruct (abLoop _ _ _ _ _ _ _ _ _ _ _) as [[[L c2] st3]|] eqn:El;
    cbn [mbind option_bind]; [|done].
  apply abLoop_evolves in El; [|exact IH].
  intros [= _ _ <-].
  eapply evolves_trans; [exact E2|]. eapply evolves_trans; [exact El|].
  split; [done|]. split; [apply ttGrows_ttSet|done].
Qed.

(** X9: a call of [alphaBeta] counts at least one node, never empties a
    transposition-table slot nor lowers the depth stored in it, and never
    forgets a recorded countermove. *)
Theorem alphaBeta_keeps_tables (fuel : nat) (c : Chess) (depth : nat) (alpha beta : Q)
    (maximizing : bool) (ply : nat) (st : Search) (s : Q) (c' : Chess) (st' : Search) :
  alphaBeta fuel c depth alpha beta maximizing ply st = Some (s, c', st') ->
  (s_nodes st < s_nodes st')%nat
  /\ ttGrows (s_ttTable st) (s_ttTable st')
  /\ (forall k, is_Some (s_counterMoves st !! k) -> is_Some (s_counterMoves st' !! k)).
Proof.
  intros Hab. pose proof (alphaBeta_evolves _ _ _ _ _ _ _ _ _ _ _ Hab) as (Hn & Ht & Hc).
  split; [|by split].
  destruct fuel as [|n]; [done|]. simpl in Hab.
  assert (Hstrict : forall st0 : Search,
    evolves (bumpNodes st) st0 -> (s_nodes st < s_nodes st0)%nat).
  { intros st0 (N0 & _). simpl in N0. lia. }
  revert Hab.
  destruct (Js.geb _ _); [intros [= _ _ <-]; simpl; lia|].
  destruct (ttGet _ _ _ _ _); [intros [= _ _ <-]; simpl; lia|].
  destruct (depth =? 0)%nat.
  { intros Hq. apply Hstrict. by apply quiescence_evolves in Hq. }
  destruct (game_over c); [intros [= _ _ <-]; simpl; lia|].
  destruct (bool_decide (moves c = [])); [intros [= _ _ <-]; simpl; lia|].
  destruct (nullMove _ _ _ _ _ _ _ _ _) as [[nullRet st1]|] eqn:En;
    cbn [mbind option_bind]; [|done].
  apply nullMove_evolves in En; [|apply alphaBeta_evolves].
  destruct nullRet; [intros [= _ _ <-]; by apply Hstrict|].
  destruct (razoring _ _ _ _ _ _ _) as [[[[se rr] c1] st2]|] eqn:Er;
    cbn [mbind option_bind]; [|done].
  apply razoring_evolves in Er.
  destruct rr; [intros [= _ _ <-]; apply Hstrict; by eapply evolves_trans|].
  destruct (abLoop _ _ _ _ _ _ _ _ _ _ _) as [[[L c2] st3]|] eqn:El;
    cbn [mbind option_bind]; [|done].
  apply abLoop_evolves in El; [|apply alphaBeta_evolves].
  intros [= _ _ <-]. simpl.
  assert (E3 : evolves (bumpNodes st) st3)
    by (eapply evolves_trans; [exact En|]; by eapply evolves_trans).
  destruct E3 as (N3 & _). simpl in N3. lia.
Qed.
End Evolution.

Lemma alphaBeta_keeps_tables_witness :
  exists s c' st',
    @alphaBeta Game Book.lib 20 (mkGame Book.endgame []) 2 (- INFINITY) INFINITY
               true 0 warmSearch = Some (s, c', st')
    /\ (s_nodes warmSearch < s_nodes st')%nat
    /\ (exists e', s_ttTable st' !! ttKey Book.endgameFen = Some e'
                   /\ (1 <= e_depth e')%nat)
    /\ (exists e', s_ttTable st' !! ttKey Book.blackToMoveFen = Some e'
                   /\ (1 <= e_depth e')%nat)
    /\ is_Some (s_counterMoves st' !! "kh8g8").
Proof.
  destruct (@alphaBeta Game Book.lib 20 (mkGame Book.endgame []) 2
              (- INFINITY) INFINITY true 0 warmSearch) as [[[s c'] st']|] eqn:E;
    [|vm_compute in E; discriminate].
  exists s, c', st'. split; [reflexivity|].
  destruct (@alphaBeta_keeps_tables Game Book.lib _ _ _ _ _ _ _ _ _ _ _ E)
    as (Hn & Ht & Hc).
  split; [exact Hn|]. split; [|split].
  - apply (Ht _ (mkTTEntry Book.endgameFen 1 5 TT_LOWER (Some "a2a4"))).
    vm_compute. reflexivity.
  - apply (Ht _ (mkTTEntry Book.blackToMoveFen 1 5 TT_LOWER None)).
    vm_compute. reflexivity.
  - apply Hc. exists "pa2a4". vm_compute. reflexivity.
Defined.

(** ** The lines of a root search *)

Lemma sortDesc_sorted {A} (key : A -> Q) (l : list A) :
  StronglySorted (fun a b => (key b <= key a)%Q) (sortDesc key l).
Proof.
  induction l as [|x l IH]; simpl; [constructor|]. by apply insertDesc_sorted.
Qed.

Lemma take_sorted {A} (R : A -> A -> Prop) (n : nat) (l : list A) :
  StronglySorted R l -> StronglySorted R (take n l).
Proof.
  revert n. induction l as [|x l IH]; intros [|n] Hs; simpl; try constructor.
  - apply IH. by apply StronglySorted_inv in Hs as [Hs _].
  - apply StronglySorted_inv in Hs as [_ Hx].
    rewrite Forall_forall in Hx. apply Forall_forall. intros y Hy.
    apply Hx. by apply (subseteq_take n l).
Qed.

Section RootMore.
Context {Chess : Type} `{ChessLib Chess}.

Lemma rootLoop_moves fuel max depth mvs :
  forall c st results results' c' st',
    rootLoop fuel max depth mvs c st results = Some (results', c', st') ->
    List.map ln_move results' = List.map ln_move results ++ mvs.
Proof.
  induction mvs as [|m rest IH]; intros c st results results' c' st'; simpl.
  - intros [= <- _ _]. by rewrite app_nil_r.
  - destruct (rootMoveScore _ _ _ _) as [[score cs]|]; cbn [mbind option_bind]; [|done].
    intros Hl. apply IH in Hl. rewrite Hl, map_app. simpl.
    by rewrite <- app_assoc.
Qed.

(** X11: [searchRoot] gives every legal root move one line, ranks the lines by
    non-increasing score and returns the first [multiPV] of them: it returns
    [min(multiPV, k)] lines for a root with [k] legal moves, and none for a
    root without legal moves. *)
Theorem searchRoot_ranked_lines (fuel : nat) (f : string) (depth multiPV : nat)
    (st : Search) (lines : list Line) (c' : Chess) (st' : Search) :
  searchRoot fuel f depth multiPV st = Some (Returned lines c' st') ->
  exists c0 all,
    load f = Some c0
    /\ Permutation (List.map ln_move all) (moves c0)
    /\ StronglySorted (fun a b => (ln_score b <= ln_score a)%Q) all
    /\ lines = take multiPV all
    /\ length lines = Nat.min multiPV (length (moves c0)).
Proof.
  unfold searchRoot. destruct (load f) as [c0|]; [|done].
  destruct (bool_decide (moves c0 = [])) eqn:Hnil.
  - apply bool_decide_eq_true in Hnil. intros [= <- _ _].
    exists c0, []. rewrite Hnil. split; [done|]. split; [done|].
    split; [constructor|]. split; [by destruct multiPV|]. simpl. lia.
  - destruct (rootLoop _ _ _ _ _ _ _) as [[[results c1] st1]|] eqn:E;
      cbn [mbind option_bind]; [|done].
    intros [= <- _ _]. apply rootLoop_moves in E. simpl in E.
    exists c0, (sortDesc ln_score results).
    split; [done|]. split.
    { rewrite <- E. apply Permutation_map. apply sortDesc_Permutation. }
    split; [apply sortDesc_sorted|]. split; [done|].
    rewrite length_take. f_equal.
    rewrite (Permutation_length (sortDesc_Permutation ln_score results)).
    by rewrite <- E, length_map.
Qed.

Lemma aspirate_evolves fuel max d prev cs s cs' :
  aspirate (rootSearch fuel max) d prev cs = Some (s, cs') ->
  evolves (snd cs) (snd cs').
Proof.
  assert (Hs : forall d lo hi cs s cs',
    rootSearch fuel max d lo hi cs = Some (s, cs') -> evolves (snd cs) (snd cs')).
  { clear. intros d lo hi cs s cs'. unfold rootSearch.
    destruct (alphaBeta _ _ _ _ _ _ _ _) as [[[s1 c1] st1]|] eqn:E;
      cbn [mbind option_bind]; [|done].
    apply alphaBeta_evolves in E. by intros [= _ <-]. }
  unfold aspirate. destruct (1 <? d)%nat; [|apply Hs].
  destruct (rootSearch _ _ _ _ _ cs) as [[s1 cs1]|] eqn:E1; cbn [mbind option_bind]; [|done].
  apply Hs in E1.
  destruct (failsWindow s1 _ _); [|by intros [= _ <-]].
  destruct (rootSearch _ _ _ _ _ cs1) as [[s2 cs2]|] eqn:E2; cbn [mbind option_bind]; [|done].
  apply Hs in E2.
  destruct (failsWindow s2 _ _).
  - intros E3. apply Hs in E3.
    eapply evolves_trans; [exact E1|]. by eapply evolves_trans.
  - intros [= _ <-]. by eapply evolves_trans.
Qed.

Lemma deepen_evolves fuel max k :
  forall from score prev cs r cs',
    deepen (rootSearch fuel max) k from score prev cs = Some (r, cs') ->
    evolves (snd cs) (snd cs').
Proof.
  induction k as [|k IH]; intros from score prev cs r cs'; simpl.
  - intros [= _ <-]. apply evolves_refl.
  - destruct (aspirate _ from prev cs) as [[s cs1]|] eqn:Ea;
      cbn [mbind option_bind]; [|done].
    apply aspirate_evolves in Ea.
    destruct (isMateScore s); [by intros [= _ <-]|].
    intros Hd. apply IH in Hd. by eapply evolves_trans.
Qed.

Lemma rootLoop_evolves fuel max depth mvs :
  forall c st results results' c' st',
    rootLoop fuel max depth mvs c st results = Some (results', c', st') ->
    evolves st st'.
Proof.
  induction mvs as [|m rest IH]; intros c st results results' c' st'; simpl.
  - intros [= _ _ <-]. apply evolves_refl.
  - destruct (rootMoveScore _ _ _ _) as [[score cs]|] eqn:E;
      cbn [mbind option_bind]; [|done].
    apply deepen_evolves in E. simpl in E.
    intros Hl. apply IH in Hl. by eapply evolves_trans.
Qed.

(** X12: what one root search hands to the next: the transposition table and the
    countermove table persist, no slot of the former is emptied or made
    shallower and no countermove is forgotten, whatever the position, the
    depth and the number of lines asked for. *)
Theorem searchRoot_keeps_tables (fuel : nat) (f : string) (depth multiPV : nat)
    (st : Search) (lines : list Line) (c' : Chess) (st' : Search) :
  searchRoot fuel f depth multiPV st = Some (Returned lines c' st') ->
  ttGrows (s_ttTable st) (s_ttTable st')
  /\ (forall k, is_Some (s_counterMoves st !! k) -> is_Some (s_counterMoves st' !! k)).
Proof.
  unfold searchRoot. destruct (load f) as [c0|]; [|done].
  destruct (bool_decide (moves c0 = [])) eqn:Hnil.
  - intros [= _ _ <-]. simpl. split; [apply ttGrows_refl|done].
  - destruct (rootLoop _ _ _ _ _ _ _) as [[[results c1] st1]|] eqn:E;
      cbn [mbind option_bind]; [|done].
    intros [= _ _ <-].
    pose proof (rootLoop_evolves _ _ _ _ _ _ _ _ _ _ E) as (_ & Ht & Hc).
    split; [exact Ht|exact Hc].
Qed.
End RootMore.

Lemma searchRoot_ranked_lines_witness :
  exists lines c' st',
    @searchRoot Game Book.lib 10 Book.blackToMoveFen 1 2 Book.emptySearch
    = Some (Returned lines c' st')
    /\ length lines = 2%nat.
Proof.
  destruct (@searchRoot Game Book.lib 10 Book.blackToMoveFen 1 2 Book.emptySearch)
    as [[|lines c' st']|] eqn:E.
  - vm_compute in E. discriminate.
  - exists lines, c', st'. split; [reflexivity|].
    destruct (@searchRoot_ranked_lines Game Book.lib _ _ _ _ _ _ _ _ E)
      as (c0 & all & Hload & _ & _ & _ & ->).
    vm_compute in Hload. injection Hload as <-. reflexivity.
  - vm_compute in E. discriminate.
Defined.

Lemma searchRoot_keeps_tables_witness :
  exists lines c' st',
    @searchRoot Game Book.lib 20 Book.endgameFen 3 4 warmSearch
    = Some (Returned lines c' st')
    /\ (exists e', s_ttTable st' !! ttKey Book.endgameFen = Some e'
                   /\ (1 <= e_depth e')%nat)
    /\ (exists e', s_ttTable st' !! ttKey Book.blackToMoveFen = Some e'
                   /\ (1 <= e_depth e')%nat)
    /\ is_Some (s_counterMoves st' !! "kh8g8").
Proof.
  destruct (@searchRoot Game Book.lib 20 Book.endgameFen 3 4 warmSearch)
    as [[|lines c' st']|] eqn:E.
  - vm_compute in E. discriminate.
  - exists lines, c', st'. split; [reflexivity|].
    destruct (@searchRoot_keeps_tables Game Book.lib _ _ _ _ _ _ _ _ E) as (Ht & Hc).
    split; [|split].
    + apply (Ht _ (mkTTEntry Book.endgameFen 1 5 TT_LOWER (Some "a2a4"))).
      vm_compute. reflexivity.
    + apply (Ht _ (mkTTEntry Book.blackToMoveFen 1 5 TT_LOWER None)).
      vm_compute. reflexivity.
    + apply Hc. exists "pa2a4". vm_compute. reflexivity.
  - vm_compute in E. discriminate.
Defined.

(** ** The shape of the heuristic tables is an invariant of the search *)

Lemma posHist_histAdd st hk d :
  0 < d -> posHist (s_histTable st) -> posHist (s_histTable (histAdd st hk d)).
Proof.
  intros Hd Hp k v. simpl. destruct (decide (hk = k)) as [->|Hne].
  - rewrite lookup_insert_eq. intros [= <-].
    destruct (s_histTable st !! k) as [v0|] eqn:E; simpl; [|lia].
    apply Hp in E. lia.
  - rewrite lookup_insert_ne by done. apply Hp.
Qed.

Lemma wellFormed_histAdd st hk d :
  0 < d -> wellFormed st -> wellFormed (histAdd st hk d).
Proof. intros Hd [Hh Hk]. split; [by apply posHist_histAdd|exact Hk]. Qed.

Lemma wellFormed_sameTables st st' : sameTables st st' -> wellFormed st -> wellFormed st'.
Proof. intros (_ & Hk & Hh & _) [H1 H2]. split; [by rewrite Hh|by rewrite Hk]. Qed.

Lemma wellFormed_recordCutoff st ply depth prevMoveKey m :
  (0 < depth)%nat -> wellFormed st -> wellFormed (recordCutoff st ply depth prevMoveKey m).
Proof.
  intros Hd [Hh Hk]. unfold recordCutoff. destruct (isQuietMove m); [|by split].
  destruct (default (None, None) (s_killers st !! ply)) as [k0 k1] eqn:Ek0.
  assert (Hks : killersOk
    (if bool_decide (k0 = Some (fromTo m)) then <[ply := (k0, k1)]> (s_killers st)
     else <[ply := (Some (fromTo m), k0)]> (s_killers st))).
  { intros p a b. destruct (bool_decide (k0 = Some (fromTo m))) eqn:Eb.
    - destruct (decide (ply = p)) as [->|Hne].
      + rewrite lookup_insert_eq. intros [= <- <-].
        destruct (s_killers st !! p) as [[a b]|] eqn:E; simpl in Ek0.
        * injection Ek0 as -> ->. by apply (Hk p).
        * injection Ek0 as <- <-. by apply bool_decide_eq_true in Eb.
      + rewrite lookup_insert_ne by done. apply Hk.
    - apply bool_decide_eq_false in Eb.
      destruct (decide (ply = p)) as [->|Hne].
      + rewrite lookup_insert_eq. intros [= <- <-]. split; [eauto|congruence].
      + rewrite lookup_insert_ne by done. apply Hk. }
  assert (Hhs : posHist (<[pieceFromTo m :=
      default 0 (s_histTable st !! pieceFromTo m) + Z.of_nat depth * Z.of_nat depth]>
      (s_histTable st))).
  { apply (posHist_histAdd st); [nia|exact Hh]. }
  destruct prevMoveKey; split; simpl; assumption.
Qed.

Section WellFormedness.
Context {Chess : Type} `{ChessLib Chess}.

Lemma searchMove_wellFormed rec depth maximizing inCheckNow ply mi m L :
  AbWellFormed rec ->
  forall c st s c' st',
    searchMove rec depth maximizing inCheckNow ply mi m L c st = Some (s, c', st') ->
    wellFormed st -> wellFormed st'.
Proof.
  intros Hrec c st s c' st'. unfold searchMove.
  destruct (negb (l_searchedFirst L)); [apply Hrec|].
  destruct (rec c _ _ _ _ _ st) as [[[score c1] st1]|] eqn:E;
    cbn [mbind option_bind]; [|done].
  pose proof (Hrec _ _ _ _ _ _ _ _ _ _ E) as E'. clear E.
  destruct (_ && _).
  - intros E2 Hw. apply (Hrec _ _ _ _ _ _ _ _ _ _ E2); auto.
  - intros [= _ _ <-]. exact E'.
Qed.

Lemma abLoop_wellFormed rec depth maximizing inCheckNow staticEval prevMoveKey ply mvs :
  (0 < depth)%nat ->
  AbWellFormed rec ->
  forall L c st L' c' st',
    abLoop rec depth maximizing inCheckNow staticEval prevMoveKey ply mvs L c st
    = Some (L', c', st') ->
    wellFormed st -> wellFormed st'.
Proof.
  intros Hd Hrec. induction mvs as [|[mi m] rest IH]; intros L c st L' c' st'; simpl.
  - by intros [= _ _ <-].
  - destruct (futilityPruned _ _ _ _ _ _); [apply IH|].
    destruct (_ && (_ <? _)%nat); [apply IH|].
    destruct (searchMove _ _ _ _ _ _ _ _ _ _) as [[[score c2] st2]|] eqn:E;
      cbn [mbind option_bind]; [|done].
    pose proof (searchMove_wellFormed _ _ _ _ _ _ _ _ Hrec _ _ _ _ _ E) as E'. clear E.
    match goal with
    | |- context [recordCutoff ?s0 _ _ _ _] =>
        assert (W3 : wellFormed st -> wellFormed s0)
    end.
    { intros Hw.
      assert (W2 : wellFormed st2) by (apply E'; destruct Hw; by split).
      match goal with
      | |- wellFormed (if ?b then _ else _) => destruct b
      end; [apply wellFormed_histAdd; [lia|exact W2]|exact W2]. }
    destruct (Js.geb _ _).
    + intros [= _ _ <-] Hw. apply wellFormed_recordCutoff; auto.
    + intros Hl Hw. apply (IH _ _ _ _ _ _ Hl); auto.
Qed.

Lemma nullMove_wellFormed rec c depth alpha beta maximizing inCheckNow ply st r st' :
  AbWellFormed rec ->
  nullMove rec c depth alpha beta maximizing inCheckNow ply st = Some (r, st') ->
  wellFormed st -> wellFormed st'.
Proof.
  intros Hrec. unfold nullMove.
  destruct (negb inCheckNow && _); [|by intros [= _ <-]].
  destruct (load _) as [nullChess|]; [|by intros [= _ <-]].
  destruct (in_check nullChess); [by intros [= _ <-]|].
  destruct (rec nullChess _ _ _ _ _ st) as [[[ns c1] st1]|] eqn:E;
    cbn [mbind option_bind]; [|done].
  pose proof (Hrec _ _ _ _ _ _ _ _ _ _ E) as E'. clear E.
  destruct (maximizing && _); [by intros [= _ <-]|].
  destruct (negb maximizing && _); by intros [= _ <-].
Qed.

Lemma quiescence_wellFormed fuel c a b m st s c' st' :
  quiescence fuel c a b m st = Some (s, c', st') -> wellFormed st -> wellFormed st'.
Proof.
  intros Hq. apply quiescenceWith_sameTables in Hq. destruct Hq as [Ht _].
  by apply wellFormed_sameTables.
Qed.

Lemma razoring_wellFormed fuel c depth alpha maximizing inCheckNow st se rr c' st' :
  razoring (quiescence fuel) c depth alpha maximizing inCheckNow st
  = Some (se, rr, c', st') ->
  wellFormed st -> wellFormed st'.
Proof.
  unfold razoring.
  destruct (negb inCheckNow && _); [|by intros [= _ _ _ <-]].
  destruct (_ && Js.ltb _ _); [|by intros [= _ _ _ <-]].
  destruct (quiescence fuel c _ _ _ st) as [[[q c1] st1]|] eqn:E;
    cbn [mbind option_bind]; [|done].
  pose proof (quiescence_wellFormed _ _ _ _ _ _ _ _ _ E) as E'. clear E.
  destruct (Js.ltb q alpha); by intros [= _ _ _ <-].
Qed.

Lemma alphaBeta_wellFormed fuel : AbWellFormed (alphaBeta fuel).
Proof.
  induction fuel as [|n IH]; intros c d a b m p st s c' st'; simpl; [done|].
  assert (W0 : wellFormed st -> wellFormed (bumpNodes st)) by (by intros [? ?]).
  destruct (Js.geb _ _); [intros [= _ _ <-]; exact W0|].
  destruct (ttGet _ _ _ _ _); [intros [= _ _ <-]; exact W0|].
  destruct (d =? 0)%nat eqn:Ed.
  { intros Hq Hw. apply (quiescence_wellFormed _ _ _ _ _ _ _ _ _ Hq); auto. }
  apply Nat.eqb_neq in Ed.
  destruct (game_over c); [intros [= _ _ <-]; exact W0|].
  destruct (bool_decide (moves c = [])); [intros [= _ _ <-]; exact W0|].
  destruct (nullMove _ _ _ _ _ _ _ _ _) as [[nullRet st1]|] eqn:En;
    cbn [mbind option_bind]; [|done].
  pose proof (nullMove_wellFormed _ _ _ _ _ _ _ _ _ _ _ IH En) as En'. clear En.
  destruct nullRet; [intros [= _ _ <-]; auto|].
  destruct (razoring _ _ _ _ _ _ _) as [[[[se rr] c1] st2]|] eqn:Er;
    cbn [mbind option_bind]; [|done].
  pose proof (razoring_wellFormed _ _ _ _ _ _ _ _ _ _ _ Er) as Er'. clear Er.
  destruct rr; [intros [= _ _ <-]; auto|].
  destruct (abLoop _ _ _ _ _ _ _ _ _ _ _) as [[[L c2] st3]|] eqn:El;
    cbn [mbind option_bind]; [|done].
  assert (Hd : (0 < d)%nat) by lia.
  pose proof (abLoop_wellFormed _ d _ _ _ _ _ _ Hd IH _ _ _ _ _ _ El) as El'. clear El.
  intros [= _ _ <-] Hw.
  assert (W3 : wellFormed st3) by auto.
  destruct W3 as [? ?]. by split.
Qed.

Lemma aspirate_wellFormed fuel max d prev cs s cs' :
  aspirate (rootSearch fuel max) d prev cs = Some (s, cs') ->
  wellFormed (snd cs) -> wellFormed (snd cs').
Proof.
  assert (Hs : forall d lo hi cs s cs',
    rootSearch fuel max d lo hi cs = Some (s, cs') ->
    wellFormed (snd cs) -> wellFormed (snd cs')).
  { clear. intros d lo hi cs s cs'. unfold rootSearch.
    destruct (alphaBeta _ _ _ _ _ _ _ _) as [[[s1 c1] st1]|] eqn:E;
      cbn [mbind option_bind]; [|done].
    pose proof (alphaBeta_wellFormed _ _ _ _ _ _ _ _ _ _ _ E) as E'. clear E.
    by intros [= _ <-]. }
  unfold aspirate. destruct (1 <? d)%nat; [|apply Hs].
  destruct (rootSearch _ _ _ _ _ cs) as [[s1 cs1]|] eqn:E1; cbn [mbind option_bind]; [|done].
  pose proof (Hs _ _ _ _ _ _ E1) as E1'. clear E1.
  destruct (failsWindow s1 _ _); [|by intros [= _ <-]].
  destruct (rootSearch _ _ _ _ _ cs1) as [[s2 cs2]|] eqn:E2; cbn [mbind option_bind]; [|done].
  pose proof (Hs _ _ _ _ _ _ E2) as E2'. clear E2.
  destruct (failsWindow s2 _ _).
  - intros E3 Hw. apply (Hs _ _ _ _ _ _ E3); auto.
  - intros [= _ <-]. auto.
Qed.

Lemma deepen_wellFormed fuel max k :
  forall from score prev cs r cs',
    deepen (rootSearch fuel max) k from score prev cs = Some (r, cs') ->
    wellFormed (snd cs) -> wellFormed (snd cs').
Proof.
  induction k as [|k IH]; intros from score prev cs r cs'; simpl.
  - by intros [= _ <-].
  - destruct (aspirate _ from prev cs) as [[s cs1]|] eqn:Ea;
      cbn [mbind option_bind]; [|done].
    pose proof (aspirate_wellFormed _ _ _ _ _ _ _ Ea) as Ea'. clear Ea.
    destruct (isMateScore s); [by intros [= _ <-]|].
    intros Hd Hw. apply (IH _ _ _ _ _ _ Hd); auto.
Qed.

Lemma rootLoop_wellFormed fuel max depth mvs :
  forall c st results results' c' st',
    rootLoop fuel max depth mvs c st results = Some (results', c', st') ->
    wellFormed st -> wellFormed st'.
Proof.
  induction mvs as [|m rest IH]; intros c st results results' c' st'; simpl.
  - by intros [= _ _ <-].
  - destruct (rootMoveScore _ _ _ _) as [[score cs]|] eqn:E;
      cbn [mbind option_bind]; [|done].
    pose proof (deepen_wellFormed _ _ _ _ _ _ _ _ _ E) as E'. clear E. simpl in E'.
    intros Hl Hw. apply (IH _ _ _ _ _ _ Hl); auto.
Qed.

Lemma wellFormed_resetForRoot st : wellFormed (resetForRoot st).
Proof.
  split; simpl.
  - intros k v. unfold gravity. rewrite lookup_omap.
    destruct (s_histTable st !! k) as [v0|]; simpl; [|done].
    destruct (0 <? Z.shiftr v0 1) eqn:E; [|done].
    intros [= <-]. by apply Z.ltb_lt.
  - intros ply k0 k1. by rewrite lookup_empty.
Qed.

(** X13: whatever state a worker starts from, after a root search every history
    counter is positive and every killer pair has its first slot filled and
    holds two different moves: the history reset drops the counters that
    halve to zero, and the search only adds positive amounts and shifts a new
    killer in front of a different one. *)
Theorem searchRoot_tables_wellFormed (fuel : nat) (f : string) (depth multiPV : nat)
    (st : Search) (lines : list Line) (c' : Chess) (st' : Search) :
  searchRoot fuel f depth multiPV st = Some (Returned lines c' st') ->
  (forall k v, s_histTable st' !! k = Some v -> 0 < v)
  /\ (forall ply k0 k1, s_killers st' !! ply = Some (k0, k1) -> is_Some k0 /\ k0 <> k1).
Proof.
  unfold searchRoot. destruct (load f) as [c0|]; [|done].
  destruct (bool_decide (moves c0 = [])).
  - intros [= _ _ <-]. apply wellFormed_resetForRoot.
  - destruct (rootLoop _ _ _ _ _ _ _) as [[[results c1] st1]|] eqn:E;
      cbn [mbind option_bind]; [|done].
    intros [= _ _ <-].
    eapply rootLoop_wellFormed; [exact E|]. apply wellFormed_resetForRoot.
Qed.
End WellFormedness.

Lemma searchRoot_tables_wellFormed_witness :
  exists lines c' st',
    @searchRoot Game Book.lib 20 Book.endgameFen 3 4 warmSearch
    = Some (Returned lines c' st')
    /\ s_histTable st' !! "ka1b1" = None
    /\ s_histTable st' !! "pa2a4" = Some 5
    /\ s_killers st' !! 1%nat = Some (Some "b1c2", None)
    /\ posHist (s_histTable st')
    /\ killersOk (s_killers st').
Proof.
  destruct (@searchRoot Game Book.lib 20 Book.endgameFen 3 4 warmSearch)
    as [[|lines c' st']|] eqn:E.
  - vm_compute in E. discriminate.
  - exists lines, c', st'. split; [reflexivity|].
    destruct (@searchRoot_tables_wellFormed Game Book.lib _ _ _ _ _ _ _ _ E)
      as (Hh & Hk).
    assert (Hst : Some st'
      = match @searchRoot Game Book.lib 20 Book.endgameFen 3 4 warmSearch with
        | Some (Returned _ _ st) => Some st
        | _ => None
        end) by (rewrite E; reflexivity).
    vm_compute in Hst. injection Hst as Hst.
    split; [rewrite Hst; vm_compute; reflexivity|].
    split; [rewrite Hst; vm_compute; reflexivity|].
    split; [rewrite Hst; vm_compute; reflexivity|].
    split; [exact Hh|exact Hk].
  - vm_compute in E. discriminate.
Defined.

(** ** The transposition-table move in the move ordering *)

Lemma sorted_app_before {A} (R : A -> A -> Prop) (l1 l2 : list A) (y : A) :
  StronglySorted R (l1 ++ y :: l2) -> forall x, x ∈ l1 -> R x y.
Proof.
  induction l1 as [|a l1 IH]; intros Hs x Hx; [by apply elem_of_nil in Hx|].
  simpl in Hs. apply StronglySorted_inv in Hs as [Hs Ha].
  apply elem_of_cons in Hx as [->|Hx]; [|by apply IH].
  rewrite Forall_forall in Ha. apply Ha. apply elem_of_app. right. by left.
Qed.

Lemma Js_min_le_l (a b : Q) : (Js.min a b <= a)%Q.
Proof.
  unfold Js.min. destruct (Js.ltb b a) eqn:E; [|apply Qle_refl].
  apply Js_ltb_lt in E. by apply Qlt_le_weak.
Qed.

Lemma Js_min_nonneg (a b : Q) : (0 <= a)%Q -> (0 <= b)%Q -> (0 <= Js.min a b)%Q.
Proof. intros Ha Hb. unfold Js.min. by destruct (Js.ltb b a). Qed.

Lemma PIECE_VALUE_pos (t : PieceType) : 0 < PIECE_VALUE t.
Proof. by destruct t. Qed.

Lemma histTerm_bounds (st : Search) (k : string) :
  let t := match s_histTable st !! k with
           | Some h => if h =? 0 then 0%Q else Js.min 80 (Js.ofZ h / 100)
           | None => 0%Q
           end in
  (t <= 80)%Q /\ (posHist (s_histTable st) -> 0 <= t)%Q.
Proof.
  simpl. destruct (s_histTable st !! k) as [h|] eqn:E; [|split; [done|intros _; apply Qle_refl]].
  destruct (h =? 0); [split; [done|intros _; apply Qle_refl]|].
  split; [apply Js_min_le_l|]. intros Hp. apply Hp in E.
  apply Js_min_nonneg; [done|].
  unfold Js.ofZ, Qdiv. apply Qmult_le_0_compat; [|done].
  change 0%Q with (inject_Z 0). rewrite <- Zle_Qle. lia.
Qed.

Lemma scoreMove_quiet_upper st ply prevMoveKey ttMove m :
  isQuietMove m = true -> ttMove <> Some (fromTo m) ->
  (scoreMove st ply prevMoveKey ttMove m <= 245)%Q.
Proof.
  intros Hq Hne. unfold scoreMove. rewrite Hq.
  unfold isQuietMove in Hq. apply andb_true_iff in Hq as [Hc Hp].
  apply negb_true_iff, bool_decide_eq_false in Hc, Hp.
  destruct (m_captured m); [exfalso; apply Hc; eauto|].
  destruct (m_promotion m); [exfalso; apply Hp; eauto|].
  rewrite bool_decide_eq_false_2 by done.
  pose proof (histTerm_bounds st (pieceFromTo m)) as [Hh _]. simpl in Hh.
  revert Hh. generalize (match s_histTable st !! pieceFromTo m with
           | Some h => if h =? 0 then 0%Q else Js.min 80 (Js.ofZ h / 100)
           | None => 0%Q
           end). intros t Ht.
  destruct (bool_decide (fromTo m ∈ killerSet st ply));
    destruct (true && bool_decide _); lra.
Qed.

Lemma scoreMove_tt_lower st ply prevMoveKey m :
  posHist (s_histTable st) -> m_captured m = None ->
  (300 <= scoreMove st ply prevMoveKey (Some (fromTo m)) m)%Q.
Proof.
  intros Hp Hc. unfold scoreMove. rewrite Hc.
  rewrite bool_decide_eq_true_2 by done.
  pose proof (histTerm_bounds st (pieceFromTo m)) as [_ Hh]. simpl in Hh.
  specialize (Hh Hp). revert Hh.
  generalize (match s_histTable st !! pieceFromTo m with
           | Some h => if h =? 0 then 0%Q else Js.min 80 (Js.ofZ h / 100)
           | None => 0%Q
           end). intros t Ht.
  assert (Hpr : (0 <= match m_promotion m with
                      | Some pr => Js.ofZ (PIECE_VALUE pr * 8)
                      | None => 0
                      end)%Q).
  { destruct (m_promotion m) as [pr|]; [|apply Qle_refl].
    unfold Js.ofZ. change 0%Q with (inject_Z 0). rewrite <- Zle_Qle.
    pose proof (PIECE_VALUE_pos pr). lia. }
  revert Hpr. generalize (match m_promotion m with
                      | Some pr => Js.ofZ (PIECE_VALUE pr * 8)
                      | None => 0%Q
                      end). intros p Hpr.
  destruct (bool_decide (fromTo m ∈ killerSet st ply));
    destruct (isQuietMove m); simpl;
    try destruct (bool_decide (_ = Some (pieceFromTo m))); lra.
Qed.

(** X5: when the transposition-table move of the position is not a capture, no
    quiet move with a different key is ordered before it: its bonus of 300
    outweighs the killer, countermove and history bonuses together (at most
    245).  Captures and promotions may still come first. *)
Theorem orderMoves_tt_move_before_quiets (mvs : list Move) (ply : nat)
    (prevMoveKey : option string) (st : Search) (m0 : Move) (l1 l2 : list Move) :
  posHist (s_histTable st) ->
  m_captured m0 = None ->
  orderMoves mvs ply prevMoveKey (Some (fromTo m0)) st = l1 ++ m0 :: l2 ->
  forall x, x ∈ l1 -> isQuietMove x = false \/ fromTo x = fromTo m0.
Proof.
  intros Hp Hc Ho x Hx.
  pose proof (sortDesc_sorted (scoreMove st ply prevMoveKey (Some (fromTo m0))) mvs) as Hs.
  unfold orderMoves in Ho. rewrite Ho in Hs.
  pose proof (sorted_app_before _ _ _ _ Hs x Hx) as Hle. simpl in Hle.
  destruct (isQuietMove x) eqn:Hq; [|by left]. right.
  destruct (decide (fromTo x = fromTo m0)) as [|Hne]; [done|]. exfalso.
  pose proof (scoreMove_tt_lower st ply prevMoveKey m0 Hp Hc) as Hlo.
  assert (Hne' : Some (fromTo m0) <> Some (fromTo x)) by congruence.
  pose proof (scoreMove_quiet_upper st ply prevMoveKey _ x Hq Hne') as Hup.
  lra.
Qed.

Lemma orderMoves_tt_move_before_quiets_witness :
  orderMoves [mkMove "g1" "f3" Knight White None None "Nf3";
              mkMove "e2" "e4" Pawn White None None "e4";
              mkMove "d4" "e5" Pawn White (Some Queen) None "dxe5"]
             0 None (Some "e2e4") Book.emptySearch
  = [mkMove "d4" "e5" Pawn White (Some Queen) None "dxe5";
     mkMove "e2" "e4" Pawn White None None "e4";
     mkMove "g1" "f3" Knight White None None "Nf3"]
  /\ forall x, x ∈ [mkMove "d4" "e5" Pawn White (Some Queen) None "dxe5"] ->
       isQuietMove x = false
       \/ fromTo x = fromTo (mkMove "e2" "e4" Pawn White None None "e4").
Proof.
  assert (Ho : orderMoves [mkMove "g1" "f3" Knight White None None "Nf3";
              mkMove "e2" "e4" Pawn White None None "e4";
              mkMove "d4" "e5" Pawn White (Some Queen) None "dxe5"]
             0 None (Some "e2e4") Book.emptySearch
    = [mkMove "d4" "e5" Pawn White (Some Queen) None "dxe5"]
      ++ mkMove "e2" "e4" Pawn White None None "e4"
      :: [mkMove "g1" "f3" Knight White None None "Nf3"])
    by (vm_compute; reflexivity).
  split; [exact Ho|].
  eapply (orderMoves_tt_move_before_quiets _ 0 None Book.emptySearch
            (mkMove "e2" "e4" Pawn White None None "e4")).
  - intros k v Hk. simpl in Hk. by rewrite lookup_empty in Hk.
  - reflexivity.
  - exact Ho.
Defined.

(** ** The worker pool *)

Lemma drainFrom_fields idxs : forall p,
  p_workers (drainFrom idxs p) = p_workers p
  /\ p_settled (drainFrom idxs p) = p_settled p
  /\ p_dispatched (drainFrom idxs p) = p_dispatched p
  /\ (forall i, is_Some (p_active p !! i) -> is_Some (p_active (drainFrom idxs p) !! i))
  /\ (forall i, is_Some (p_active (drainFrom idxs p) !! i) ->
        is_Some (p_active p !! i) \/ i ∈ idxs).
Proof.
  induction idxs as [|i rest IH]; intros p; simpl.
  - repeat split; auto.
  - destruct (bool_decide (is_Some (p_active p !! i))) eqn:Ei.
    { destruct (IH p) as (? & ? & ? & ? & Hb). repeat split; auto.
      intros j Hj. destruct (Hb j Hj); [by left|]. right. by apply elem_of_cons; right. }
    destruct (p_queue p) as [|job queue].
    { repeat split; auto. }
    match goal with |- context [drainFrom rest ?q] => destruct (IH q) as (? & ? & ? & Ha & Hb) end.
    simpl in *. repeat split; auto.
    + intros j Hj. apply Ha. destruct (decide (i = j)) as [->|Hne].
      * rewrite lookup_insert_eq. eauto.
      * by rewrite lookup_insert_ne.
    + intros j Hj. destruct (Hb j Hj) as [Hc|Hc].
      * destruct (decide (i = j)) as [->|Hne]; [right; by left|].
        rewrite lookup_insert_ne in Hc by done. by left.
      * right. by apply elem_of_cons; right.
Qed.

Lemma drainFrom_busy idxs : forall p,
  p_queue (drainFrom idxs p) = []
  \/ forall i, i ∈ idxs -> is_Some (p_active (drainFrom idxs p) !! i).
Proof.
  induction idxs as [|i rest IH]; intros p; simpl.
  - right. intros i Hi. by apply elem_of_nil in Hi.
  - destruct (bool_decide (is_Some (p_active p !! i))) eqn:Ei.
    { apply bool_decide_eq_true in Ei.
      destruct (IH p) as [Hq|Hall]; [by left|]. right.
      intros j Hj. apply elem_of_cons in Hj as [->|Hj]; [|by apply Hall].
      by apply (drainFrom_fields rest p). }
    destruct (p_queue p) as [|job queue] eqn:Eq; [by left|].
    match goal with |- context [drainFrom rest ?q] =>
      destruct (IH q) as [Hq|Hall]; [by left|];
      pose proof (drainFrom_fields rest q) as (_ & _ & _ & Ha & _)
    end.
    right. intros j Hj. apply elem_of_cons in Hj as [->|Hj]; [|by apply Hall].
    apply Ha. simpl. rewrite lookup_insert_eq. eauto.
Qed.

Lemma drain_busy p :
  p_queue (drain p) = []
  \/ forall i, (i < p_workers (drain p))%nat -> is_Some (p_active (drain p) !! i).
Proof.
  unfold drain. destruct (drainFrom_busy (seq 0 (p_workers p)) p) as [Hq|Hall]; [by left|].
  right. intros i Hi. apply Hall.
  destruct (drainFrom_fields (seq 0 (p_workers p)) p) as (Hw & _).
  rewrite Hw in Hi. apply elem_of_seq. lia.
Qed.

Lemma drain_bounded p :
  (forall i, is_Some (p_active p !! i) -> (i < p_workers p)%nat) ->
  forall i, is_Some (p_active (drain p) !! i) -> (i < p_workers (drain p))%nat.
Proof.
  intros Hb i Hi. unfold drain in *.
  destruct (drainFrom_fields (seq 0 (p_workers p)) p) as (Hw & _ & _ & _ & Hfrom).
  rewrite Hw. destruct (Hfrom i Hi) as [Ha|Hs]; [by apply Hb|].
  apply elem_of_seq in Hs. lia.
Qed.

Lemma active_size_bounded (m : gmap nat Job) (n : nat) :
  (forall i, is_Some (m !! i) -> (i < n)%nat) -> (size m <= n)%nat.
Proof.
  intros Hb. rewrite <- size_dom.
  rewrite <- (size_set_seq (C := gset nat) 0 n).
  apply subseteq_size. intros i Hi. apply elem_of_dom in Hi.
  apply elem_of_set_seq. specialize (Hb i Hi). lia.
Qed.

Lemma poolStep_busy p ev :
  let p' := poolStep p ev in
  p_queue p' = [] \/ forall i, (i < p_workers p')%nat -> is_Some (p_active p' !! i).
Proof. destruct ev; simpl; try apply drain_busy. by left. Qed.

Lemma poolStep_bounded p ev n :
  (p_workers p <= n)%nat ->
  (forall i, is_Some (p_active p !! i) -> (i < p_workers p)%nat) ->
  let p' := poolStep p ev in
  (p_workers p' <= n)%nat
  /\ forall i, is_Some (p_active p' !! i) -> (i < p_workers p')%nat.
Proof.
  intros Hn Hb. assert (Hd : forall q, p_workers (drain q) = p_workers q).
  { intros q. apply (drainFrom_fields (seq 0 (p_workers q)) q). }
  destruct ev as [task|idx data|idx|]; simpl.
  - unfold dispatch. split; [by rewrite Hd|]. by apply drain_bounded.
  - unfold onMessage, settle. split; [by rewrite Hd|]. apply drain_bounded.
    simpl. intros i Hi. apply Hb. destruct (decide (idx = i)) as [->|Hne].
    + rewrite lookup_delete_eq in Hi. by destruct Hi.
    + by rewrite lookup_delete_ne in Hi.
  - unfold onError, settle. split; [by rewrite Hd|]. apply drain_bounded.
    simpl. intros i Hi. apply Hb. destruct (decide (idx = i)) as [->|Hne].
    + rewrite lookup_delete_eq in Hi. by destruct Hi.
    + by rewrite lookup_delete_ne in Hi.
  - split; [lia|]. intros i Hi. rewrite lookup_empty in Hi. by destruct Hi.
Qed.

Lemma poolRun_snoc evs ev p : poolRun (evs ++ [ev]) p = poolStep (poolRun evs p) ev.
Proof. unfold poolRun. by rewrite fold_left_app. Qed.

(** X20: the pool is work-conserving and bounded.  In any run from a new pool of
    [size] workers, either no job waits in the queue or every worker holds
    one; only worker indices below [size] hold a job, so at most [size] tasks
    are in flight. *)
Theorem pool_work_conserving (size : nat) (evs : list PoolEvent) :
  let p := poolRun evs (newPool size) in
  (p_queue p = [] \/ forall i, (i < p_workers p)%nat -> is_Some (p_active p !! i))
  /\ (forall i, is_Some (p_active p !! i) -> (i < size)%nat)
  /\ (stdpp.base.size (p_active p) <= size)%nat.
Proof.
  cbv zeta.
  assert (Hinv : (p_workers (poolRun evs (newPool size)) <= size)%nat
    /\ (forall i, is_Some (p_active (poolRun evs (newPool size)) !! i) ->
          (i < p_workers (poolRun evs (newPool size)))%nat)).
  { induction evs as [|ev evs IH] using rev_ind.
    - simpl. split; [lia|]. intros i Hi. rewrite lookup_empty in Hi. by destruct Hi.
    - rewrite poolRun_snoc. destruct IH as [Hn Hb]. by apply poolStep_bounded. }
  destruct Hinv as [Hn Hb].
  assert (Hb' : forall i, is_Some (p_active (poolRun evs (newPool size)) !! i) ->
                  (i < size)%nat).
  { intros i Hi. specialize (Hb i Hi). lia. }
  split; [|split; [exact Hb'|by apply active_size_bounded]].
  destruct evs as [|ev evs _] using rev_ind; [by left|].
  rewrite poolRun_snoc. apply poolStep_busy.
Qed.

Lemma drainFrom_fifo idxs : forall p,
  List.map snd (p_posted (drainFrom idxs p)) ++ p_queue (drainFrom idxs p)
  = List.map snd (p_posted p) ++ p_queue p.
Proof.
  induction idxs as [|i rest IH]; intros p; simpl; [done|].
  destruct (bool_decide (is_Some (p_active p !! i))); [apply IH|].
  destruct (p_queue p) as [|job queue] eqn:Eq; [by rewrite Eq|].
  rewrite IH. simpl. rewrite map_app. simpl. by rewrite <- app_assoc.
Qed.

Lemma drainFrom_accounted idxs : forall p, accounted p -> accounted (drainFrom idxs p).
Proof.
  induction idxs as [|i rest IH]; intros p Hp; simpl; [done|].
  destruct (bool_decide (is_Some (p_active p !! i))) eqn:Ei; [by apply IH|].
  apply bool_decide_eq_false in Ei.
  destruct (p_queue p) as [|job queue]; [done|].
  apply IH. unfold accounted in *. simpl.
  assert (Hnone : p_active p !! i = None).
  { destruct (p_active p !! i) eqn:E; [exfalso; apply Ei; eauto|done]. }
  rewrite (map_to_list_insert _ _ _ Hnone). simpl.
  rewrite map_app. simpl.
  rewrite <- Hp. rewrite <- app_assoc.
  apply Permutation_app_head. apply Permutation_cons_append.
Qed.

Lemma settle_accounted idx o p : accounted p -> accounted (settle idx o p).
Proof.
  intros Hp. unfold settle, drain. apply drainFrom_accounted.
  unfold accounted in *. simpl.
  destruct (p_active p !! idx) as [j|] eqn:E.
  - rewrite <- Hp, map_app. simpl. rewrite <- app_assoc. simpl.
    apply Permutation_app_head.
    rewrite <- (map_to_list_delete _ _ _ E). done.
  - by rewrite delete_id.
Qed.

Lemma dispatch_accounted task p : accounted p -> accounted (dispatch task p).
Proof. intros Hp. unfold dispatch, drain. by apply drainFrom_accounted. Qed.

Lemma drain_dispatched p : p_dispatched (drain p) = p_dispatched p.
Proof. apply (drainFrom_fields (seq 0 (p_workers p)) p). Qed.

Lemma drain_settled p : p_settled (drain p) = p_settled p.
Proof. apply (drainFrom_fields (seq 0 (p_workers p)) p). Qed.

Lemma drain_workers p : p_workers (drain p) = p_workers p.
Proof. apply (drainFrom_fields (seq 0 (p_workers p)) p). Qed.

Lemma poolStep_fifo p ev :
  isTerminate ev = false ->
  List.map snd (p_posted (poolStep p ev)) ++ p_queue (poolStep p ev)
  = List.map snd (p_posted p) ++ p_queue p ++ jobsFrom (p_dispatched p) [ev]
  /\ (forall evs, jobsFrom (p_dispatched p) (ev :: evs)
                  = jobsFrom (p_dispatched p) [ev]
                    ++ jobsFrom (p_dispatched (poolStep p ev)) evs)
  /\ p_workers (poolStep p ev) = p_workers p
  /\ (accounted p -> accounted (poolStep p ev)).
Proof.
  intros Hev. destruct ev as [task|idx data|idx|]; simpl in *; [| | |done].
  - unfold dispatch. rewrite drain_dispatched, drain_workers. unfold drain.
    rewrite drainFrom_fifo. simpl.
    split; [done|]. split; [done|]. split; [done|].
    intros Hp. by apply drainFrom_accounted.
  - unfold onMessage. split.
    { unfold settle. unfold drain. rewrite drainFrom_fifo. simpl. by rewrite !app_nil_r. }
    split; [intros evs; unfold settle; by rewrite drain_dispatched|].
    split; [unfold settle; by rewrite drain_workers|].
    apply settle_accounted.
  - unfold onError. split.
    { unfold settle. unfold drain. rewrite drainFrom_fifo. simpl. by rewrite !app_nil_r. }
    split; [intros evs; unfold settle; by rewrite drain_dispatched|].
    split; [unfold settle; by rewrite drain_workers|].
    apply settle_accounted.
Qed.

Lemma poolRun_fifo evs : forall p,
  forallb (fun ev => negb (isTerminate ev)) evs = true ->
  List.map snd (p_posted (poolRun evs p)) ++ p_queue (poolRun evs p)
  = List.map snd (p_posted p) ++ p_queue p ++ jobsFrom (p_dispatched p) evs
  /\ p_workers (poolRun evs p) = p_workers p
  /\ (accounted p -> accounted (poolRun evs p)).
Proof.
  induction evs as [|ev evs IH]; intros p Hnt.
  - simpl. by rewrite !app_nil_r.
  - simpl in Hnt. apply andb_true_iff in Hnt as [Hev Hnt].
    apply negb_true_iff in Hev.
    destruct (IH (poolStep p ev) Hnt) as (Hf & Hw & Ha).
    destruct (poolStep_fifo p ev Hev) as (Hf1 & Hj & Hw1 & Ha1).
    change (poolRun (ev :: evs) p) with (poolRun evs (poolStep p ev)).
    rewrite Hf, Hw, Hw1, Hj.
    split; [|split; [done|auto]].
    rewrite !app_assoc. f_equal. rewrite <- !app_assoc. exact Hf1.
Qed.

Lemma jobsFrom_promises evs : forall n j,
  j ∈ jobsFrom n evs -> (n <= j_promise j)%nat.
Proof.
  induction evs as [|ev evs IH]; intros n j Hj; simpl in Hj; [by apply elem_of_nil in Hj|].
  destruct ev; try (by apply IH).
  apply elem_of_cons in Hj as [->|Hj]; [simpl; lia|].
  apply IH in Hj. lia.
Qed.

Lemma jobsFrom_NoDup evs : forall n, NoDup (List.map j_promise (jobsFrom n evs)).
Proof.
  induction evs as [|ev evs IH]; intros n; simpl; [constructor|].
  destruct ev; try apply IH. simpl. constructor; [|apply IH].
  intros Hin. apply list_elem_of_fmap in Hin as (j & Hj & Hin).
  apply jobsFrom_promises in Hin. simpl in Hj. lia.
Qed.

(** X21: without [terminate], the pool hands the tasks to the workers in the
    order of the [dispatch] calls, skipping none: the posted jobs followed
    by the queue are the dispatched jobs.  Every posted job is either still
    held by a worker or settled, and no promise is settled twice. *)
Theorem pool_fifo_accounting (size : nat) (evs : list PoolEvent) :
  forallb (fun ev => negb (isTerminate ev)) evs = true ->
  let p := poolRun evs (newPool size) in
  List.map snd (p_posted p) ++ p_queue p = jobsFrom 0 evs
  /\ Permutation (List.map fst (p_settled p) ++ List.map snd (map_to_list (p_active p)))
                 (List.map snd (p_posted p))
  /\ NoDup (List.map (fun s => j_promise (fst s)) (p_settled p)).
Proof.
  intros Hnt. cbv zeta.
  destruct (poolRun_fifo evs (newPool size) Hnt) as (Hf & _ & Ha).
  simpl in Hf. split; [exact Hf|].
  assert (Hacc : accounted (poolRun evs (newPool size))).
  { apply Ha. unfold accounted. simpl. by rewrite map_to_list_empty. }
  split; [exact Hacc|].
  pose proof (jobsFrom_NoDup evs 0) as Hnd. rewrite <- Hf in Hnd.
  rewrite map_app in Hnd. apply NoDup_app in Hnd as (Hnd & _).
  unfold accounted in Hacc. rewrite <- Hacc in Hnd.
  rewrite map_app in Hnd. apply NoDup_app in Hnd as (Hnd & _).
  by rewrite map_map in Hnd.
Qed.

Lemma drain_idle q : p_workers q = 0%nat -> drain q = q.
Proof. intros Hw. unfold drain. by rewrite Hw. Qed.

Lemma silent_step p ev :
  p_workers p = 0%nat -> p_active p = ∅ ->
  p_workers (poolStep p ev) = 0%nat /\ p_active (poolStep p ev) = ∅
  /\ p_posted (poolStep p ev) = p_posted p
  /\ p_settled (poolStep p ev) = p_settled p.
Proof.
  intros Hw Ha. destruct ev as [task|idx data|idx|]; simpl.
  - unfold dispatch. rewrite drain_idle by done. done.
  - unfold onMessage, settle. rewrite drain_idle by done. simpl.
    by rewrite Ha, lookup_empty, delete_empty.
  - unfold onError, settle. rewrite drain_idle by done. simpl.
    by rewrite Ha, lookup_empty, delete_empty.
  - done.
Qed.

(** X22: a terminated pool is silent: the jobs it held are neither resolved nor
    rejected, and whatever happens afterwards no task is posted and no
    promise is settled, so a promise pending at that moment, or returned by
    a later [dispatch], stays pending. *)
Theorem pool_terminated_is_silent (p : Pool) (evs : list PoolEvent) :
  let p' := poolRun evs (terminate p) in
  p_posted p' = p_posted p
  /\ p_settled p' = p_settled p
  /\ p_active p' = ∅.
Proof.
  cbv zeta.
  assert (Hgen : forall q, p_workers q = 0%nat -> p_active q = ∅ ->
    p_posted (poolRun evs q) = p_posted q
    /\ p_settled (poolRun evs q) = p_settled q
    /\ p_active (poolRun evs q) = ∅).
  { induction evs as [|ev evs IH]; intros q Hw Ha; [done|].
    destruct (silent_step q ev Hw Ha) as (Hw' & Ha' & Hp & Hs).
    change (poolRun (ev :: evs) q) with (poolRun evs (poolStep q ev)).
    destruct (IH _ Hw' Ha') as (-> & -> & ->). by rewrite Hp, Hs. }
  apply (Hgen (terminate p)); done.
Qed.

Lemma answered_noTerminate evs : forall p,
  answered p evs -> forallb (fun ev => negb (isTerminate ev)) evs = true.
Proof.
  induction evs as [|ev evs IH]; intros p; simpl; [done|].
  intros [Hev Hrest]. rewrite (IH _ Hrest). by destruct ev.
Qed.

Lemma answered_jobs evs : forall p n, answered p evs -> jobsFrom n evs = [].
Proof.
  induction evs as [|ev evs IH]; intros p n; simpl; [done|].
  intros [Hev Hrest]. destruct ev; try done; by eapply IH.
Qed.

Lemma answered_settled evs : forall p,
  answered p evs ->
  length (p_settled (poolRun evs p)) = (length (p_settled p) + length evs)%nat.
Proof.
  induction evs as [|ev evs IH]; intros p; simpl; [lia|].
  intros [Hev Hrest].
  change (fold_left poolStep evs (poolStep p ev)) with (poolRun evs (poolStep p ev)).
  rewrite (IH _ Hrest).
  destruct ev as [task|idx data|idx|]; try done; simpl;
    unfold onMessage, onError, settle; rewrite drain_settled; simpl;
    destruct Hev as [j ->]; rewrite length_app; simpl; lia.
Qed.

Lemma dispatches_jobs tasks : forall n,
  List.map j_task (jobsFrom n (List.map Dispatch tasks)) = tasks
  /\ length (jobsFrom n (List.map Dispatch tasks)) = length tasks.
Proof.
  induction tasks as [|t tasks IH]; intros n; simpl; [done|].
  destruct (IH (S n)) as [-> ->]. done.
Qed.

Lemma dispatches_settled tasks : forall p,
  p_settled (poolRun (List.map Dispatch tasks) p) = p_settled p.
Proof.
  induction tasks as [|t tasks IH]; intros p; [done|].
  change (poolRun (List.map Dispatch (t :: tasks)) p)
    with (poolRun (List.map Dispatch tasks) (dispatch t p)).
  rewrite IH. unfold dispatch. by rewrite drain_settled.
Qed.

Lemma jobsFrom_app evs1 : forall n evs2,
  jobsFrom n (evs1 ++ evs2)
  = jobsFrom n evs1 ++ jobsFrom (n + length (jobsFrom n evs1)) evs2.
Proof.
  induction evs1 as [|ev evs1 IH]; intros n evs2; simpl.
  - by rewrite Nat.add_0_r.
  - destruct ev; try apply IH. simpl. rewrite IH. do 3 f_equal. lia.
Qed.

Lemma pool_completes (size : nat) (tasks : list Task)
    (evs : list PoolEvent) :
  answered (poolRun (List.map Dispatch tasks) (newPool size)) evs ->
  length evs = length tasks ->
  let p := poolRun evs (poolRun (List.map Dispatch tasks) (newPool size)) in
  p_queue p = []
  /\ p_active p = ∅
  /\ List.map snd (p_posted p) = jobsFrom 0 (List.map Dispatch tasks)
  /\ Permutation (List.map fst (p_settled p)) (List.map snd (p_posted p)).
Proof.
  intros Hans Hlen. cbv zeta.
  set (p0 := poolRun (List.map Dispatch tasks) (newPool size)) in *.
  assert (Hrun : poolRun evs p0 = poolRun (List.map Dispatch tasks ++ evs) (newPool size)).
  { unfold poolRun, p0, poolRun. by rewrite fold_left_app. }
  assert (Hnt : forallb (fun ev => negb (isTerminate ev))
                  (List.map Dispatch tasks ++ evs) = true).
  { rewrite forallb_app. rewrite (answered_noTerminate _ _ Hans), andb_true_r.
    clear. induction tasks; [done|]. simpl. done. }
  destruct (poolRun_fifo _ (newPool size) Hnt) as (Hf & _ & Ha).
  assert (Hacc : accounted (poolRun evs p0)).
  { rewrite Hrun. apply Ha. unfold accounted. simpl. by rewrite map_to_list_empty. }
  rewrite <- Hrun in Hf. simpl in Hf.
  rewrite jobsFrom_app, (answered_jobs _ _ _ Hans), app_nil_r in Hf.
  pose proof (answered_settled _ _ Hans) as Hs.
  unfold p0 in Hs at 2. rewrite dispatches_settled in Hs. simpl in Hs.
  destruct (dispatches_jobs tasks 0) as [Hjt Hjl].
  pose proof (f_equal length Hf) as Hfl.
  rewrite length_app, length_map, Hjl in Hfl.
  pose proof (Permutation_length Hacc) as Hal.
  rewrite length_app, !length_map in Hal.
  assert (Hq : p_queue (poolRun evs p0) = []).
  { apply length_zero_iff_nil. lia. }
  assert (Hact : p_active (poolRun evs p0) = ∅).
  { apply map_to_list_empty_iff. apply length_zero_iff_nil. lia. }
  rewrite Hq, app_nil_r in Hf.
  unfold accounted in Hacc. rewrite Hact, map_to_list_empty in Hacc.
  simpl in Hacc. rewrite app_nil_r in Hacc.
  by repeat split.
Qed.

(** X23: the coordinator's use of the pool: all tasks are dispatched, then the
    workers answer.  Once as many worker events have come in as tasks were
    dispatched, each from a worker holding a job at that moment, the queue
    and the workers are empty, every task has been posted, in dispatch
    order, and every promise has been settled exactly once. *)
Theorem pool_settles_every_task (size : nat) (tasks : list Task)
    (evs : list PoolEvent) :
  answered (poolRun (List.map Dispatch tasks) (newPool size)) evs ->
  length evs = length tasks ->
  let p := poolRun evs (poolRun (List.map Dispatch tasks) (newPool size)) in
  p_queue p = []
  /\ p_active p = ∅
  /\ List.map (fun s => j_task (snd s)) (p_posted p) = tasks
  /\ Permutation (List.map (fun s => j_task (fst s)) (p_settled p)) tasks
  /\ NoDup (List.map (fun s => j_promise (fst s)) (p_settled p)).
Proof.
  intros Hans Hlen. cbv zeta.
  destruct (pool_completes size tasks evs Hans Hlen) as (Hq & Hact & Hposted & Hsettled).
  destruct (dispatches_jobs tasks 0) as [Hjt _].
  split; [exact Hq|]. split; [exact Hact|]. split.
  { rewrite <- (map_map snd j_task), Hposted. exact Hjt. }
  split.
  { rewrite <- (map_map fst j_task), Hsettled, Hposted, Hjt. done. }
  rewrite <- (map_map fst j_promise), Hsettled, Hposted. apply jobsFrom_NoDup.
Qed.

Lemma poolRun_dispatched evs : forall p n,
  p_dispatched (poolRun evs p) = (p_dispatched p + length (jobsFrom n evs))%nat.
Proof.
  induction evs as [|ev evs IH]; intros p n; [simpl; lia|].
  change (poolRun (ev :: evs) p) with (poolRun evs (poolStep p ev)).
  destruct ev as [task|idx data|idx|]; simpl.
  - rewrite (IH _ (S n)). unfold dispatch. rewrite drain_dispatched. simpl. lia.
  - rewrite (IH _ n). unfold onMessage, settle. by rewrite drain_dispatched.
  - rewrite (IH _ n). unfold onError, settle. by rewrite drain_dispatched.
  - by rewrite (IH _ n).
Qed.

(** X24: the pool never stalls: in a run without [terminate] on a pool with at
    least one worker, as long as some promise is unsettled some worker
    holds a job. *)
Theorem pool_never_stalls (size : nat) (evs : list PoolEvent) :
  (0 < size)%nat ->
  forallb (fun ev => negb (isTerminate ev)) evs = true ->
  let p := poolRun evs (newPool size) in
  (length (p_settled p) < p_dispatched p)%nat ->
  p_active p <> ∅.
Proof.
  intros Hsize Hnt. cbv zeta. intros Hlt Hempty.
  destruct (poolRun_fifo evs (newPool size) Hnt) as (Hf & Hw & Ha).
  simpl in Hf, Hw.
  assert (Hacc : accounted (poolRun evs (newPool size))).
  { apply Ha. unfold accounted. simpl. by rewrite map_to_list_empty. }
  unfold accounted in Hacc. rewrite Hempty, map_to_list_empty in Hacc.
  simpl in Hacc. rewrite app_nil_r in Hacc.
  assert (Hbusy : p_queue (poolRun evs (newPool size)) = []
    \/ forall i, (i < p_workers (poolRun evs (newPool size)))%nat ->
         is_Some (p_active (poolRun evs (newPool size)) !! i)).
  { destruct evs as [|ev evs _] using rev_ind; [by left|].
    rewrite poolRun_snoc. apply poolStep_busy. }
  destruct Hbusy as [Hq|Hall].
  - rewrite Hq, app_nil_r in Hf.
    rewrite (poolRun_dispatched evs (newPool size) 0) in Hlt. simpl in Hlt.
    rewrite <- Hf in Hlt. apply Permutation_length in Hacc.
    rewrite !length_map in Hacc. rewrite !length_map in Hlt. simpl in Hlt. lia.
  - rewrite Hw in Hall. specialize (Hall 0%nat Hsize).
    rewrite Hempty, lookup_empty in Hall. by destruct Hall.
Qed.

Lemma pool_fifo_accounting_witness :
  List.map snd (p_posted (poolRun (List.map Dispatch threeTasks ++ threeAnswers) (newPool 2)))
  ++ p_queue (poolRun (List.map Dispatch threeTasks ++ threeAnswers) (newPool 2))
  = jobsFrom 0 (List.map Dispatch threeTasks ++ threeAnswers).
Proof.
  exact (proj1 (pool_fifo_accounting 2 (List.map Dispatch threeTasks ++ threeAnswers)
                  eq_refl)).
Defined.

Lemma pool_settles_every_task_witness :
  p_queue (poolRun threeAnswers (poolRun (List.map Dispatch threeTasks) (newPool 2))) = []
  /\ Permutation
       (List.map (fun s => j_task (fst s))
          (p_settled (poolRun threeAnswers
                        (poolRun (List.map Dispatch threeTasks) (newPool 2)))))
       threeTasks.
Proof.
  assert (Hans : answered (poolRun (List.map Dispatch threeTasks) (newPool 2)) threeAnswers).
  { vm_compute. repeat split; eexists; reflexivity. }
  destruct (pool_settles_every_task 2 threeTasks threeAnswers Hans eq_refl)
    as (Hq & _ & _ & Hperm & _).
  split; [exact Hq|exact Hperm].
Defined.

Lemma pool_never_stalls_witness :
  p_active (poolRun (List.map Dispatch threeTasks) (newPool 2)) <> ∅.
Proof.
  apply (pool_never_stalls 2 (List.map Dispatch threeTasks)).
  - lia.
  - reflexivity.
  - vm_compute. lia.
Defined.

(** ** The lines built by the coordinator *)

Lemma mapGet_Some_elem {V} (k : string) (v : V) (l : list (string * V)) :
  mapGet k l = Some v -> (k, v) ∈ l.
Proof.
  induction l as [|[k' v'] l IH]; simpl; [done|].
  destruct (bool_decide (k' = k)) eqn:E.
  - apply bool_decide_eq_true in E. intros [= ->]. subst. by left.
  - intros Hg. right. by apply IH.
Qed.

Lemma mapGet_None_keys {V} (k : string) (l : list (string * V)) :
  mapGet k l = None -> ~ In k (List.map fst l).
Proof.
  induction l as [|[k' v'] l IH]; simpl; [tauto|].
  destruct (bool_decide (k' = k)) eqn:E; [done|].
  apply bool_decide_eq_false in E. intros Hg [Heq|Hin]; [done|]. by apply IH.
Qed.

Lemma mapSet_keys_present {V} (k : string) (v : V) (l : list (string * V)) :
  In k (List.map fst l) -> List.map fst (mapSet k v l) = List.map fst l.
Proof.
  induction l as [|[k' v'] l IH]; simpl; [done|].
  destruct (bool_decide (k' = k)) eqn:E.
  - apply bool_decide_eq_true in E. subst. done.
  - apply bool_decide_eq_false in E. intros [Heq|Hin]; [done|].
    simpl. by rewrite IH.
Qed.

Lemma mapSet_Forall {V} (P : string * V -> Prop) (k : string) (v : V)
    (l : list (string * V)) :
  Forall P l -> P (k, v) -> Forall P (mapSet k v l).
Proof.
  intros Hl Hkv. induction l as [|[k' v'] l IH]; simpl; [by constructor|].
  apply Forall_cons in Hl as [Hh Ht].
  destruct (bool_decide (k' = k)); constructor; auto.
Qed.

Lemma mapSet_NoDup {V} (k : string) (v : V) (l : list (string * V)) :
  NoDup (List.map fst l) -> NoDup (List.map fst (mapSet k v l)).
Proof.
  intros Hnd. destruct (decide (k ∈ List.map fst l)) as [Hin%list_elem_of_In|Hnin'];
    [|assert (Hnin : ~ In k (List.map fst l)) by (by rewrite <- list_elem_of_In)].
  - by rewrite mapSet_keys_present.
  - rewrite mapSet_fresh by done. rewrite map_app. simpl.
    apply NoDup_app. split; [done|]. split.
    + intros x Hx Hx'. apply list_elem_of_singleton in Hx'. subst.
      apply Hnin. by apply list_elem_of_In.
    + apply NoDup_singleton.
Qed.

Lemma colorAt_palette (i : nat) : colorAt i ∈ LINE_COLORS.
Proof.
  unfold colorAt. apply list_elem_of_In. apply nth_In.
  apply Nat.mod_upper_bound. done.
Qed.

Lemma mapSet_lineMapOk k v lineMap :
  lineMapOk lineMap -> cl_rootMove v = k -> k <> EmptyString ->
  cl_color v ∈ LINE_COLORS -> lineMapOk (mapSet k v lineMap).
Proof.
  intros [Hnd Hall] Hk Hne Hc. split; [by apply mapSet_NoDup|].
  by apply mapSet_Forall.
Qed.

Lemma seedLines_ok maxDepth rootLines : forall lineMap colorIdx,
  lineMapOk lineMap -> lineMapOk (fst (seedLines maxDepth rootLines lineMap colorIdx)).
Proof.
  induction rootLines as [|rl rest IH]; intros lineMap colorIdx Hok; simpl; [done|].
  destruct (bool_decide (m_san (ln_move rl) = EmptyString)) eqn:E; [by apply IH|].
  apply bool_decide_eq_false in E. apply IH.
  apply mapSet_lineMapOk; [done|done|done|apply colorAt_palette].
Qed.

Lemma enrichLines_ok entries : forall lineMap planCount colorIdx,
  lineMapOk lineMap -> lineMapOk (fst (enrichLines entries lineMap planCount colorIdx)).
Proof.
  induction entries as [|[id [task result]] rest IH];
    intros lineMap planCount colorIdx Hok; simpl; [done|].
  destruct (bool_decide (t_taskId task = "root")); [by apply IH|].
  destruct (replyLines result) as [|best bests]; [by apply IH|].
  destruct (t_rootMove task) as [rm|]; [|by apply IH].
  destruct (bool_decide (rm = EmptyString)) eqn:E; [by apply IH|].
  apply bool_decide_eq_false in E.
  destruct (mapGet rm lineMap) as [existing|] eqn:Eg.
  - destruct (_ && _); [|by apply IH]. apply IH.
    apply mapGet_Some_elem in Eg. destruct Hok as [Hnd Hall].
    pose proof Hall as Hall'. rewrite Forall_forall in Hall'.
    destruct (Hall' _ Eg) as (Hr & _ & Hc). simpl in Hr, Hc.
    apply mapSet_lineMapOk; [by split|done|done|done].
  - apply IH. apply mapSet_lineMapOk; [done|done|done|apply colorAt_palette].
Qed.

(** X25: the lines handed to [onUpdate] come best score first; no two lines
    belong to the same root move; every line names a root move, counts at
    least one supporting plan and has a colour of the palette. *)
Theorem buildLines_shape (co : Coordinator) :
  StronglySorted (fun a b => (cl_score b <= cl_score a)%Q) (buildLines co)
  /\ NoDup (List.map cl_rootMove (buildLines co))
  /\ Forall (fun l => cl_rootMove l <> EmptyString
                      /\ (1 <= cl_plans l)%nat
                      /\ cl_color l ∈ LINE_COLORS) (buildLines co).
Proof.
  unfold buildLines.
  destruct (seedLines _ _ _ _) as [lineMap0 colorIdx] eqn:Es.
  destruct (enrichLines _ _ _ _) as [lineMap planCount] eqn:Ee.
  assert (Hok : lineMapOk lineMap).
  { pose proof (enrichLines_ok (co_results co) lineMap0 [] colorIdx) as He.
    rewrite Ee in He. apply He.
    match type of Es with seedLines ?d ?r _ _ = _ =>
      pose proof (seedLines_ok d r [] 0%nat) as Hs end.
    rewrite Es in Hs. apply Hs. split; [constructor|constructor]. }
  destruct Hok as [Hnd Hall].
  split; [apply sortDesc_sorted|].
  match goal with |- context [sortDesc cl_score ?l] =>
    pose proof (sortDesc_Permutation cl_score l) as Hperm end.
  split.
  - rewrite Hperm. rewrite map_map. simpl.
    erewrite map_ext_Forall; [exact Hnd|].
    rewrite Forall_forall in Hall. apply Forall_forall. intros kv Hkv.
    by destruct (Hall kv Hkv).
  - rewrite Hperm. apply Forall_forall. intros l Hl.
    apply list_elem_of_fmap in Hl as (kv & -> & Hkv). simpl.
    rewrite Forall_forall in Hall. destruct (Hall kv Hkv) as (Hr & Hne & Hc).
    split; [by rewrite Hr|]. split; [|done].
    destruct (mapGet _ planCount) as [[|n]|]; lia.
Qed.

Lemma mapSet_same_color k v (lineMap : list (string * ColoredLine)) e :
  mapGet k lineMap = Some e -> cl_color v = cl_color e ->
  List.map (fun kv => cl_color (snd kv)) (mapSet k v lineMap)
  = List.map (fun kv => cl_color (snd kv)) lineMap
  /\ length (mapSet k v lineMap) = length lineMap.
Proof.
  induction lineMap as [|[k' v'] l IH]; simpl; [done|].
  destruct (bool_decide (k' = k)).
  - intros [= ->] Hc. simpl. by rewrite Hc.
  - intros Hg Hc. destruct (IH Hg Hc) as [IH1 IH2]. simpl. split; f_equal; assumption.
Qed.

Lemma coloredInOrder_fresh k v lineMap colorIdx :
  coloredInOrder lineMap colorIdx -> ~ In k (List.map fst lineMap) ->
  cl_color v = colorAt colorIdx ->
  coloredInOrder (mapSet k v lineMap) (S colorIdx).
Proof.
  intros [Hc Hi] Hnin Hv. rewrite mapSet_fresh by done. split.
  - rewrite map_app, length_app. simpl. rewrite Nat.add_1_r, seq_S, map_app. simpl.
    by rewrite Hc, Hv, Hi.
  - rewrite length_app. simpl. lia.
Qed.

Lemma seedLines_keys maxDepth rootLines : forall lineMap colorIdx k,
  In k (List.map fst (fst (seedLines maxDepth rootLines lineMap colorIdx))) ->
  In k (List.map fst lineMap) \/ In k (List.map (fun rl => m_san (ln_move rl)) rootLines).
Proof.
  induction rootLines as [|rl rest IH]; intros lineMap colorIdx k; simpl; [tauto|].
  destruct (bool_decide (m_san (ln_move rl) = EmptyString)).
  - intros Hin. destruct (IH _ _ _ Hin); tauto.
  - intros Hin. destruct (IH _ _ _ Hin) as [Hl|Hr]; [|tauto].
    destruct (decide (m_san (ln_move rl) ∈ List.map fst lineMap))
      as [Hp%list_elem_of_In|Hn].
    + rewrite mapSet_keys_present in Hl by done. tauto.
    + rewrite mapSet_fresh in Hl by (by rewrite <- list_elem_of_In).
      rewrite map_app in Hl. apply in_app_or in Hl as [|[<-|[]]]; tauto.
Qed.

Lemma seedLines_colors maxDepth rootLines : forall lineMap colorIdx,
  NoDup (List.map (fun rl => m_san (ln_move rl)) rootLines) ->
  (forall rl, In rl rootLines -> ~ In (m_san (ln_move rl)) (List.map fst lineMap)) ->
  coloredInOrder lineMap colorIdx ->
  coloredInOrder (fst (seedLines maxDepth rootLines lineMap colorIdx))
                 (snd (seedLines maxDepth rootLines lineMap colorIdx)).
Proof.
  induction rootLines as [|rl rest IH]; intros lineMap colorIdx Hnd Hfresh Hc; simpl; [done|].
  simpl in Hnd. apply NoDup_cons in Hnd as [Hhd Hnd].
  destruct (bool_decide (m_san (ln_move rl) = EmptyString)).
  - apply IH; [done| |done]. intros rl' Hin. apply Hfresh. by right.
  - apply IH; [done| |].
    + intros rl' Hin Hk.
      rewrite mapSet_fresh in Hk by (apply Hfresh; by left).
      rewrite map_app in Hk. apply in_app_or in Hk as [Hk|[Hk|[]]].
      * by apply (Hfresh rl'); [right|].
      * simpl in Hk. apply Hhd. rewrite Hk.
        apply list_elem_of_In. by apply (in_map (fun rl => m_san (ln_move rl))).
    + apply coloredInOrder_fresh; [done|apply Hfresh; by left|done].
Qed.

Lemma enrichLines_colors entries : forall lineMap planCount colorIdx,
  coloredInOrder lineMap colorIdx ->
  exists colorIdx',
    coloredInOrder (fst (enrichLines entries lineMap planCount colorIdx)) colorIdx'.
Proof.
  induction entries as [|[id [task result]] rest IH];
    intros lineMap planCount colorIdx Hc; simpl; [eauto|].
  destruct (bool_decide (t_taskId task = "root")); [by apply IH|].
  destruct (replyLines result) as [|best bests]; [by apply IH|].
  destruct (t_rootMove task) as [rm|]; [|by apply IH].
  destruct (bool_decide (rm = EmptyString)); [by apply IH|].
  destruct (mapGet rm lineMap) as [existing|] eqn:Eg.
  - destruct (_ && _); [|by apply IH]. apply IH.
    destruct Hc as [Hc Hi].
    match goal with |- coloredInOrder (mapSet rm ?v lineMap) _ =>
      destruct (mapSet_same_color rm v lineMap existing Eg eq_refl) as [Hm Hl] end.
    split; [by rewrite Hm, Hl|by rewrite Hl].
  - apply IH. apply coloredInOrder_fresh; [done|by apply mapGet_None_keys|done].
Qed.

Lemma palette_NoDup : NoDup LINE_COLORS.
Proof. apply (bool_decide_unpack _). vm_compute. reflexivity. Qed.

Lemma palette_prefix_NoDup (n : nat) :
  (n <= 32)%nat -> NoDup (List.map colorAt (seq 0 n)).
Proof.
  intros Hn. assert (H32 : List.map colorAt (seq 0 32) = LINE_COLORS)
    by (vm_compute; reflexivity).
  pose proof palette_NoDup as Hnd. rewrite <- H32 in Hnd.
  replace 32%nat with (n + (32 - n))%nat in Hnd by lia.
  rewrite seq_app, map_app in Hnd. by apply NoDup_app in Hnd as [? _].
Qed.

(** X26: when the root reply names each move once, the lines carry the palette
    colours [0 .. n-1] (cyclically), one per line, given out in the order in
    which the root moves were first seen; with at most 32 lines all colours
    differ. *)
Theorem buildLines_colors (co : Coordinator) :
  NoDup (List.map (fun rl => m_san (ln_move rl)) (rootLinesOf co)) ->
  Permutation (List.map cl_color (buildLines co))
              (List.map colorAt (seq 0 (length (buildLines co))))
  /\ ((length (buildLines co) <= 32)%nat -> NoDup (List.map cl_color (buildLines co))).
Proof.
  intros Hnd.
  assert (Hperm : Permutation (List.map cl_color (buildLines co))
              (List.map colorAt (seq 0 (length (buildLines co))))).
  { unfold buildLines. fold (rootLinesOf co).
    pose proof (seedLines_colors (co_maxDepth co) (rootLinesOf co) [] 0%nat Hnd
                  (fun _ _ Hin => Hin) (conj eq_refl eq_refl)) as Hs.
    destruct (seedLines _ _ _ _) as [lineMap0 colorIdx] eqn:Es. simpl in Hs.
    destruct (enrichLines_colors (co_results co) lineMap0 [] colorIdx Hs) as (idx' & He).
    destruct (enrichLines _ _ _ _) as [lineMap planCount] eqn:Ee. simpl in He.
    destruct He as [Hc _].
    match goal with |- context [sortDesc cl_score ?l] =>
      pose proof (sortDesc_Permutation cl_score l) as Hp end.
    rewrite (Permutation_length Hp), Hp, length_map, map_map. simpl.
    by rewrite Hc. }
  split; [exact Hperm|]. intros Hlen. rewrite Hperm. by apply palette_prefix_NoDup.
Qed.

Lemma buildLines_colors_witness :
  NoDup (List.map cl_color (buildLines twoReplies)).
Proof.
  assert (Hnd : NoDup (List.map (fun rl => m_san (ln_move rl)) (rootLinesOf twoReplies))).
  { apply (bool_decide_unpack _). vm_compute. reflexivity. }
  apply (proj2 (buildLines_colors twoReplies Hnd)).
  vm_compute. lia.
Defined.

(** ** The tasks of the plan generator *)

Section GenerateFields.
Context {Chess : Type} `{ChessLaws Chess}.

Lemma PlanBlocks_fields maxDepth (c : Chess) mvs id tasks :
  PlanBlocks maxDepth c mvs id tasks ->
  Forall (fun t =>
    (1 <= t_depth t <= Nat.max 1 (maxDepth - 1))%nat
    /\ (t_multiPV t <= 4)%nat
    /\ (1 <= length (t_moves t) <= 2)%nat
    /\ exists rm, In rm mvs /\ t_rootMove t = Some (m_san rm)
                  /\ head (t_moves t) = Some (m_san rm)) tasks.
Proof.
  induction 1 as [|rm rest id n tasks Hn Hb IH]; [constructor|].
  apply Forall_app. split.
  - unfold blockOf. constructor.
    + cbn [l1Task t_depth t_multiPV t_moves t_rootMove length head].
      split; [lia|]. split; [apply Nat.le_min_l|]. split; [lia|].
      exists rm. split; [by left|done].
    + apply Forall_forall. intros t Ht.
      apply elem_of_lookup_imap in Ht as (i & rp & -> & _). simpl.
      split; [lia|]. split; [lia|]. split; [lia|].
      exists rm. split; [by left|done].
  - eapply Forall_impl; [exact IH|]. simpl.
    intros t (Hd & Hm & Hl & rm' & Hin & Hr & Hh).
    split; [done|]. split; [done|]. split; [done|].
    exists rm'. split; [by right|done].
Qed.

(** X19: every task of the generator has its own [taskId], the key under which
    the coordinator stores its reply.  The root task asks for the full depth
    and at most 8 lines; every other task asks for a depth of at least 1,
    names a legal root move as its [rootMove], and starts its [moves] with
    that move, followed by at most one reply. *)
Theorem generate_task_fields (f : string) (maxPlans maxDepth : nat) (c : Chess)
    (tasks : list Task) :
  load f = Some c ->
  generate f maxPlans maxDepth = Some tasks ->
  NoDup (List.map t_taskId tasks)
  /\ Forall (fun t =>
       (t_multiPV t <= 8)%nat
       /\ (length (t_moves t) <= 2)%nat
       /\ ((t_taskId t = "root" /\ t_depth t = maxDepth /\ t_rootMove t = None
            /\ t_fen t = f)
           \/ (t_taskId t <> "root"
               /\ (1 <= t_depth t <= Nat.max 1 (maxDepth - 1))%nat
               /\ exists rm, In rm (moves c) /\ t_rootMove t = Some (m_san rm)
                             /\ head (t_moves t) = Some (m_san rm)))) tasks.
Proof.
  intros Hload Hg.
  destruct (generate_blocks f maxPlans maxDepth c tasks Hload Hg)
    as [-> | (rest & -> & Hb)]; [split; constructor|].
  destruct (PlanBlocks_NoDup _ _ _ _ _ Hb) as [Hnd Hroot].
  split; [simpl; constructor; [by rewrite list_elem_of_In|done]|].
  constructor.
  - unfold rootTask. cbn [t_multiPV t_moves t_taskId t_depth t_rootMove t_fen length].
    split; [apply Nat.le_min_l|]. split; [lia|]. left. done.
  - pose proof (PlanBlocks_fields _ _ _ _ _ Hb) as Hf.
    rewrite Forall_forall in Hf. apply Forall_forall. intros t Ht.
    destruct (Hf t Ht) as (Hd & Hm & Hl & Hrm).
    split; [lia|]. split; [lia|]. right. split; [|by split].
    intros Hid. apply Hroot. rewrite <- Hid. apply in_map. by apply list_elem_of_In.
Qed.
End GenerateFields.

Lemma generate_task_fields_witness :
  exists tasks,
    @generate Game Book.lib Book.endgameFen 16 6 = Some tasks
    /\ NoDup (List.map t_taskId tasks).
Proof.
  destruct (@generate Game Book.lib Book.endgameFen 16 6) as [tasks|] eqn:E;
    [|vm_compute in E; discriminate].
  exists tasks. split; [reflexivity|].
  exact (proj1 (@generate_task_fields Game Book.lib (excerpt_laws Book.book)
                  Book.endgameFen 16 6 (mkGame Book.endgame []) tasks eq_refl E)).
Defined.

(** ** Standing pat bounds the quiescence score *)

Section StandPatBound.
Context {Chess : Type} `{ChessLib Chess}.

Lemma Js_raise_ge (score alpha : Q) :
  (alpha <= (if Js.gtb score alpha then score else alpha))%Q.
Proof.
  destruct (Js.gtb score alpha) eqn:E; [|apply Qle_refl].
  apply Js_gtb_lt in E. by apply Qlt_le_weak.
Qed.

Lemma Js_lower_le (score beta : Q) :
  ((if Js.ltb score beta then score else beta) <= beta)%Q.
Proof.
  destruct (Js.ltb score beta) eqn:E; [|apply Qle_refl].
  apply Js_ltb_lt in E. by apply Qlt_le_weak.
Qed.

Lemma qsLoop_monotone rec maximizing stand mvs :
  forall (c : Chess) alpha beta st a b c' st',
    qsLoop rec maximizing stand mvs c alpha beta st = Some (a, b, c', st') ->
    if maximizing then (alpha <= a)%Q else (b <= beta)%Q.
Proof.
  induction mvs as [|m rest IH]; intros c alpha beta st a b c' st'; simpl.
  - intros [= <- <- _ _]. destruct maximizing; apply Qle_refl.
  - destruct (deltaPruned _ _ _ _ _); [apply IH|].
    destruct (rec _ _ _ _ _) as [[[score c1] st1]|]; cbn [mbind option_bind]; [|done].
    destruct maximizing.
    + destruct (Js.geb _ beta).
      * intros [= <- _ _ _]. apply Js_raise_ge.
      * intros Hl. apply IH in Hl. eapply Qle_trans; [apply Js_raise_ge|exact Hl].
    + destruct (Js.geb alpha _).
      * intros [= _ <- _ _]. apply Js_lower_le.
      * intros Hl. apply IH in Hl. eapply Qle_trans; [exact Hl|apply Js_lower_le].
Qed.

(** X8: out of check the side to move may always stand pat: the maximizer's
    quiescence score is never below the static score brought into the
    window, the minimizer's never above it, whatever the captures searched
    return. *)
Theorem quiescence_never_worse_than_stand_pat (fuel : nat) (c : Chess)
    (alpha beta : Q) (maximizing : bool) (st : Search)
    (s : Q) (c' : Chess) (st' : Search) :
  in_check c = false ->
  quiescence fuel c alpha beta maximizing st = Some (s, c', st') ->
  if maximizing
  then (standPatValue (evaluate c true) alpha beta true <= s)%Q
  else (s <= standPatValue (evaluate c true) alpha beta false)%Q.
Proof.
  intros Hchk. destruct fuel as [|n]; [done|].
  unfold quiescence. simpl. unfold qsStandPat, standPatValue. rewrite Hchk.
  destruct maximizing.
  - destruct (Js.geb (evaluate c true) beta); [intros [= <- _ _]; apply Qle_refl|].
    cbn [andb].
    destruct (qsLoop _ _ _ _ _ _ _ _) as [[[[a b] c1] st1]|] eqn:E;
      cbn [mbind option_bind]; [|done].
    intros [= <- _ _]. apply qsLoop_monotone in E. exact E.
  - destruct (Js.leb (evaluate c true) alpha); [intros [= <- _ _]; apply Qle_refl|].
    cbn [andb].
    destruct (qsLoop _ _ _ _ _ _ _ _) as [[[[a b] c1] st1]|] eqn:E;
      cbn [mbind option_bind]; [|done].
    intros [= <- _ _]. apply qsLoop_monotone in E. exact E.
Qed.
End StandPatBound.

Lemma quiescence_never_worse_than_stand_pat_witness :
  exists s c' st',
    @quiescence Game Book.lib 3 (mkGame (Book.afterKb1 "8/7k") []) (- INFINITY) INFINITY
                true Book.emptySearch = Some (s, c', st')
    /\ (standPatValue (@evaluate Game Book.lib (mkGame (Book.afterKb1 "8/7k") []) true)
                      (- INFINITY) INFINITY true <= s)%Q.
Proof.
  destruct (@quiescence Game Book.lib 3 (mkGame (Book.afterKb1 "8/7k") [])
              (- INFINITY) INFINITY true Book.emptySearch) as [[[s c'] st']|] eqn:E;
    [|vm_compute in E; discriminate].
  exists s, c', st'. split; [reflexivity|].
  exact (@quiescence_never_worse_than_stand_pat Game Book.lib 3
           (mkGame (Book.afterKb1 "8/7k") []) (- INFINITY) INFINITY true
           Book.emptySearch s c' st' eq_refl E).
Defined.

(** ** The worker's reply *)

Section WorkerReply.
Context {Chess : Type} `{ChessLib Chess}.

Lemma searchRoot_length fuel f depth multiPV st lines (c' : Chess) st' c0 :
  searchRoot fuel f depth multiPV st = Some (Returned lines c' st') ->
  load f = Some c0 ->
  length lines = Nat.min multiPV (length (moves c0)).
Proof.
  unfold searchRoot. intros Hs Hl. rewrite Hl in Hs. revert Hs.
  destruct (bool_decide (moves c0 = [])) eqn:Hnil.
  - apply bool_decide_eq_true in Hnil. intros [= <- _ _]. rewrite Hnil. simpl. lia.
  - destruct (rootLoop _ _ _ _ _ _ _) as [[[results c1] st1]|] eqn:E;
      cbn [mbind option_bind]; [|done].
    intros [= <- _ _]. apply rootLoop_moves in E. simpl in E.
    rewrite length_take. f_equal.
    rewrite (Permutation_length (sortDesc_Permutation ln_score results)).
    by rewrite <- E, length_map.
Qed.

Lemma alphaBeta_counts fuel (c : Chess) d a b m p st s c' st' :
  alphaBeta fuel c d a b m p st = Some (s, c', st') ->
  (s_nodes st < s_nodes st')%nat.
Proof.
  intros Hab. destruct fuel as [|n]; [done|]. simpl in Hab.
  assert (Hstrict : forall st0 : Search,
    evolves (bumpNodes st) st0 -> (s_nodes st < s_nodes st0)%nat).
  { intros st0 (N0 & _). simpl in N0. lia. }
  revert Hab.
  destruct (Js.geb _ _); [intros [= _ _ <-]; simpl; lia|].
  destruct (ttGet _ _ _ _ _); [intros [= _ _ <-]; simpl; lia|].
  destruct (d =? 0)%nat.
  { intros Hq. apply Hstrict. by apply quiescence_evolves in Hq. }
  destruct (game_over c); [intros [= _ _ <-]; simpl; lia|].
  destruct (bool_decide (moves c = [])); [intros [= _ _ <-]; simpl; lia|].
  destruct (nullMove _ _ _ _ _ _ _ _ _) as [[nullRet st1]|] eqn:En;
    cbn [mbind option_bind]; [|done].
  apply nullMove_evolves in En; [|apply alphaBeta_evolves].
  destruct nullRet; [intros [= _ _ <-]; by apply Hstrict|].
  destruct (razoring _ _ _ _ _ _ _) as [[[[se rr] c1] st2]|] eqn:Er;
    cbn [mbind option_bind]; [|done].
  apply razoring_evolves in Er.
  destruct rr; [intros [= _ _ <-]; apply Hstrict; by eapply evolves_trans|].
  destruct (abLoop _ _ _ _ _ _ _ _ _ _ _) as [[[L c2] st3]|] eqn:El;
    cbn [mbind option_bind]; [|done].
  apply abLoop_evolves in El; [|apply alphaBeta_evolves].
  intros [= _ _ <-]. simpl.
  assert (E3 : evolves (bumpNodes st) st3)
    by (eapply evolves_trans; [exact En|]; by eapply evolves_trans).
  destruct E3 as (N3 & _). simpl in N3. lia.
Qed.

Lemma rootMoveScore_counts fuel max depth (cs : Chess * Search) s cs' :
  (1 <= depth)%nat ->
  rootMoveScore fuel max depth cs = Some (s, cs') ->
  (s_nodes (snd cs) < s_nodes (snd cs'))%nat.
Proof.
  intros Hd. unfold rootMoveScore. destruct depth as [|k]; [lia|]. simpl.
  destruct (aspirate _ 1 0 cs) as [[s1 cs1]|] eqn:Ea; cbn [mbind option_bind]; [|done].
  assert (H1 : (s_nodes (snd cs) < s_nodes (snd cs1))%nat).
  { revert Ea. unfold aspirate. simpl. unfold rootSearch.
    destruct (alphaBeta _ _ _ _ _ _ _ _) as [[[s2 c2] st2]|] eqn:E;
      cbn [mbind option_bind]; [|done].
    apply alphaBeta_counts in E. by intros [= _ <-]. }
  destruct (isMateScore s1); [by intros [= _ <-]|].
  intros Hdeep. apply deepen_evolves in Hdeep. destruct Hdeep as (Hn & _). lia.
Qed.

Lemma rootLoop_counts fuel max depth mvs :
  (1 <= depth)%nat ->
  forall (c : Chess) st results results' c' st',
    rootLoop fuel max depth mvs c st results = Some (results', c', st') ->
    (s_nodes st + length mvs <= s_nodes st')%nat.
Proof.
  intros Hd. induction mvs as [|m rest IH]; intros c st results results' c' st'; simpl.
  - intros [= _ _ <-]. lia.
  - destruct (rootMoveScore _ _ _ _) as [[score cs]|] eqn:E;
      cbn [mbind option_bind]; [|done].
    apply rootMoveScore_counts in E; [|done]. simpl in E.
    intros Hl. apply IH in Hl. lia.
Qed.

(** X15: for a task whose FEN gives a position [c0] with [k] legal moves.
    If [k = 0] the worker posts, whatever the fuel, a result with the
    task's [taskId], no lines and [nodes = 0].  And whenever the search
    returns, the message posted is a result, never an error, with the
    task's [taskId] and [min(max(1, multiPV), k)] lines (a missing or zero
    [multiPV] asks for one line), each for a legal root move; its [nodes]
    counts this search alone: 0 for depth 0 and at least [k] for any
    depth from 1 on, whatever the counter stood at before. *)
Theorem onmessage_reply (fuel : nat) (t : Task) (st : Search) (c0 : Chess) :
  load (t_fen t) = Some c0 ->
  (moves c0 = [] ->
   onmessage fuel t st = Some (ResultMsg (t_taskId t) [] 0, resetForRoot st))
  /\ (forall r st',
        onmessage fuel t st = Some (r, st') ->
        exists lines nodes,
          r = ResultMsg (t_taskId t) lines nodes
          /\ length lines = Nat.min (Nat.max 1 (t_multiPV t)) (length (moves c0))
          /\ Forall (fun l => In (ln_move l) (moves c0)) lines
          /\ (t_depth t = 0%nat -> nodes = 0%nat)
          /\ ((1 <= t_depth t)%nat -> (length (moves c0) <= nodes)%nat)).
Proof.
  intros Hload. unfold onmessage.
  assert (Hm : (if (t_multiPV t =? 0)%nat then 1%nat else t_multiPV t)
               = Nat.max 1 (t_multiPV t)).
  { destruct (t_multiPV t =? 0)%nat eqn:E.
    - apply Nat.eqb_eq in E. by rewrite E.
    - apply Nat.eqb_neq in E. lia. }
  rewrite Hm. split.
  - intros Hnil. unfold searchRoot. rewrite Hload, Hnil. reflexivity.
  - intros r st'.
    destruct (searchRoot fuel (t_fen t) (t_depth t) _ st) as [[|lines c' st1]|] eqn:Es;
      cbn [mbind option_bind]; [| |done].
    { unfold searchRoot in Es. rewrite Hload in Es.
      destruct (bool_decide (moves c0 = [])); [done|].
      destruct (rootLoop _ _ _ _ _ _ _) as [[[? ?] ?]|]; done. }
    intros [= <- <-]. exists lines, (s_nodes st1). split; [done|].
    split; [by eapply searchRoot_length|].
    unfold searchRoot in Es. rewrite Hload in Es. revert Es.
    destruct (bool_decide (moves c0 = [])) eqn:Hnil.
    + apply bool_decide_eq_true in Hnil. intros [= <- _ <-]. rewrite Hnil.
      split; [constructor|]. split; [done|]. simpl. lia.
    + destruct (rootLoop _ _ _ _ _ _ _) as [[[results c1] st2]|] eqn:E;
        cbn [mbind option_bind]; [|done].
      intros [= <- _ <-]. split; [|split].
      * pose proof (rootLoop_moves _ _ _ _ _ _ _ _ _ _ E) as Hmv. simpl in Hmv.
        apply Forall_forall. intros l Hl.
        apply (subseteq_take _ _) in Hl.
        rewrite (sortDesc_Permutation ln_score results) in Hl.
        rewrite <- Hmv. apply in_map. by apply list_elem_of_In.
      * intros Hd. rewrite Hd in E.
        assert (Hz : forall mvs (c : Chess) st0 res res' c'' st'',
          rootLoop fuel (bool_decide (turn c0 = White)) 0 mvs c st0 res
          = Some (res', c'', st'') -> s_nodes st'' = s_nodes st0).
        { clear. induction mvs as [|m rest IH]; intros c st0 res res' c'' st''; simpl.
          - by intros [= _ _ <-].
          - unfold rootMoveScore. simpl. apply IH. }
        by rewrite (Hz _ _ _ _ _ _ _ E).
      * intros Hd. pose proof (rootLoop_counts _ _ _ _ Hd _ _ _ _ _ _ E) as Hc.
        simpl in Hc. exact Hc.
Qed.
End WorkerReply.

Lemma onmessage_reply_witness :
  (exists r st',
     @onmessage Game Book.lib 20
       (mkTask Book.blackToMoveFen 2 0 "l1-1" (Some "Kb1") ["Kb1"]) warmSearch
     = Some (r, st')
     /\ exists lines nodes,
          r = ResultMsg "l1-1" lines nodes /\ length lines = 1%nat
          /\ (3 <= nodes)%nat)
  /\ @onmessage Game Book.lib 0
       (mkTask "7k/5Q2/6K1/8/8/8/8/8 b - - 0 1" 6 4 "root" None []) warmSearch
     = Some (ResultMsg "root" [] 0, resetForRoot warmSearch).
Proof.
  split.
  - destruct (@onmessage Game Book.lib 20
        (mkTask Book.blackToMoveFen 2 0 "l1-1" (Some "Kb1") ["Kb1"]) warmSearch)
      as [[r st']|] eqn:E; [|vm_compute in E; discriminate].
    exists r, st'. split; [reflexivity|].
    destruct (@onmessage_reply Game Book.lib 20
                (mkTask Book.blackToMoveFen 2 0 "l1-1" (Some "Kb1") ["Kb1"]) warmSearch
                (mkGame Book.afterKb1Root []) eq_refl) as [_ Hr].
    destruct (Hr r st' E) as (lines & nodes & Hmsg & Hlen & _ & _ & Hn).
    exists lines, nodes. split; [exact Hmsg|].
    split; [exact Hlen|]. apply Hn. simpl. lia.
  - apply (proj1 (@onmessage_reply Game Book.lib 0
                    (mkTask "7k/5Q2/6K1/8/8/8/8/8 b - - 0 1" 6 4 "root" None [])
                    warmSearch (mkGame Book.stalemate []) eq_refl)).
    reflexivity.
Defined.

(** ** Totals of a run of the coordinator *)

Lemma mapSet_length {V} (k : string) (v : V) (l : list (string * V)) :
  (length l <= length (mapSet k v l) <= S (length l))%nat.
Proof.
  induction l as [|[k' v'] l IH]; simpl; [lia|].
  destruct (bool_decide (k' = k)); simpl; lia.
Qed.

Lemma StronglySorted_snoc {A} (R : A -> A -> Prop) (l : list A) (x : A) :
  StronglySorted R l -> Forall (fun y => R y x) l -> StronglySorted R (l ++ [x]).
Proof.
  induction l as [|a l IH]; intros Hs Hf; simpl; [repeat constructor|].
  apply StronglySorted_inv in Hs as [Hs Ha]. apply Forall_cons in Hf as [Hax Hf].
  constructor; [by apply IH|]. apply Forall_app. split; [done|]. by constructor.
Qed.

(** What the run keeps true between settlements. *)
Lemma settle_totals (schedule : list (Task * Outcome)) :
  forall co,
    co_running co = true ->
    StronglySorted statsGrow (co_emitted co) ->
    Forall (fun e => (stats_nodes (em_stats e) <= co_totalNodes co)%nat
                     /\ (stats_tasks (em_stats e) <= length (co_results co))%nat)
           (co_emitted co) ->
    let co' := fold_left onSettled schedule co in
    co_running co' = true
    /\ co_totalNodes co' = (co_totalNodes co + resolvedNodes schedule)%nat
    /\ (length (co_results co) <= length (co_results co')
        <= length (co_results co) + resolvedCount schedule)%nat
    /\ length (co_emitted co') = (length (co_emitted co) + resolvedCount schedule)%nat
    /\ StronglySorted statsGrow (co_emitted co')
    /\ Forall (fun e => (stats_nodes (em_stats e) <= co_totalNodes co')%nat
                        /\ (stats_tasks (em_stats e) <= length (co_results co'))%nat)
              (co_emitted co').
Proof.
  induction schedule as [|[t o] rest IH]; intros co Hrun Hs Hf; simpl fold_left.
  - cbv zeta. unfold resolvedCount, resolvedNodes. simpl.
    rewrite !Nat.add_0_r. repeat split; auto.
  - destruct o as [result|].
    + unfold onSettled at 2. cbn [snd fst]. rewrite Hrun.
      set (co1 := emit false _).
      pose proof (mapSet_length (t_taskId t) (t, result) (co_results co)) as Hml.
      destruct (IH co1) as (Hr & Hn & Hl & He & Hs' & Hf').
      { reflexivity. }
      { subst co1. cbn [emit co_emitted]. apply StronglySorted_snoc; [done|].
        eapply Forall_impl; [exact Hf|]. intros e [H1 H2].
        split; simpl; lia. }
      { subst co1. cbn [emit co_emitted co_totalNodes co_results].
        apply Forall_app. split.
        - eapply Forall_impl; [exact Hf|]. intros e [H1 H2]. split; lia.
        - constructor; [|constructor]. simpl. split; lia. }
      cbv zeta. subst co1. cbn [emit co_emitted co_totalNodes co_results] in *.
      change (resolvedNodes ((t, Resolved result) :: rest))
        with (replyNodes result + resolvedNodes rest)%nat.
      change (resolvedCount ((t, Resolved result) :: rest))
        with (S (resolvedCount rest)).
      rewrite length_app in He. simpl in He.
      split; [done|]. split; [lia|].
      split; [lia|]. split; [lia|]. split; done.
    + unfold onSettled at 2. cbn [snd fst].
      destruct (IH co Hrun Hs Hf) as (Hr & Hn & Hl & He & Hs' & Hf').
      cbv zeta.
      change (resolvedNodes ((t, Rejected) :: rest)) with (0 + resolvedNodes rest)%nat.
      change (resolvedCount ((t, Rejected) :: rest)) with (resolvedCount rest).
      split; [done|]. split; [lia|].
      split; [lia|]. split; [lia|]. split; done.
Qed.

(** X27: in any run of [start], whatever the order of the settlements and even if
    a task settles more than once: there is one emission per resolved
    promise and one final emission; the final [nodes] is the sum of the
    [nodes] of all resolved replies (an error reply counts as a task and
    adds no nodes); [tasks] never exceeds the number of resolved promises;
    and from one emission to the next neither [nodes] nor [tasks]
    decreases. *)
Theorem startRun_totals (maxPlans maxDepth : nat) (schedule : list (Task * Outcome)) :
  let co := startRun maxPlans maxDepth schedule in
  co_running co = false
  /\ co_totalNodes co = resolvedNodes schedule
  /\ length (co_emitted co) = S (resolvedCount schedule)
  /\ StronglySorted statsGrow (co_emitted co)
  /\ exists e,
       last (co_emitted co) = Some e
       /\ stats_final (em_stats e) = true
       /\ stats_nodes (em_stats e) = resolvedNodes schedule
       /\ (stats_tasks (em_stats e) <= resolvedCount schedule)%nat.
Proof.
  cbv zeta. unfold startRun.
  destruct (settle_totals schedule (mkCoordinator maxPlans maxDepth true [] 0 []))
    as (Hr & Hn & Hl & He & Hs & Hf); [done|constructor|constructor|].
  cbv zeta in *. cbn [co_totalNodes co_results co_emitted length] in *.
  rewrite Hr. cbn [emit co_running co_totalNodes co_emitted co_results co_maxPlans].
  split; [done|]. split; [lia|]. split; [rewrite length_app; simpl; lia|].
  split.
  { apply StronglySorted_snoc; [done|].
    eapply Forall_impl; [exact Hf|]. intros e [H1 H2]. split; simpl; lia. }
  eexists. split; [apply last_snoc|]. simpl. split; [done|]. split; lia.
Qed.

(** ** A run of [start] through the pool *)

Lemma answered_resolved evs : forall p,
  answered p evs ->
  resolvedCount (poolSchedule (poolRun evs p))
  = (resolvedCount (poolSchedule p) + messageCount evs)%nat.
Proof.
  induction evs as [|ev evs IH]; intros p; simpl.
  - intros _. unfold messageCount. simpl. lia.
  - intros [Hev Hrest].
    change (fold_left poolStep evs (poolStep p ev)) with (poolRun evs (poolStep p ev)).
    rewrite (IH _ Hrest). clear IH Hrest.
    destruct ev as [task|idx data|idx|]; try done; destruct Hev as [j Hj].
    + change (messageCount (Message idx data :: evs)) with (S (messageCount evs)).
      simpl. unfold onMessage, settle, poolSchedule. rewrite drain_settled. simpl.
      rewrite Hj, map_app. unfold resolvedCount. rewrite List.filter_app, length_app.
      simpl. lia.
    + change (messageCount (Error idx :: evs)) with (messageCount evs).
      simpl. unfold onError, settle, poolSchedule. rewrite drain_settled. simpl.
      rewrite Hj, map_app. unfold resolvedCount. rewrite List.filter_app, length_app.
      simpl. lia.
Qed.

Section ThroughPool.
Context {Chess : Type} `{ChessLaws Chess}.

(** X28: [start] end to end: the generated tasks are dispatched to a pool of any
    size, and the workers answer, as many events as tasks, each from a worker
    holding a job.  Then every task has settled exactly once, the
    coordinator has emitted once per worker message and once more at the
    end, and the final [tasks] is the number of worker messages. *)
Theorem start_through_pool (f : string) (maxPlans maxDepth size : nat)
    (tasks : list Task) (evs : list PoolEvent) :
  generate f maxPlans maxDepth = Some tasks ->
  answered (poolRun (List.map Dispatch tasks) (newPool size)) evs ->
  length evs = length tasks ->
  let p := poolRun evs (poolRun (List.map Dispatch tasks) (newPool size)) in
  let co := startRun maxPlans maxDepth (poolSchedule p) in
  Permutation (List.map fst (poolSchedule p)) tasks
  /\ length (co_emitted co) = S (messageCount evs)
  /\ exists e,
       last (co_emitted co) = Some e
       /\ stats_final (em_stats e) = true
       /\ stats_tasks (em_stats e) = messageCount evs.
Proof.
  intros Hg Hans Hlen. cbv zeta.
  destruct (pool_completes size tasks evs Hans Hlen) as (_ & _ & Hposted & Hsettled).
  assert (Hperm' : Permutation
    (List.map fst (poolSchedule (poolRun evs
       (poolRun (List.map Dispatch tasks) (newPool size))))) tasks).
  { unfold poolSchedule. rewrite map_map. simpl.
    rewrite <- (map_map fst j_task), Hsettled, Hposted.
    by rewrite (proj1 (dispatches_jobs tasks 0)). }
  split; [exact Hperm'|].
  pose proof (answered_resolved evs _ Hans) as Hrc.
  assert (Hzero : resolvedCount (poolSchedule
                 (poolRun (List.map Dispatch tasks) (newPool size))) = 0%nat).
  { unfold poolSchedule. by rewrite dispatches_settled. }
  rewrite Hzero in Hrc. simpl in Hrc.
  pose proof (generate_ids_NoDup _ _ _ _ Hg) as Hnd.
  set (sched := poolSchedule _) in *.
  assert (Hnd' : NoDup (List.map (fun ev => t_taskId (fst ev)) sched)).
  { rewrite <- (map_map fst t_taskId). by rewrite Hperm'. }
  destruct (settle_all sched (mkCoordinator maxPlans maxDepth true [] 0 [])
              eq_refl Hnd')
    as (Hr & Hmp & Hmd & Hl & updates & Hem & Hul & Hup & Htasks).
  cbv zeta in *. cbn [co_results co_emitted co_maxPlans length app] in *.
  unfold startRun. cbv zeta. rewrite Hr.
  cbn [emit co_emitted co_results]. rewrite Hem.
  split; [rewrite length_app; simpl; lia|].
  eexists. split; [apply last_snoc|]. simpl. split; [done|]. lia.
Qed.
End ThroughPool.

Lemma start_through_pool_witness :
  exists tasks,
    @generate Game Book.lib Book.endgameFen 16 6 = Some tasks
    /\ length (co_emitted (startRun 16 6
         (poolSchedule (poolRun (answersInTurn 14)
            (poolRun (List.map Dispatch tasks) (newPool 16)))))) = 15%nat.
Proof.
  destruct (@generate Game Book.lib Book.endgameFen 16 6) as [tasks|] eqn:E;
    [|vm_compute in E; discriminate].
  exists tasks. split; [reflexivity|].
  assert (Ht : tasks = default [] (@generate Game Book.lib Book.endgameFen 16 6))
    by (rewrite E; reflexivity).
  assert (Hans : answered (poolRun (List.map Dispatch tasks) (newPool 16))
                          (answersInTurn 14)).
  { rewrite Ht. vm_compute. repeat split; eexists; reflexivity. }
  assert (Hlen : length (answersInTurn 14) = length tasks).
  { rewrite Ht. vm_compute. reflexivity. }
  destruct (@start_through_pool Game Book.lib (excerpt_laws Book.book)
              Book.endgameFen 16 6 16 tasks (answersInTurn 14) E Hans Hlen)
    as (_ & Hem & _).
  exact Hem.
Defined.

(** ** Table indices *)

(** X16: for the square of board cell [(r, f)] (row 0 is rank 8), [sqIdx] gives
    white the index of the cell itself and black that index counted from the
    other end of the table, a half-turn of the board that also swaps the
    files; either way the index stays inside the 64 entries every
    piece-square table has. *)
Theorem sqIdx_board_square (r f : Z) (color : Color) (t : PieceType) :
  0 <= r < 8 -> 0 <= f < 8 ->
  sqIdx (squareName f (8 - r)) White = r * 8 + f
  /\ sqIdx (squareName f (8 - r)) Black = 63 - (r * 8 + f)
  /\ 0 <= sqIdx (squareName f (8 - r)) color < 64
  /\ (Z.to_nat (sqIdx (squareName f (8 - r)) color) < length (PST t))%nat.
Proof.
  intros Hr Hf.
  assert (Hl : length (PST t) = 64%nat) by (by destruct t).
  assert (Er : r = 0 \/ r = 1 \/ r = 2 \/ r = 3 \/ r = 4 \/ r = 5 \/ r = 6 \/ r = 7) by lia.
  assert (Ef : f = 0 \/ f = 1 \/ f = 2 \/ f = 3 \/ f = 4 \/ f = 5 \/ f = 6 \/ f = 7) by lia.
  rewrite Hl.
  destruct Er as [->|[->|[->|[->|[->|[->|[->| ->]]]]]]];
    destruct Ef as [->|[->|[->|[->|[->|[->|[->| ->]]]]]]];
    destruct color; vm_compute; repeat split; try discriminate; try reflexivity; lia.
Qed.

Lemma sqIdx_board_square_witness :
  sqIdx (squareName 4 (8 - 6)) White = 6 * 8 + 4
  /\ sqIdx (squareName 4 (8 - 6)) Black = 63 - (6 * 8 + 4).
Proof.
  destruct (sqIdx_board_square 6 4 White Queen ltac:(lia) ltac:(lia)) as (Hw & Hb & _).
  split; [exact Hw|exact Hb].
Defined.

(** ** Late-move reductions *)

Lemma lmrReduction_clamped (depth mi : nat) :
  lmrReduction depth mi = lmrReduction (Nat.min 31 depth) (Nat.min 63 mi).
Proof. unfold lmrReduction. by rewrite !Nat.min_assoc, !Nat.min_id. Qed.

Lemma lmrTable_checked :
  forallb (fun d =>
    forallb (fun m =>
      (if (d =? 0)%nat || (m =? 0)%nat then (lmrReduction d m =? 0)%nat
       else (1 <=? lmrReduction d m)%nat && (lmrReduction d m <=? 7)%nat)
      && (lmrReduction d m <=? lmrReduction d (S m))%nat
      && (lmrReduction d m <=? lmrReduction (S d) m)%nat)
      (seq 0 64)) (seq 0 32) = true.
Proof. vm_compute. reflexivity. Qed.

Lemma lmrTable_entry (d m : nat) :
  (d <= 31)%nat -> (m <= 63)%nat ->
  (if (d =? 0)%nat || (m =? 0)%nat then lmrReduction d m = 0%nat
   else (1 <= lmrReduction d m <= 7)%nat)
  /\ (lmrReduction d m <= lmrReduction d (S m))%nat
  /\ (lmrReduction d m <= lmrReduction (S d) m)%nat.
Proof.
  intros Hd Hm. pose proof lmrTable_checked as Hc.
  rewrite forallb_forall in Hc. specialize (Hc d).
  rewrite forallb_forall in Hc.
  assert (Hin : In m (seq 0 64)) by (apply in_seq; lia).
  assert (Hind : In d (seq 0 32)) by (apply in_seq; lia).
  specialize (Hc Hind m Hin).
  apply andb_true_iff in Hc as [Hc H3]. apply andb_true_iff in Hc as [H1 H2].
  apply Nat.leb_le in H2, H3. split; [|by split].
  destruct ((d =? 0)%nat || (m =? 0)%nat).
  - by apply Nat.eqb_eq.
  - apply andb_true_iff in H1 as [Ha Hb]. apply Nat.leb_le in Ha, Hb. lia.
Qed.

(** X17: the reduction taken from [LMR_TABLE] is 0 in row 0 and column 0 and
    between 1 and 7 plies elsewhere, for every depth and move index (both
    are clamped to the table); it never shrinks when the depth or the move
    index grows.  Where late-move reduction applies (depth at least 3, third
    move or later) the reduced search is therefore at least one ply
    shallower than the full one. *)
Theorem lmrReduction_bounds (depth mi : nat) :
  ((depth = 0 \/ mi = 0)%nat -> lmrReduction depth mi = 0%nat)
  /\ ((1 <= depth)%nat -> (1 <= mi)%nat -> (1 <= lmrReduction depth mi <= 7)%nat)
  /\ (lmrReduction depth mi <= lmrReduction depth (S mi))%nat
  /\ (lmrReduction depth mi <= lmrReduction (S depth) mi)%nat
  /\ ((3 <= depth)%nat -> (2 <= mi)%nat ->
      (depth - 1 - Nat.min (depth - 1) (lmrReduction depth mi) < depth - 1)%nat).
Proof.
  assert (Hd : (Nat.min 31 depth <= 31)%nat) by lia.
  assert (Hm : (Nat.min 63 mi <= 63)%nat) by lia.
  destruct (lmrTable_entry _ _ Hd Hm) as (Hv & Hmi & Hde).
  rewrite <- lmrReduction_clamped in Hv.
  assert (H1 : (1 <= depth)%nat -> (1 <= mi)%nat -> (1 <= lmrReduction depth mi <= 7)%nat).
  { intros H1 H2.
    destruct (Nat.min 31 depth =? 0)%nat eqn:E1; [apply Nat.eqb_eq in E1; lia|].
    destruct (Nat.min 63 mi =? 0)%nat eqn:E2; [apply Nat.eqb_eq in E2; lia|].
    exact Hv. }
  split; [|split; [exact H1|]].
  { intros [-> | ->]; [done|].
    replace (Nat.min 63 0) with 0%nat in Hv by done.
    by rewrite orb_true_r in Hv. }
  split; [|split].
  - rewrite (lmrReduction_clamped depth mi), (lmrReduction_clamped depth (S mi)).
    destruct (decide (mi < 63)%nat) as [Hlt|Hge].
    + replace (Nat.min 63 (S mi)) with (S (Nat.min 63 mi)) by lia. exact Hmi.
    + replace (Nat.min 63 (S mi)) with (Nat.min 63 mi) by lia. done.
  - rewrite (lmrReduction_clamped depth mi), (lmrReduction_clamped (S depth) mi).
    destruct (decide (depth < 31)%nat) as [Hlt|Hge].
    + replace (Nat.min 31 (S depth)) with (S (Nat.min 31 depth)) by lia. exact Hde.
    + replace (Nat.min 31 (S depth)) with (Nat.min 31 depth) by lia. done.
  - intros H3 H2. specialize (H1 ltac:(lia) ltac:(lia)). lia.
Qed.

(** ** FEN strings built by the engine *)

Lemma app_String (a : Ascii.ascii) (s1 s2 : string) :
  String a s1 +:+ s2 = String a (s1 +:+ s2).
Proof. reflexivity. Qed.

Lemma string_app_nil_r (s : string) : s +:+ EmptyString = s.
Proof. induction s as [|a s IH]; [done|]. by rewrite app_String, IH. Qed.

Lemma string_app_assoc (s1 s2 s3 : string) : (s1 +:+ s2) +:+ s3 = s1 +:+ (s2 +:+ s3).
Proof. induction s1 as [|a s1 IH]; [done|]. by rewrite !app_String, IH. Qed.

Lemma rev_app_spec (s1 s2 : string) :
  String.rev_app s1 s2 = String.rev_app s1 EmptyString +:+ s2.
Proof.
  revert s2. induction s1 as [|a s1 IH]; intros s2; simpl; [done|].
  rewrite (IH (String a s2)), (IH (String a EmptyString)).
  by rewrite string_app_assoc, app_String.
Qed.

Lemma rev_String (a : Ascii.ascii) (cur : string) :
  String.rev (String a cur) = String.rev cur +:+ String a EmptyString.
Proof. unfold String.rev. simpl. apply rev_app_spec. Qed.

Lemma splitAux_field (x : string) : forall cur rest,
  noSpace x = true ->
  splitAux Ascii.Space cur (x +:+ String Ascii.Space rest)
  = (String.rev cur +:+ x) :: splitAux Ascii.Space EmptyString rest.
Proof.
  induction x as [|a x IH]; intros cur rest Hx.
  - change (EmptyString +:+ String Ascii.Space rest) with (String Ascii.Space rest).
    simpl. by rewrite string_app_nil_r.
  - simpl in Hx. apply andb_true_iff in Hx as [Ha Hx].
    apply negb_true_iff in Ha. rewrite app_String. simpl. rewrite Ha, IH by done.
    by rewrite rev_String, string_app_assoc, app_String.
Qed.

Lemma splitAux_last (x : string) : forall cur,
  noSpace x = true -> splitAux Ascii.Space cur x = [String.rev cur +:+ x].
Proof.
  induction x as [|a x IH]; intros cur Hx; simpl.
  - by rewrite string_app_nil_r.
  - simpl in Hx. apply andb_true_iff in Hx as [Ha Hx].
    apply negb_true_iff in Ha. rewrite Ha, IH by done.
    by rewrite rev_String, string_app_assoc, app_String.
Qed.

Lemma split_join (l : list string) :
  l <> [] -> Forall (fun x => noSpace x = true) l ->
  split Ascii.Space (join " " l) = l.
Proof.
  unfold split. induction l as [|x l IH]; intros Hne Hall; [done|].
  apply Forall_cons in Hall as [Hx Hall].
  destruct l as [|y l].
  - simpl. by rewrite splitAux_last.
  - change (join " " (x :: y :: l)) with (x +:+ String Ascii.Space (join " " (y :: l))).
    rewrite splitAux_field by done. f_equal. by apply IH.
Qed.

Lemma noSpace_app (s1 s2 : string) :
  noSpace (s1 +:+ s2) = noSpace s1 && noSpace s2.
Proof.
  induction s1 as [|a s1 IH]; [done|]. rewrite app_String. simpl.
  by rewrite IH, andb_assoc.
Qed.

Lemma noSpace_rev_app (s1 s2 : string) :
  noSpace (String.rev_app s1 s2) = noSpace s1 && noSpace s2.
Proof.
  revert s2. induction s1 as [|a s1 IH]; intros s2; simpl; [done|].
  rewrite IH. simpl. destruct (negb (Ascii.eqb a Ascii.Space)), (noSpace s1); simpl; done.
Qed.

Lemma splitAux_noSpace (s : string) : forall cur,
  noSpace cur = true ->
  Forall (fun x => noSpace x = true) (splitAux Ascii.Space cur s).
Proof.
  induction s as [|a s IH]; intros cur Hc; simpl.
  - constructor; [|constructor]. unfold String.rev. by rewrite noSpace_rev_app, Hc.
  - destruct (Ascii.eqb a Ascii.Space) eqn:Ea.
    + constructor; [|by apply IH].
      unfold String.rev. by rewrite noSpace_rev_app, Hc.
    + apply IH. simpl. by rewrite Ea, Hc.
Qed.

Lemma pretty_N_char_digit (m : N) :
  (m < 10)%N ->
  isDigit (pretty_N_char m) = true
  /\ digitValue (pretty_N_char m) = Z.of_N m
  /\ Ascii.eqb (pretty_N_char m) Ascii.Space = false.
Proof.
  intros Hm.
  assert (m = 0 \/ m = 1 \/ m = 2 \/ m = 3 \/ m = 4 \/ m = 5 \/ m = 6 \/ m = 7
          \/ m = 8 \/ m = 9)%N as Hcases by lia.
  repeat (destruct Hcases as [->|Hcases]); [..|subst m]; by vm_compute.
Qed.

Lemma pretty_N_go_noSpace (x : N) : forall s,
  noSpace s = true -> noSpace (pretty_N_go x s) = true.
Proof.
  induction (N.lt_wf_0 x) as [x _ IH]; intros s Hs.
  assert (x = 0 \/ 0 < x)%N as [->|Hx] by lia.
  - by rewrite pretty_N_go_0.
  - rewrite pretty_N_go_step by done. apply IH; [by apply N.div_lt|].
    simpl. destruct (pretty_N_char_digit (x `mod` 10)) as (_ & _ & ->);
      [by apply N.mod_lt|]. done.
Qed.

Lemma pretty_N_noSpace (k : N) : noSpace (pretty k) = true.
Proof.
  unfold pretty, pretty_N. destruct (decide (k = 0%N)); [done|].
  by apply pretty_N_go_noSpace.
Qed.

Lemma parseDigits_pretty_go (x : N) : forall s,
  (0 < x)%N ->
  parseDigits None (pretty_N_go x s) = parseDigits (Some x) s.
Proof.
  induction (N.lt_wf_0 x) as [x _ IH]; intros s Hx.
  rewrite pretty_N_go_step by done.
  destruct (pretty_N_char_digit (x `mod` 10)) as (Hd & Hv & _); [by apply N.mod_lt|].
  destruct (N.eq_0_gt_0_cases (x `div` 10)) as [Hz|Hp].
  - rewrite Hz, pretty_N_go_0. simpl. rewrite Hd, Hv. simpl.
    rewrite N2Z.id. f_equal. f_equal.
    pose proof (N.div_mod x 10 ltac:(lia)) as Hdm. rewrite Hz in Hdm. lia.
  - rewrite IH by (try apply N.div_lt; lia). simpl. rewrite Hd, Hv. simpl.
    rewrite N2Z.id. f_equal. f_equal.
    pose proof (N.div_mod x 10 ltac:(lia)) as Hdm. lia.
Qed.

Lemma parseInt_pretty (k : N) : parseInt (pretty k) = Some k.
Proof.
  unfold parseInt, pretty, pretty_N. destruct (decide (k = 0%N)) as [->|Hk].
  - by vm_compute.
  - rewrite parseDigits_pretty_go by lia. done.
Qed.

Lemma swapSide_noSpace (t : string) : noSpace (swapSide t) = true.
Proof. unfold swapSide. by destruct (bool_decide (t = "w")). Qed.

Lemma makeNullMoveFen_join (f b t c e h n : string) :
  split Ascii.Space f = [b; t; c; e; h; n] ->
  makeNullMoveFen f
  = join " " [b; swapSide t; c; "-"; stringOfNumber (N.succ <$> parseInt h); n].
Proof. intros Hf. unfold makeNullMoveFen. by rewrite Hf. Qed.

Lemma flipTurnFen_join (f b t c e h n : string) :
  split Ascii.Space f = [b; t; c; e; h; n] ->
  flipTurnFen f = join " " [b; swapSide t; c; "-"; h; n].
Proof. intros Hf. unfold flipTurnFen. by rewrite Hf. Qed.

Lemma six_fields_split (b t c e h n : string) :
  noSpace b = true -> noSpace t = true -> noSpace c = true -> noSpace e = true ->
  noSpace h = true -> noSpace n = true ->
  split Ascii.Space (join " " [b; t; c; e; h; n]) = [b; t; c; e; h; n].
Proof.
  intros. apply split_join; [done|]. repeat (constructor; [done|]). constructor.
Qed.

(** X18: a six-field FEN keeps its piece placement, castling rights and move
    number through [makeNullMoveFen]; the side to move is swapped, the en
    passant square cleared and the half-move clock, read back as a number,
    incremented (the clock is taken below 2^53, where JavaScript numbers
    count exactly).  Passing twice gives the side to move back.  The FEN that
    [evaluate] builds for the opponent's mobility is the same but for the
    clock, which it leaves alone. *)
Theorem makeNullMoveFen_fields (f b t c e n : string) (k : N) :
  split Ascii.Space f = [b; t; c; e; pretty k; n] ->
  (k + 2 < 2 ^ 53)%N ->
  split Ascii.Space (makeNullMoveFen f) = [b; swapSide t; c; "-"; pretty (N.succ k); n]
  /\ split Ascii.Space (flipTurnFen f) = [b; swapSide t; c; "-"; pretty k; n]
  /\ (t = "w" \/ t = "b" ->
      split Ascii.Space (makeNullMoveFen (makeNullMoveFen f))
      = [b; t; c; "-"; pretty (k + 2)%N; n]).
Proof.
  intros Hf _.
  pose proof (splitAux_noSpace f EmptyString eq_refl) as Hns.
  fold (split Ascii.Space f) in Hns. rewrite Hf in Hns.
  apply Forall_cons in Hns as [Hb Hns]. apply Forall_cons in Hns as [Ht Hns].
  apply Forall_cons in Hns as [Hc Hns]. apply Forall_cons in Hns as [He Hns].
  apply Forall_cons in Hns as [Hk Hns]. apply Forall_cons in Hns as [Hn _].
  assert (H1 : split Ascii.Space (makeNullMoveFen f)
               = [b; swapSide t; c; "-"; pretty (N.succ k); n]).
  { rewrite (makeNullMoveFen_join _ _ _ _ _ _ _ Hf), parseInt_pretty.
    apply six_fields_split;
      first [done | apply swapSide_noSpace | apply pretty_N_noSpace]. }
  split; [exact H1|]. split.
  - rewrite (flipTurnFen_join _ _ _ _ _ _ _ Hf).
    apply six_fields_split; first [done | apply swapSide_noSpace].
  - intros Hwb.
    rewrite (makeNullMoveFen_join _ _ _ _ _ _ _ H1), parseInt_pretty.
    replace (N.succ <$> Some (N.succ k)) with (Some (k + 2)%N)
      by (simpl; f_equal; lia).
    assert (Hsw : swapSide (swapSide t) = t) by (by destruct Hwb as [-> | ->]).
    rewrite Hsw.
    apply six_fields_split; first [done | apply pretty_N_noSpace].
Qed.

Lemma makeNullMoveFen_fields_witness :
  split Ascii.Space (makeNullMoveFen "7k/8/8/8/8/8/P7/1K6 b - a3 9 1")
  = ["7k/8/8/8/8/8/P7/1K6"; "w"; "-"; "-"; "10"; "1"].
Proof.
  exact (proj1 (makeNullMoveFen_fields "7k/8/8/8/8/8/P7/1K6 b - a3 9 1"
                  "7k/8/8/8/8/8/P7/1K6" "b" "-" "a3" "1" 9 eq_refl eq_refl)).
Defined.

(** ** A root search of depth 0 *)

Lemma sortDesc_constant {A} (key : A -> Q) (q : Q) (l : list A) :
  Forall (fun x => key x = q) l -> sortDesc key l = l.
Proof.
  induction l as [|x l IH]; intros Hl; [done|].
  apply Forall_cons in Hl as [Hx Hl]. simpl. rewrite IH by done.
  destruct l as [|y l]; [done|]. simpl.
  apply Forall_cons in Hl as [Hy _]. rewrite Hx, Hy.
  unfold Js.gtb. assert (Hle : Qle_bool q q = true) by (apply Qle_bool_iff, Qle_refl).
  by rewrite Hle.
Qed.

Section DepthZero.
Context {Chess : Type} `{ChessLaws Chess}.

Lemma rootLoop_depth_zero fuel max mvs : forall (c : Chess) st results,
  (forall m, In m mvs -> In m (moves c)) ->
  rootLoop fuel max 0 mvs c st results
  = Some (results ++ List.map (fun m => mkLine m 0) mvs, c, st).
Proof.
  induction mvs as [|m rest IH]; intros c st results Hin; simpl.
  - by rewrite app_nil_r.
  - unfold rootMoveScore. simpl. rewrite undo_move by (apply Hin; by left).
    rewrite IH by (intros m' Hm'; apply Hin; by right).
    rewrite <- app_assoc. simpl. by destruct max.
Qed.

(** X14: with depth 0 the root driver searches nothing, whatever the fuel: it
    returns the first [multiPV] legal moves in the move generator's order,
    each with score 0, leaves the position as loaded, counts no node and
    touches no table beyond the reset every root search starts with. *)
Theorem searchRoot_depth_zero (fuel : nat) (f : string) (multiPV : nat) (st : Search)
    (c0 : Chess) :
  load f = Some c0 ->
  searchRoot fuel f 0 multiPV st
  = Some (Returned (take multiPV (List.map (fun m => mkLine m 0) (moves c0)))
                   c0 (resetForRoot st)).
Proof.
  intros Hl. unfold searchRoot. rewrite Hl.
  destruct (bool_decide (moves c0 = [])) eqn:Hnil.
  - apply bool_decide_eq_true in Hnil. rewrite Hnil. by destruct multiPV.
  - rewrite rootLoop_depth_zero by auto. cbn [mbind option_bind app].
    rewrite (sortDesc_constant ln_score 0); [done|].
    apply Forall_forall. intros l Hl'.
    by apply list_elem_of_fmap in Hl' as (m & -> & _).
Qed.
End DepthZero.

Lemma searchRoot_depth_zero_witness :
  exists lines,
    @searchRoot Game Book.lib 0 Book.endgameFen 0 2 Book.emptySearch
    = Some (Returned lines (mkGame Book.endgame []) (resetForRoot Book.emptySearch))
    /\ length lines = 2%nat.
Proof.
  eexists. split.
  - exact (@searchRoot_depth_zero Game Book.lib (excerpt_laws Book.book) 0
             Book.endgameFen 2 Book.emptySearch (mkGame Book.endgame []) eq_refl).
  - vm_compute. reflexivity.
Defined.

(** ** The progress bar of the analysis panel *)

Lemma percent_bounds (a b : nat) :
  (a <= b)%nat -> (1 <= b)%nat ->
  0 <= Js.round (Js.ofNat a / Js.ofNat b * 100)%Q <= 100.
Proof.
  intros Hab Hb. unfold Js.round, Js.ofNat.
  assert (Hbpos : (0 < inject_Z (Z.of_nat b))%Q).
  { change 0%Q with (inject_Z 0). rewrite <- Zlt_Qlt. lia. }
  assert (H0 : (0 <= inject_Z (Z.of_nat a) / inject_Z (Z.of_nat b))%Q).
  { apply Qle_shift_div_l; [done|]. rewrite Qmult_0_l.
    change 0%Q with (inject_Z 0). rewrite <- Zle_Qle. lia. }
  assert (H1 : (inject_Z (Z.of_nat a) / inject_Z (Z.of_nat b) <= 1)%Q).
  { apply Qle_shift_div_r; [done|]. rewrite Qmult_1_l. rewrite <- Zle_Qle. lia. }
  revert H0 H1. generalize (inject_Z (Z.of_nat a) / inject_Z (Z.of_nat b))%Q.
  intros q H0 H1. split.
  - apply Z.le_trans with (Qfloor (1 # 2)); [done|]. apply Qfloor_resp_le. lra.
  - apply Z.le_trans with (Qfloor (100 + (1 # 2))); [|done]. apply Qfloor_resp_le. lra.
Qed.

Lemma mapSet_keys_incl {V} (k : string) (v : V) (l : list (string * V)) (x : string) :
  In x (List.map fst (mapSet k v l)) -> x = k \/ In x (List.map fst l).
Proof.
  induction l as [|[k' v'] l IH]; simpl.
  - intros [<-|[]]. by left.
  - destruct (bool_decide (k' = k)) eqn:E; simpl.
    + intros [<-|Hin]; [by left|]. right. by right.
    + intros [<-|Hin]; [right; by left|]. destruct (IH Hin); [by left|]. right. by right.
Qed.

Lemma settle_progress (tasks : list Task) (schedule : list (Task * Outcome)) :
  Forall (fun ev => In (fst ev) tasks) schedule ->
  forall co,
    NoDup (List.map fst (co_results co)) ->
    incl (List.map fst (co_results co)) (List.map t_taskId tasks) ->
    Forall (fun e => stats_total (em_stats e) = co_maxPlans co
                     /\ (stats_tasks (em_stats e) <= length tasks)%nat) (co_emitted co) ->
    let co' := fold_left onSettled schedule co in
    co_maxPlans co' = co_maxPlans co
    /\ NoDup (List.map fst (co_results co'))
    /\ incl (List.map fst (co_results co')) (List.map t_taskId tasks)
    /\ Forall (fun e => stats_total (em_stats e) = co_maxPlans co
                        /\ (stats_tasks (em_stats e) <= length tasks)%nat)
              (co_emitted co').
Proof.
  induction schedule as [|[t o] rest IH]; intros Hs co Hnd Hincl Hf; simpl fold_left.
  - cbv zeta. by repeat split.
  - apply Forall_cons in Hs as [Ht Hs]. simpl in Ht.
    destruct o as [result|]; [|by apply IH].
    unfold onSettled at 2. cbn [snd fst].
    destruct (co_running co); [|by apply IH].
    set (co1 := emit false _).
    assert (Hnd1 : NoDup (List.map fst (co_results co1))).
    { subst co1. cbn [emit co_results]. by apply mapSet_NoDup. }
    assert (Hincl1 : incl (List.map fst (co_results co1)) (List.map t_taskId tasks)).
    { subst co1. cbn [emit co_results]. intros x Hx.
      apply mapSet_keys_incl in Hx as [->|Hx]; [by apply in_map|by apply Hincl]. }
    destruct (IH Hs co1 Hnd1 Hincl1) as (Hmp & Hnd' & Hincl' & Hf').
    { subst co1. cbn [emit co_emitted co_maxPlans co_results].
      apply Forall_app. split; [done|]. constructor; [|constructor]. simpl.
      split; [done|].
      pose proof (NoDup_incl_length (proj1 (NoDup_ListNoDup _) Hnd1) Hincl1) as Hlen.
      cbn [emit co_results] in Hlen. rewrite !length_map in Hlen. exact Hlen. }
    cbv zeta. by repeat split.
Qed.

Section Progress.
Context {Chess : Type} `{ChessLaws Chess}.

Lemma generate_length f maxPlans maxDepth tasks :
  generate f maxPlans maxDepth = Some tasks -> (1 <= maxPlans)%nat ->
  (length tasks <= maxPlans)%nat.
Proof.
  unfold generate. destruct (load f) as [c|]; cbn [mbind option_bind]; [|done].
  destruct (bool_decide (moves c = [])); [intros [= <-]; simpl; lia|].
  intros Hg Hmax. pose proof (f_equal (default []) Hg) as Ht.
  cbv [default from_option id] in Ht. subst tasks.
  destruct (level1_spec maxPlans maxDepth (length (moves c)) c (moves c)
              [mkTask f maxDepth (Nat.min 8 (length (moves c))) "root" None []] 1
              (fun m Hm => Hm))
    as (new & Hnew & _ & Hlen & _).
  rewrite Hnew, length_app. simpl in *. lia.
Qed.

(** X29: throughout a run on the generated tasks, however their promises settle,
    every emission reports [total = maxPlans] and at most as many [tasks] as
    were generated, so the progress the panel computes from them,
    [round(tasks / total * 100)], stays between 0 and 100. *)
Theorem progress_percent_bounds (f : string) (maxPlans maxDepth : nat)
    (tasks : list Task) (schedule : list (Task * Outcome)) :
  generate f maxPlans maxDepth = Some tasks ->
  (1 <= maxPlans)%nat ->
  Forall (fun ev => In (fst ev) tasks) schedule ->
  Forall (fun e => stats_total (em_stats e) = maxPlans
                   /\ (stats_tasks (em_stats e) <= length tasks)%nat
                   /\ 0 <= progressPercent (em_stats e) <= 100)
         (co_emitted (startRun maxPlans maxDepth schedule)).
Proof.
  intros Hg Hmax Hs.
  pose proof (generate_length _ _ _ _ Hg Hmax) as Hlen.
  assert (Hweak : forall l,
    Forall (fun e => stats_total (em_stats e) = maxPlans
                     /\ (stats_tasks (em_stats e) <= length tasks)%nat) l ->
    Forall (fun e => stats_total (em_stats e) = maxPlans
                     /\ (stats_tasks (em_stats e) <= length tasks)%nat
                     /\ 0 <= progressPercent (em_stats e) <= 100) l).
  { intros l Hl. eapply Forall_impl; [exact Hl|]. intros e [Ht Hn].
    split; [done|]. split; [done|]. unfold progressPercent. rewrite Ht.
    apply percent_bounds; lia. }
  apply Hweak. unfold startRun.
  destruct (settle_progress tasks schedule Hs (mkCoordinator maxPlans maxDepth true [] 0 []))
    as (Hmp & Hnd & Hincl & Hf); [constructor|by intros x []|constructor|].
  cbv zeta in *. cbn [co_maxPlans] in *.
  destruct (co_running _); [|exact Hf].
  cbn [emit co_emitted co_results co_maxPlans]. apply Forall_app. split; [exact Hf|].
  constructor; [|constructor]. simpl. split; [done|].
  pose proof (NoDup_incl_length (proj1 (NoDup_ListNoDup _) Hnd) Hincl) as Hl.
  by rewrite !length_map in Hl.
Qed.
End Progress.

Lemma progress_percent_bounds_witness :
  exists tasks,
    @generate Game Book.lib Book.endgameFen 16 6 = Some tasks
    /\ Forall (fun e => 0 <= progressPercent (em_stats e) <= 100)
              (co_emitted (startRun 16 6 (allResolved tasks))).
Proof.
  destruct (@generate Game Book.lib Book.endgameFen 16 6) as [tasks|] eqn:E;
    [|vm_compute in E; discriminate].
  exists tasks. split; [reflexivity|].
  assert (Hs : Forall (fun ev => In (fst ev) tasks) (allResolved tasks)).
  { unfold allResolved. apply Forall_forall. intros ev Hev.
    apply list_elem_of_fmap in Hev as (t & -> & Ht). by apply list_elem_of_In. }
  eapply Forall_impl;
    [exact (@progress_percent_bounds Game Book.lib (excerpt_laws Book.book)
              Book.endgameFen 16 6 tasks (allResolved tasks) E ltac:(lia) Hs)|].
  intros e (_ & _ & Hp). exact Hp.
Defined.

(** ** A search answered from the transposition table *)

Section TableHit.
Context {Chess : Type} `{ChessLib Chess}.

(** X10: when the slot of the position's FEN holds an entry for that FEN with
    flag EXACT and at least the requested depth, and the window is not
    closed by the mate-distance bounds, [alphaBeta] returns the stored score
    at once: one node is counted, no move is made and no table is written.
    The probe comes before the depth-0 and game-over tests, so this is also
    what is returned when the position on the board is, say, a draw by
    repetition. *)
Theorem alphaBeta_answers_from_table (n : nat) (c : Chess) (depth : nat)
    (alpha beta : Q) (maximizing : bool) (ply : nat) (st : Search) (e : TTEntry) :
  s_ttTable st !! ttKey (fen c) = Some e ->
  e_fen e = fen c ->
  (depth <= e_depth e)%nat ->
  e_flag e = TT_EXACT ->
  (Js.max alpha (Js.ofZ (- (30000 - Z.of_nat ply)))
   < Js.min beta (Js.ofZ (30000 - Z.of_nat ply)))%Q ->
  alphaBeta (S n) c depth alpha beta maximizing ply st
  = Some (e_score e, c, bumpNodes st).
Proof.
  intros Hslot Hfen Hdepth Hflag Hwin. simpl.
  apply Js_ltb_lt in Hwin. unfold Js.ltb in Hwin. apply negb_true_iff in Hwin.
  unfold Js.geb. rewrite Hwin.
  unfold ttGet. rewrite Hslot.
  rewrite (bool_decide_eq_true_2 _ Hfen). simpl.
  assert (Hd : (e_depth e <? depth)%nat = false) by (apply Nat.ltb_ge; lia).
  rewrite Hd. by rewrite (bool_decide_eq_true_2 _ Hflag).
Qed.
End TableHit.

Lemma alphaBeta_answers_from_table_witness :
  @alphaBeta Game Book.lib 1 (mkGame Book.endgame []) 2 (- INFINITY) INFINITY true 0
    (mkSearch 0 {[ ttKey Book.endgameFen := mkTTEntry Book.endgameFen 3 42 TT_EXACT None ]}
              ∅ ∅ ∅ ∅)
  = Some (42%Q, mkGame Book.endgame [],
          bumpNodes
            (mkSearch 0
               {[ ttKey Book.endgameFen := mkTTEntry Book.endgameFen 3 42 TT_EXACT None ]}
               ∅ ∅ ∅ ∅)).
Proof.
  apply (@alphaBeta_answers_from_table Game Book.lib 0 (mkGame Book.endgame []) 2
           (- INFINITY) INFINITY true 0 _
           (mkTTEntry Book.endgameFen 3 42 TT_EXACT None)).
  - vm_compute. reflexivity.
  - vm_compute. reflexivity.
  - simpl. lia.
  - reflexivity.
  - vm_compute. reflexivity.
Defined.

(** ** Arrows land on their squares *)

(** X30: for every cell of the grid, flipped or not, the canvas point computed
    for the square shown in that cell is the centre of the cell; and
    flipping the board shows in cell [(row, col)] the square that was in
    cell [(7 - row, 7 - col)]. *)
Theorem sqCenter_of_boardSq (flipped : bool) (row col : Z) (sqSize : Q) :
  0 <= row < 8 -> 0 <= col < 8 ->
  sqCenter flipped (boardSq flipped row col) sqSize
  = ((Js.ofZ col * sqSize + sqSize / 2)%Q, (Js.ofZ row * sqSize + sqSize / 2)%Q)
  /\ boardSq true row col = boardSq false (7 - row) (7 - col).
Proof.
  intros Hr Hc.
  assert (Er : row = 0 \/ row = 1 \/ row = 2 \/ row = 3 \/ row = 4 \/ row = 5
               \/ row = 6 \/ row = 7) by lia.
  assert (Ec : col = 0 \/ col = 1 \/ col = 2 \/ col = 3 \/ col = 4 \/ col = 5
               \/ col = 6 \/ col = 7) by lia.
  destruct Er as [->|[->|[->|[->|[->|[->|[->| ->]]]]]]];
    destruct Ec as [->|[->|[->|[->|[->|[->|[->| ->]]]]]]];
    destruct flipped; split; reflexivity.
Qed.

Lemma sqCenter_of_boardSq_witness :
  sqCenter true (boardSq true 6 3) 60 = ((Js.ofZ 3 * 60 + 60 / 2)%Q, (Js.ofZ 6 * 60 + 60 / 2)%Q).
Proof.
  exact (proj1 (sqCenter_of_boardSq true 6 3 60 ltac:(lia) ltac:(lia))).
Defined.

(** ** Instances *)

Lemma ttSet_keeps_deeper_entries_witness :
  exists e',
    ttSet {[ ttKey "ab" := mkTTEntry "ab" 5 10 TT_UPPER None ]} "ab" 3 42 TT_EXACT None
      !! ttKey "ab" = Some e'
    /\ (5 <= e_depth e')%nat.
Proof.
  destruct (ttSet_keeps_deeper_entries
              {[ ttKey "ab" := mkTTEntry "ab" 5 10 TT_UPPER None ]} "ab" 3 42 TT_EXACT None
              (ttKey "ab")) as [_ Hkeep].
  apply (Hkeep (mkTTEntry "ab" 5 10 TT_UPPER None)).
  vm_compute. reflexivity.
Defined.

Lemma lmrReduction_bounds_witness :
  (1 <= lmrReduction 5 4 <= 7)%nat
  /\ (5 - 1 - Nat.min (5 - 1) (lmrReduction 5 4) < 5 - 1)%nat.
Proof.
  destruct (lmrReduction_bounds 5 4) as (_ & Hin & _ & _ & Hred).
  split; [apply Hin; lia|apply Hred; lia].
Defined.

Lemma pool_work_conserving_witness :
  (stdpp.base.size (p_active (poolRun (List.map Dispatch threeTasks) (newPool 2))) <= 2)%nat
  /\ is_Some (p_active (poolRun (List.map Dispatch threeTasks) (newPool 2)) !! 1%nat).
Proof.
  destruct (pool_work_conserving 2 (List.map Dispatch threeTasks)) as (Hbusy & _ & Hsize).
  split; [exact Hsize|].
  destruct Hbusy as [Hq|Hall]; [vm_compute in Hq; discriminate|].
  apply Hall. vm_compute. lia.
Defined.
